(** * NBA points predictor: the fetch, feature and model-selection pipeline

    A shallow embedding of [streamlit_app.py] (module [App]) and of its
    earlier sibling [1streamlit_app.py] (module [App1]).

    Numbers are idealised: a finite Python/NumPy float is a canonical
    rational [Qc]; the non-finite floats the code can produce or compare
    with ([float('-inf')], the [nan] and [inf] of a NumPy division by zero)
    are constructors of [pyfloat].  A missing table cell is pandas' [NaN].
    The rolling mean is given twice: in exact arithmetic ([roll_mean]) and
    in binary64 with pandas' compensated running sum ([roll_mean64]). *)

From Stdlib Require Import ZArith QArith Qcanon Qround.
From Stdlib Require Floats.
From stdpp Require Import base numbers option list gmap strings pretty.

Local Open Scope Qc_scope.

(** ** Python and NumPy floats *)

Module Py.

Inductive pyfloat :=
| NegInf
| Fin (q : Qc)
| PosInf
| NaN.

#[global] Instance pyfloat_eq_dec : EqDecision pyfloat.
Proof. solve_decision. Defined.

(** [a > b] on floats: every comparison with [nan] is false. *)
Definition py_gt (a b : pyfloat) : bool :=
  match a, b with
  | NaN, _ | _, NaN => false
  | NegInf, _ => false
  | _, PosInf => false
  | Fin x, Fin y => bool_decide (y < x)
  | Fin _, NegInf => true
  | PosInf, _ => true
  end.

(** [a != b] on floats: [nan] differs from everything, itself included. *)
Definition py_ne (a b : pyfloat) : bool :=
  match a, b with
  | NaN, _ | _, NaN => true
  | _, _ => bool_decide (a ≠ b)
  end.

(** NumPy true division of two finite scalars.  A zero divisor does not
    raise: NumPy emits a RuntimeWarning and yields [nan] for 0/0 and a
    signed infinity otherwise. *)
Definition np_truediv (a b : Qc) : pyfloat :=
  if decide (b = 0) then
    if decide (a = 0) then NaN
    else if decide (0 < a) then PosInf else NegInf
  else Fin (a / b).

(** Multiplication of a float by a finite constant. *)
Definition np_mul (a : pyfloat) (c : Qc) : pyfloat :=
  match a with
  | NaN => NaN
  | Fin x => Fin (x * c)
  | PosInf =>
      if decide (c = 0) then NaN else if decide (0 < c) then PosInf else NegInf
  | NegInf =>
      if decide (c = 0) then NaN else if decide (0 < c) then NegInf else PosInf
  end.

Definition np_add (a b : pyfloat) : pyfloat :=
  match a, b with
  | NaN, _ | _, NaN => NaN
  | Fin x, Fin y => Fin (x + y)
  | PosInf, NegInf | NegInf, PosInf => NaN
  | PosInf, _ | _, PosInf => PosInf
  | NegInf, _ | _, NegInf => NegInf
  end.

(** A score the selection loop can take up: a number above [-inf]. *)
Definition comparable (s : pyfloat) : Prop := s ≠ NaN ∧ s ≠ NegInf.

(** Position [i] holds the maximum of [scores], and is the first to. *)
Definition first_max (scores : list pyfloat) (i : nat) : Prop :=
  ∃ s, scores !! i = Some s ∧
    (∀ j s', scores !! j = Some s' → py_gt s' s = false) ∧
    (∀ j s', (j < i)%nat → scores !! j = Some s' → py_gt s s' = true).

End Py.

(** ** The part of pandas the program uses *)

Module Pandas.

(** A table cell: a number, a string (dates, matchups, W/L) or [NaN]. *)
Inductive cell :=
| CNum (q : Qc)
| CStr (s : string)
| CNaN.

#[global] Instance cell_eq_dec : EqDecision cell.
Proof. solve_decision. Defined.

Abbreviation column := (list cell) (only parsing).

(** A frame: the row labels and the named columns, in column order. *)
Record DataFrame := mkDF {
  index : list Z;
  columns : list (string * column)
}.

#[global] Instance DataFrame_eq_dec : EqDecision DataFrame.
Proof. solve_decision. Defined.

Definition nrows (df : DataFrame) : nat := length (index df).

Definition column_names (df : DataFrame) : list string := (columns df).*1.

(** [df.empty]: some axis has length zero. *)
Definition empty (df : DataFrame) : bool :=
  bool_decide (nrows df = 0%nat) || bool_decide (length (columns df) = 0%nat).

Fixpoint assoc_get {A} (name : string) (l : list (string * A)) : option A :=
  match l with
  | [] => None
  | (n, c) :: rest => if decide (n = name) then Some c else assoc_get name rest
  end.

(** [l[name] = c] on an ordered mapping: replace in place, or append. *)
Fixpoint assoc_set {A} (name : string) (c : A) (l : list (string * A))
  : list (string * A) :=
  match l with
  | [] => [(name, c)]
  | (n, c') :: rest =>
      if decide (n = name) then (n, c) :: rest
      else (n, c') :: assoc_set name c rest
  end.

Definition assoc_set_all {A} (kvs l : list (string * A)) : list (string * A) :=
  foldl (λ acc kv, assoc_set kv.1 kv.2 acc) l kvs.

(** [df[name]]; [None] stands for the KeyError. *)
Definition get_column (name : string) (df : DataFrame) : option column :=
  assoc_get name (columns df).

(** [df[name] = col] *)
Definition set_column (name : string) (col : column) (df : DataFrame)
  : DataFrame :=
  mkDF (index df) (assoc_set name col (columns df)).

(** The numeric view of a column: [None] where the cell is missing; the
    whole view fails on a string cell (object dtype cannot be averaged). *)
Definition cell_number (c : cell) : option (option Qc) :=
  match c with
  | CNum q => Some (Some q)
  | CNaN => Some None
  | CStr _ => None
  end.

Definition as_numeric (col : column) : option (list (option Qc)) :=
  mapM cell_number col.

Definition of_number (v : option Qc) : cell :=
  match v with Some q => CNum q | None => CNaN end.

(** *** Rolling mean

    [Series.rolling(window=w, min_periods=minp).mean()] as pandas' fixed
    window kernel computes it: one pass that keeps the running sum and the
    number of observations of the current window, adding the entering
    cell and removing the cell that leaves; missing cells are skipped.
    Here the sum and the quotient are exact; the kernel with [float64]
    rounding and pandas' compensated sum is [roll_mean64] below. *)

Record roll_state := mkRoll { sum_x : Qc; nobs : nat }.

Definition add_mean (v : option Qc) (st : roll_state) : roll_state :=
  match v with
  | Some x => mkRoll (sum_x st + x) (S (nobs st))
  | None => st
  end.

Definition remove_mean (v : option Qc) (st : roll_state) : roll_state :=
  match v with
  | Some x => mkRoll (sum_x st - x) (pred (nobs st))
  | None => st
  end.

Definition calc_mean (minp : nat) (st : roll_state) : option Qc :=
  if bool_decide (minp ≤ nobs st)%nat && bool_decide (0 < nobs st)%nat
  then Some (sum_x st / Qc_of_Z (Z.of_nat (nobs st)))
  else None.

Fixpoint roll_mean_from (values : list (option Qc)) (w minp i : nat)
    (todo : list (option Qc)) (st : roll_state) : list (option Qc) :=
  match todo with
  | [] => []
  | v :: rest =>
      let st1 :=
        if bool_decide (w ≤ i)%nat
        then match values !! (i - w)%nat with
             | Some old => remove_mean old st
             | None => st
             end
        else st in
      let st2 := add_mean v st1 in
      calc_mean minp st2 :: roll_mean_from values w minp (S i) rest st2
  end.

Definition roll_mean (w minp : nat) (values : list (option Qc))
  : list (option Qc) :=
  roll_mean_from values w minp 0 values (mkRoll 0 0).

(** [col.rolling(window=w, min_periods=1).mean()] on a column. *)
Definition rolling_mean (w : nat) (col : column) : option column :=
  values ← as_numeric col;
  Some (of_number <$> roll_mean w 1 values).

(** *** Reductions that skip missing values *)

Definition present (values : list (option Qc)) : list Qc :=
  omap id values.

Definition Qc_sum (l : list Qc) : Qc := foldr Qcplus 0 l.

(** [col.sum()] *)
Definition col_sum (col : column) : option Qc :=
  values ← as_numeric col; Some (Qc_sum (present values)).

(** [col.mean()]: [nan] when no value is present. *)
Definition col_mean (col : column) : option Py.pyfloat :=
  values ← as_numeric col;
  let vs := present values in
  Some (match vs with
        | [] => Py.NaN
        | _ => Py.Fin (Qc_sum vs / Qc_of_Z (Z.of_nat (length vs)))
        end).

(** *** dropna and concat *)

Definition cell_missing (c : cell) : bool :=
  match c with CNaN => true | _ => false end.

(** The column has a value in row [i]. *)
Definition cell_ok (i : nat) (nc : string * column) : bool :=
  match nc.2 !! i with
  | Some c => negb (cell_missing c)
  | None => true
  end.

(** Row [i] has a value in every column. *)
Definition row_complete (df : DataFrame) (i : nat) : bool :=
  forallb (cell_ok i) (columns df).

Definition keep_rows {A} (keep : nat → bool) (l : list A) : list A :=
  (filter (λ ix : nat * A, keep ix.1 = true) (imap pair l)).*2.

(** The position, among the kept rows, of row [i]. *)
Definition kept_before (keep : nat → bool) (i : nat) : nat :=
  length (filter (λ k, keep k = true) (seq 0 i)).

(** [df.dropna()]: a new frame with the complete rows, labels kept. *)
Definition dropna (df : DataFrame) : DataFrame :=
  mkDF (keep_rows (row_complete df) (index df))
       (prod_map id (keep_rows (row_complete df)) <$> columns df).

Fixpoint union_names (seen : list string) (names : list string) : list string :=
  match names with
  | [] => seen
  | n :: rest =>
      if decide (n ∈ seen) then union_names seen rest
      else union_names (seen ++ [n]) rest
  end.

(** The cells a frame contributes to the column [name] of a concat:
    its own column, or one [NaN] per row when it has no such column. *)
Definition cells_for (name : string) (df : DataFrame) : column :=
  match get_column name df with
  | Some col => col
  | None => replicate (nrows df) CNaN
  end.

(** [pd.concat(frames, ignore_index=True)] (outer join on the columns).
    The program only calls it on a non-empty list. *)
Definition concat (frames : list DataFrame) : DataFrame :=
  let names := foldl union_names [] (column_names <$> frames) in
  let n := sum_list (nrows <$> frames) in
  mkDF (seqZ 0 (Z.of_nat n))
       ((λ name, (name, mjoin (cells_for name <$> frames))) <$> names).

(** [df[names]]: the sub-frame with the listed columns. *)
Definition select (names : list string) (df : DataFrame) : option DataFrame :=
  cols ← mapM (λ n, pair n <$> get_column n df) names;
  Some (mkDF (index df) cols).

(** *** The rolling mean as the documentation states it

    The value at row [i] is the mean of the observations among the
    [min (i + 1) w] most recent cells up to and including row [i]. *)

Definition last_n {A} (n : nat) (l : list A) : list A :=
  drop (length l - n) l.

Definition window_cells (values : list (option Qc)) (w i : nat)
  : list (option Qc) :=
  last_n (min (i + 1) w) (take (i + 1) values).

Definition mean (vs : list Qc) : Qc :=
  Qc_sum vs / Qc_of_Z (Z.of_nat (length vs)).

Definition window_mean (values : list (option Qc)) (w i : nat) : option Qc :=
  match present (window_cells values w i) with
  | [] => None
  | vs => Some (mean vs)
  end.

(** No cell of the frame is missing. *)
Definition complete (df : DataFrame) : Prop :=
  Forall (λ nc : string * column, Forall (λ c, cell_missing c = false) nc.2)
         (columns df).

(** The running state that summarises a list of cells. *)
Definition summary (cells : list (option Qc)) : roll_state :=
  mkRoll (Qc_sum (present cells)) (length (present cells)).

(** *** The rolling mean in binary64

    pandas computes the rolling mean on [float64] values.  A finite
    float is the rational it denotes, and an operation yields the exact
    result rounded to the nearest binary64, ties to even (53 bits of
    precision, least exponent -1074).  Overflow is left out: the
    statistics are far below the largest float. *)

(** [n / d] rounded to an integer, ties to even, for [0 ≤ n] and [0 < d]. *)
Definition round_half_even (n d : Z) : Z :=
  let q := (n / d)%Z in
  let r := (n mod d)%Z in
  if bool_decide (2 * r < d)%Z then q
  else if bool_decide (d < 2 * r)%Z then (q + 1)%Z
  else if Z.even q then q else (q + 1)%Z.

(** The integer part of the binary logarithm of [n / d], for [0 < n] and
    [0 < d]. *)
Definition ilog2 (n d : Z) : Z :=
  let e := (Z.log2 n - Z.log2 d)%Z in
  if bool_decide (0 ≤ e)%Z
  then if bool_decide (d * 2 ^ e ≤ n)%Z then e else (e - 1)%Z
  else if bool_decide (d ≤ n * 2 ^ (- e))%Z then e else (e - 1)%Z.

(** The binary64 nearest to [n / d], for [0 < n] and [0 < d]: the
    quotient is rounded at the exponent [p] of its last bit. *)
Definition rnd64_pos (n d : Z) : Q :=
  let p := Z.max (ilog2 n d - 52) (-1074) in
  if bool_decide (0 ≤ p)%Z
  then inject_Z (round_half_even n (d * 2 ^ p) * 2 ^ p)
  else Qmake (round_half_even (n * 2 ^ (- p)) d) (Z.to_pos (2 ^ (- p))).

Definition rnd64 (q : Qc) : Qc :=
  let n := Qnum q in
  let d := Zpos (Qden q) in
  if bool_decide (n = 0)%Z then 0
  else if bool_decide (0 < n)%Z then Q2Qc (rnd64_pos n d)
  else - Q2Qc (rnd64_pos (- n) d).

(** The rational that a float of Rocq's own binary64 denotes (0 for an
    infinity or a [NaN]): it lets [rnd64] be compared with the IEEE
    operations on sample inputs. *)
Definition float_value (x : PrimFloat.float) : Qc :=
  match FloatOps.Prim2SF x with
  | SpecFloat.S754_finite s m e =>
      let v := if bool_decide (0 ≤ e)%Z
               then inject_Z (Zpos m * 2 ^ e)
               else Qmake (Zpos m) (Z.to_pos (2 ^ (- e))) in
      Q2Qc (if s then Qopp v else v)
  | _ => 0
  end.

(** The float with mantissa [m] and exponent [e]. *)
Definition float_of (m : positive) (e : Z) : PrimFloat.float :=
  FloatOps.SF2Prim (SpecFloat.S754_finite false m e).

Definition f64_add (a b : Qc) : Qc := rnd64 (a + b).
Definition f64_sub (a b : Qc) : Qc := rnd64 (a - b).
Definition f64_div (a b : Qc) : Qc := rnd64 (a / b).

(** The state of pandas' kernel: the running sum with the compensations
    of its Kahan summation (one for the cells added, one for the cells
    removed), the number of observations and of negative observations,
    and the length and the value of the current run of equal cells.
    [None] stands for [NaN]. *)
Record roll_state64 := mkRoll64 {
  sum_x64 : Qc;
  compensation_add : Qc;
  compensation_remove : Qc;
  nobs64 : nat;
  neg_ct : nat;
  num_consecutive_same_value : nat;
  prev_value : option Qc
}.

Definition add_mean64 (v : option Qc) (st : roll_state64) : roll_state64 :=
  match v with
  | Some val =>
      let y := f64_sub val (compensation_add st) in
      let t := f64_add (sum_x64 st) y in
      mkRoll64 t (f64_sub (f64_sub t (sum_x64 st)) y)
               (compensation_remove st)
               (S (nobs64 st))
               (if bool_decide (val < 0) then S (neg_ct st) else neg_ct st)
               (if bool_decide (prev_value st = Some val)
                then S (num_consecutive_same_value st) else 1%nat)
               (Some val)
  | None => st
  end.

Definition remove_mean64 (v : option Qc) (st : roll_state64) : roll_state64 :=
  match v with
  | Some val =>
      let y := f64_sub (- val) (compensation_remove st) in
      let t := f64_add (sum_x64 st) y in
      mkRoll64 t (compensation_add st)
               (f64_sub (f64_sub t (sum_x64 st)) y)
               (pred (nobs64 st))
               (if bool_decide (val < 0) then pred (neg_ct st) else neg_ct st)
               (num_consecutive_same_value st)
               (prev_value st)
  | None => st
  end.

(** The quotient, replaced by the repeated value when the window holds
    one value only, and by 0 when its sign contradicts the signs of the
    observations. *)
Definition calc_mean64 (minp : nat) (st : roll_state64) : option Qc :=
  if bool_decide (minp ≤ nobs64 st)%nat && bool_decide (0 < nobs64 st)%nat
  then
    let result := f64_div (sum_x64 st) (Qc_of_Z (Z.of_nat (nobs64 st))) in
    if bool_decide (nobs64 st ≤ num_consecutive_same_value st)%nat
    then prev_value st
    else if bool_decide (neg_ct st = 0%nat) && bool_decide (result < 0)
    then Some 0
    else if bool_decide (neg_ct st = nobs64 st) && bool_decide (0 < result)
    then Some 0
    else Some result
  else None.

Fixpoint roll_mean_from64 (values : list (option Qc)) (w minp i : nat)
    (todo : list (option Qc)) (st : roll_state64) : list (option Qc) :=
  match todo with
  | [] => []
  | v :: rest =>
      let st1 :=
        if bool_decide (w ≤ i)%nat
        then match values !! (i - w)%nat with
             | Some old => remove_mean64 old st
             | None => st
             end
        else st in
      let st2 := add_mean64 v st1 in
      calc_mean64 minp st2 :: roll_mean_from64 values w minp (S i) rest st2
  end.

Definition roll_mean64 (w minp : nat) (values : list (option Qc))
  : list (option Qc) :=
  roll_mean_from64 values w minp 0 values
                   (mkRoll64 0 0 0 0 0 0 (mjoin (values !! 0%nat))).

(** [col.rolling(window=w, min_periods=1).mean()] on a column, in
    binary64. *)
Definition rolling_mean64 (w : nat) (col : column) : option column :=
  values ← as_numeric col;
  Some (of_number <$> roll_mean64 w 1 values).

(** An integer of magnitude at most [b]. *)
Definition integer_upto (b : Z) (q : Qc) : Prop :=
  Qden q = 1%positive ∧ (Z.abs (Qnum q) ≤ b)%Z.



End Pandas.

(** ** State and exceptions

    A computation reads and updates a state and either returns a value or
    raises; the state reached when it raises is kept, as after a Python
    exception. *)

Module Eff.

(** The Python exceptions the program raises or catches.  All of them
    are subclasses of [Exception]. *)
Inductive exn :=
| ReadTimeout
| ConnectionError
| KeyError (key : string)
| DataError
| ValueError
| OtherError (msg : string).

#[global] Instance exn_eq_dec : EqDecision exn.
Proof. solve_decision. Defined.

Definition M (S A : Type) : Type := S → (exn + A) * S.

#[global] Instance M_ret {S} : MRet (M S) := λ A x s, (inr x, s).

#[global] Instance M_bind {S} : MBind (M S) := λ A B f m s,
  match m s with
  | (inr x, s') => f x s'
  | (inl e, s') => (inl e, s')
  end.

Definition raise {S A} (e : exn) : M S A := λ s, (inl e, s).
Definition get {S} : M S S := λ s, (inr s, s).
Definition modify {S} (f : S → S) : M S unit := λ s, (inr tt, f s).

(** [try: body  except <handles>: handler] *)
Definition try_except {S A} (body : M S A) (handles : exn → bool)
    (handler : exn → M S A) : M S A := λ s,
  match body s with
  | (inl e, s') => if handles e then handler e s' else (inl e, s')
  | r => r
  end.

(** [for x in l: body x] *)
Fixpoint for_each {S A} (l : list A) (body : A → M S unit) : M S unit :=
  match l with
  | [] => mret tt
  | x :: rest => body x ;; for_each rest body
  end.

End Eff.

(** ** streamlit_app.py *)

Module App.
Import Py Pandas Eff.

(** *** Constants *)

Definition SEASON_CURRENT : string := "2024-25".
Definition SEASON_PREVIOUS : string := "2023-24".
Definition MAX_RETRIES : Z := 3.
Definition CACHE_TTL : Z := 3600.

(** *** The upstream data source and the world the fetch code acts on *)

(** An entry of the static player catalogue: the keys ['id'] and
    ['full_name'] of the dict the lookup returns. *)
Record player_entry := mkPlayer { ident : Z; full_name : string }.

(** [nba_api]: the catalogue lookup and the game-log endpoint.  What a
    request yields may depend on the requests issued before it; either
    call may raise. *)
Class NbaApi := {
  find_players_by_full_name : string → exn + list player_entry;
  PlayerGameLog : list (Z * string) → Z → string → exn + DataFrame
}.

(** What [st.warning] and [st.error] report. *)
Inductive message :=
| WarnPlayerNotFound (player_name : string)
| ErrPlayerId (player_name : string) (e : exn)
| ErrGameLog (player_id : Z) (season : string) (e : exn)
| ErrRetriesExhausted (player_name season : string) (max_retries : Z)
| WarnNoData (player : string)
| ErrPlayerData (player : string) (e : exn).

(** The world: the requests sent to the endpoint, the calls of
    [fetch_player_gamelog] (each one is an attempt), the arguments of
    [time.sleep], the messages shown, and the live entries of the
    [st.cache_data] store of [fetch_player_gamelog]. *)
Record World := mkWorld {
  requests : list (Z * string);
  attempts : list (Z * string);
  slept : list Z;
  messages : list message;
  gamelog_cache : gmap (Z * string) (option DataFrame)
}.

Definition send_request (k : Z * string) : M World unit :=
  modify (λ w, mkWorld (requests w ++ [k]) (attempts w) (slept w)
                       (messages w) (gamelog_cache w)).

Definition note_attempt (k : Z * string) : M World unit :=
  modify (λ w, mkWorld (requests w) (attempts w ++ [k]) (slept w)
                       (messages w) (gamelog_cache w)).

Definition sleep (seconds : Z) : M World unit :=
  modify (λ w, mkWorld (requests w) (attempts w) (slept w ++ [seconds])
                       (messages w) (gamelog_cache w)).

Definition st_report (m : message) : M World unit :=
  modify (λ w, mkWorld (requests w) (attempts w) (slept w)
                       (messages w ++ [m]) (gamelog_cache w)).

Definition cache_store (k : Z * string) (v : option DataFrame) : M World unit :=
  modify (λ w, mkWorld (requests w) (attempts w) (slept w)
                       (messages w) (<[k := v]> (gamelog_cache w))).

(** [except Exception] *)
Definition any_exception (e : exn) : bool := true.

(** [except (ReadTimeout, ConnectionError)] *)
Definition transient (e : exn) : bool :=
  match e with
  | ReadTimeout | ConnectionError => true
  | _ => false
  end.

(** [not player_id] *)
Definition not_id (player_id : option Z) : bool :=
  match player_id with
  | None => true
  | Some i => bool_decide (i = 0%Z)
  end.

(** [range(n)] *)
Definition range (n : Z) : list Z := seqZ 0 n.

Section fetch.
Context `{NbaApi}.

(** The [st.cache_data] wrapper of [get_player_id] is left out: the
    catalogue is static, so a cached answer is the answer. *)
Definition get_player_id (player_name : string) : M World (option Z) :=
  try_except
    (match find_players_by_full_name player_name with
     | inl e => raise e
     | inr [] =>
         st_report (WarnPlayerNotFound player_name) ;; mret None
     | inr (first :: _) => mret (Some (ident first))
     end)
    any_exception
    (λ e, st_report (ErrPlayerId player_name e) ;; mret None).

(** The body of [fetch_player_gamelog]. *)
Definition fetch_player_gamelog_uncached (player_id : Z) (season : string)
  : M World (option DataFrame) :=
  try_except
    (w ← get;
     send_request (player_id, season) ;;
     match PlayerGameLog (requests w) player_id season with
     | inl e => raise e
     | inr gamelog => mret (Some gamelog)
     end)
    any_exception
    (λ e, st_report (ErrGameLog player_id season e) ;; mret None).

(** [@st.cache_data(ttl=CACHE_TTL)]: a live entry answers the call; a
    returned value (a [None] too) is stored, a raised exception is not. *)
Definition fetch_player_gamelog (player_id : Z) (season : string)
  : M World (option DataFrame) :=
  note_attempt (player_id, season) ;;
  w ← get;
  match gamelog_cache w !! (player_id, season) with
  | Some cached => mret cached
  | None =>
      gamelog ← fetch_player_gamelog_uncached player_id season;
      cache_store (player_id, season) gamelog ;;
      mret gamelog
  end.

(** How a loop body is left: by falling through or [break], with the
    list built so far, or by a [return]. *)
Inductive flow :=
| Normal (gamelogs : list DataFrame)
| Return (value : option DataFrame).

(** [for attempt in range(max_retries): ...] for one season; [todo]
    holds the attempts still to run. *)
Fixpoint attempt_loop (player_name : string) (player_id : Z)
    (season : string) (max_retries : Z) (todo : list Z)
    (gamelogs : list DataFrame) : M World flow :=
  match todo with
  | [] => mret (Normal gamelogs)
  | attempt :: rest =>
      try_except
        (gamelog ← fetch_player_gamelog player_id season;
         mret (Normal (match gamelog with
                       | Some g => gamelogs ++ [g]
                       | None => gamelogs
                       end)))
        transient
        (λ e,
           if bool_decide (attempt < max_retries - 1)%Z
           then sleep 2 ;;
                attempt_loop player_name player_id season max_retries
                             rest gamelogs
           else st_report (ErrRetriesExhausted player_name season max_retries) ;;
                mret (Return None))
  end.

(** [for season in seasons: ...] *)
Fixpoint season_loop (player_name : string) (player_id : Z)
    (max_retries : Z) (seasons : list string) (gamelogs : list DataFrame)
  : M World flow :=
  match seasons with
  | [] => mret (Normal gamelogs)
  | season :: rest =>
      r ← attempt_loop player_name player_id season max_retries
                       (range max_retries) gamelogs;
      match r with
      | Normal gamelogs' =>
          season_loop player_name player_id max_retries rest gamelogs'
      | Return v => mret (Return v)
      end
  end.

Definition get_player_data (player_name : string) (max_retries : Z)
  : M World (option DataFrame) :=
  player_id ← get_player_id player_name;
  if not_id player_id then mret None
  else
    r ← season_loop player_name (default 0%Z player_id) max_retries
                    [SEASON_CURRENT; SEASON_PREVIOUS] [];
    match r with
    | Return v => mret v
    | Normal [] => mret None
    | Normal gamelogs => mret (Some (concat gamelogs))
    end.

End fetch.

(** *** The roster batch

    The pool runs one [get_player_data] per roster entry; the workers'
    outcomes and the order in which the futures complete are the
    scheduler's. *)

Abbreviation outcome := (exn + option DataFrame)%type (only parsing).

Record pool_run := mkRun {
  outcomes : list outcome;      (* by roster position *)
  completion : list nat         (* roster positions, in completion order *)
}.

Definition valid_run (roster : list string) (run : pool_run) : Prop :=
  length (outcomes run) = length roster ∧
  completion run ≡ₚ seq 0 (length roster).

(** [as_completed(future_to_player)] with each future's player. *)
Definition as_completed (roster : list string) (run : pool_run)
  : list (string * outcome) :=
  omap (λ i, p ← roster !! i; o ← outcomes run !! i; Some (p, o))
       (completion run).

(** One iteration of the collecting loop. *)
Definition collect (acc : gmap string DataFrame * list message)
    (done : string * outcome) : gmap string DataFrame * list message :=
  let '(player_data, shown) := acc in
  let '(player, result) := done in
  match result with
  | inr (Some data) =>
      if negb (empty data) then (<[player := data]> player_data, shown)
      else (player_data, shown ++ [WarnNoData player])
  | inr None => (player_data, shown ++ [WarnNoData player])
  | inl e => (player_data, shown ++ [ErrPlayerData player e])
  end.

Definition fetch_all_player_data (roster : list string) (run : pool_run)
  : gmap string DataFrame * list message :=
  foldl collect (∅, []) (as_completed roster run).

(** What the loop shows for a completed future that adds no entry: the
    warning of the [else] branch or the error of the handler. *)
Definition notice (done : string * outcome) : option message :=
  match done.2 with
  | inr (Some data) =>
      if negb (empty data) then None else Some (WarnNoData done.1)
  | inr None => Some (WarnNoData done.1)
  | inl e => Some (ErrPlayerData done.1 e)
  end.

(** *** Feature engineering *)

Definition features : list string :=
  ["MIN"; "FGM"; "FGA"; "FG_PCT"; "FG3M"; "FG3A"; "FG3_PCT";
   "FTM"; "FTA"; "FT_PCT"; "OREB"; "DREB"; "REB"; "AST"; "STL"; "BLK"].

Definition target : string := "PTS".

Definition rolling_windows : list nat := [3; 5; 10]%nat.

(** [f'{feature}_rolling_{window}'] *)
Definition rolling_name (feature : string) (window : nat) : string :=
  feature +:+ "_rolling_" +:+ pretty window.

(** Frames are objects: a variable holds a reference into the store. *)
Abbreviation ref := nat (only parsing).
Abbreviation store := (gmap nat DataFrame) (only parsing).

Definition deref (r : ref) : M store DataFrame := λ h,
  match h !! r with
  | Some df => (inr df, h)
  | None => (inl (OtherError "dangling reference"), h)
  end.

Definition assign (r : ref) (df : DataFrame) : M store unit :=
  modify (λ h : store, <[r := df]> h).

Definition alloc (df : DataFrame) : M store ref := λ h,
  let r := fresh (dom h) in (inr r, <[r := df]> h).

Definition getitem (name : string) (df : DataFrame) : M store column :=
  match get_column name df with
  | Some col => mret col
  | None => raise (KeyError name)
  end.

(** [game_log[name] = game_log[feature].rolling(window, min_periods=1).mean()]
    on the object [game_log] refers to. *)
Definition add_rolling (game_log : ref) (feature : string) (window : nat)
  : M store unit :=
  df ← deref game_log;
  col ← getitem feature df;
  match rolling_mean window col with
  | Some rolled => assign game_log (set_column (rolling_name feature window) rolled df)
  | None => raise DataError
  end.

(** The (feature, window) pairs in the order the two loops visit them. *)
Definition steps : list (string * nat) :=
  feature ← features ++ [target];
  window ← rolling_windows;
  [(feature, window)].

Definition rolling_columns : list string :=
  (λ p : string * nat, rolling_name p.1 p.2) <$> steps.

Definition preprocess_game_log (game_log : option ref) : M store (option ref) :=
  match game_log with
  | None => mret None
  | Some r =>
      df ← deref r;
      if empty df then mret None
      else
        for_each (features ++ [target]) (λ feature,
          for_each rolling_windows (λ window,
            add_rolling r feature window)) ;;
        df ← deref r;
        r' ← alloc (dropna df);
        mret (Some r')
  end.

(** The effect of the loop on the frame itself, for the proofs: one
    assignment [add_rolling_df], and the whole loop [augment]. *)
Definition add_rolling_df (feature : string) (window : nat) (df : DataFrame)
  : option DataFrame :=
  col ← get_column feature df;
  rolled ← rolling_mean window col;
  Some (set_column (rolling_name feature window) rolled df).

Fixpoint augment_with (todo : list (string * nat)) (df : DataFrame)
  : option DataFrame :=
  match todo with
  | [] => Some df
  | (feature, window) :: rest =>
      df' ← add_rolling_df feature window df; augment_with rest df'
  end.

Definition augment : DataFrame → option DataFrame := augment_with steps.

(** The derived columns of a table, each computed from the table's own
    base field, in loop order. *)
Definition derived_columns (todo : list (string * nat)) (df : DataFrame)
  : list (string * column) :=
  (λ p : string * nat,
     (rolling_name p.1 p.2,
      default [] (get_column p.1 df ≫= rolling_mean p.2))) <$> todo.

(** The table has every base field, as a numeric column. *)
Definition numeric_fields (df : DataFrame) : Prop :=
  ∀ f, f ∈ features ++ [target] →
    ∃ col values, get_column f df = Some col ∧ as_numeric col = Some values.

(** *** The feature matrix built in [main] *)

(** [sub in s] on strings. *)
Fixpoint contains (sub s : string) : bool :=
  String.prefix sub s ||
  match s with
  | EmptyString => false
  | String _ s' => contains sub s'
  end.

(** [[col for col in processed_data.columns if '_rolling_' in col]] *)
Definition feature_columns (processed_data : DataFrame) : list string :=
  filter (λ col, contains "_rolling_" col = true) (column_names processed_data).

(** [X = processed_data[features]] and [y = processed_data['PTS']] *)
Definition model_inputs (processed_data : DataFrame)
  : option (DataFrame * column) :=
  X ← select (feature_columns processed_data) processed_data;
  y ← get_column "PTS" processed_data;
  Some (X, y).

(** *** Training and selection *)

(** The candidate regressors with the hyperparameters the code passes. *)
Inductive estimator :=
| RandomForestRegressor (n_estimators random_state : Z)
| GradientBoostingRegressor (n_estimators random_state : Z)
| XGBRegressor (n_estimators random_state : Z)
| MLPRegressor (hidden_layer_sizes : list Z) (max_iter random_state : Z).

#[global] Instance estimator_eq_dec : EqDecision estimator.
Proof. solve_decision. Defined.

(** The four partitions [train_test_split] returns. *)
Record partition := mkSplit {
  X_train : DataFrame;
  X_test : DataFrame;
  y_train : column;
  y_test : column
}.

(** An entry of the [results] dict; [F] is the type of fitted models. *)
Record model_result (F : Type) := mkResult {
  result_model : F;
  result_score : pyfloat;
  result_predictions : list pyfloat;
  result_y_test : column
}.
Arguments mkResult {F}.
Arguments result_model {F}.
Arguments result_score {F}.
Arguments result_predictions {F}.
Arguments result_y_test {F}.

#[global] Instance model_result_eq_dec {F} `{EqDecision F} :
  EqDecision (model_result F).
Proof. solve_decision. Defined.

(** The variables the loop of [train_models] updates. *)
Record selection (F : Type) := mkSel {
  best_model : option F;
  best_score : pyfloat;
  results : list (string * model_result F)
}.
Arguments mkSel {F}.
Arguments best_model {F}.
Arguments best_score {F}.
Arguments results {F}.

(** scikit-learn and xgboost: splitting, fitting, scoring (the
    coefficient of determination, a float) and predicting. *)
Class Sklearn := {
  fitted : Type;
  train_test_split : DataFrame → column → Qc → Z → exn + partition;
  fit : estimator → DataFrame → column → fitted;
  score : fitted → DataFrame → column → pyfloat;
  predict : fitted → DataFrame → list pyfloat
}.

Definition models : list (string * estimator) :=
  [("Random Forest", RandomForestRegressor 100 42);
   ("Gradient Boosting", GradientBoostingRegressor 100 42);
   ("XGBoost", XGBRegressor 100 42);
   ("Neural Network", MLPRegressor [100; 50]%Z 1000 42)].

(** The library calls, in the order they are made. *)
Inductive call :=
| CallSplit (X : DataFrame) (y : column) (test_size : Qc) (random_state : Z)
| CallFit (name : string) (X : DataFrame) (y : column)
| CallScore (name : string) (X : DataFrame) (y : column)
| CallPredict (name : string) (X : DataFrame).

Definition record_call (c : call) : M (list call) unit :=
  modify (λ calls, calls ++ [c]).

Section training.
Context `{Sklearn}.

(** One iteration of [for name, model in models.items()]. *)
Definition train_one (parts : partition) (acc : selection fitted)
    (candidate : string * estimator) : M (list call) (selection fitted) :=
  let '(name, model) := candidate in
  record_call (CallFit name (X_train parts) (y_train parts)) ;;
  let model := fit model (X_train parts) (y_train parts) in
  record_call (CallScore name (X_test parts) (y_test parts)) ;;
  let score := score model (X_test parts) (y_test parts) in
  record_call (CallPredict name (X_test parts)) ;;
  let entry := mkResult model score (predict model (X_test parts))
                        (y_test parts) in
  let results := assoc_set name entry (results acc) in
  if py_gt score (best_score acc)
  then mret (mkSel (Some model) score results)
  else mret (mkSel (best_model acc) (best_score acc) results).

Fixpoint train_loop (parts : partition) (acc : selection fitted)
    (todo : list (string * estimator)) : M (list call) (selection fitted) :=
  match todo with
  | [] => mret acc
  | candidate :: rest =>
      acc' ← train_one parts acc candidate;
      train_loop parts acc' rest
  end.

Definition train_models (X : DataFrame) (y : column)
  : M (list call) (option fitted * list (string * model_result fitted)) :=
  record_call (CallSplit X y (Q2Qc (2 # 10)) 42) ;;
  match train_test_split X y (Q2Qc (2 # 10)) 42 with
  | inl e => raise e
  | inr parts =>
      final ← train_loop parts (mkSel None NegInf []) models;
      mret (best_model final, results final)
  end.

(** The entry stored for a candidate and the calls made for it. *)
Definition entry_of (parts : partition) (model : estimator)
  : model_result fitted :=
  let m := fit model (X_train parts) (y_train parts) in
  mkResult m (score m (X_test parts) (y_test parts))
           (predict m (X_test parts)) (y_test parts).

Definition calls_of (parts : partition) (name : string) : list call :=
  [CallFit name (X_train parts) (y_train parts);
   CallScore name (X_test parts) (y_test parts);
   CallPredict name (X_test parts)].

Definition entries (parts : partition)
  : list (string * model_result fitted) :=
  (λ c : string * estimator, (c.1, entry_of parts c.2)) <$> models.

End training.

Section selecting.
Context {F : Type}.

(** The effect of one iteration on the loop variables. *)
Definition select_one (acc : selection F)
    (candidate : string * model_result F) : selection F :=
  let results := assoc_set candidate.1 candidate.2 (results acc) in
  if py_gt (result_score candidate.2) (best_score acc)
  then mkSel (Some (result_model candidate.2)) (result_score candidate.2)
             results
  else mkSel (best_model acc) (best_score acc) results.

Definition scores_of (l : list (string * model_result F)) : list pyfloat :=
  (λ c : string * model_result F, result_score c.2) <$> l.

(** What the loop variables hold after the candidates [done]: nothing
    before the first candidate, then a candidate at the first maximum. *)
Definition selected (done : list (string * model_result F))
    (acc : selection F) : Prop :=
  match best_model acc with
  | None => done = [] ∧ best_score acc = NegInf
  | Some m =>
      ∃ i c, done !! i = Some c ∧ m = result_model c.2 ∧
        best_score acc = result_score c.2 ∧ first_max (scores_of done) i
  end.

(** Python's [max(iterable, key=key)]: the running maximum is replaced
    only by an item whose key compares greater. *)
Fixpoint max_from {A} (key : A → pyfloat) (current : A) (rest : list A) : A :=
  match rest with
  | [] => current
  | x :: rest' =>
      max_from key (if py_gt (key x) (key current) then x else current) rest'
  end.

Definition py_max {A} (key : A → pyfloat) (items : list A) : option A :=
  match items with
  | [] => None
  | x :: rest => Some (max_from key x rest)
  end.

(** [model_results[max(model_results.items(),
                       key=lambda x: x[1]['score'])[0]]] in [main] *)
Definition best_result (model_results : list (string * model_result F))
  : option (model_result F) :=
  item ← py_max (λ x : string * model_result F, result_score x.2)
                model_results;
  assoc_get item.1 model_results.

End selecting.

(** *** The metrics reported in [main] *)

Definition column_sum (name : string) (df : DataFrame) : option Qc :=
  get_column name df ≫= col_sum.

Definition column_mean (name : string) (df : DataFrame) : option pyfloat :=
  get_column name df ≫= col_mean.


Definition impact_metrics (processed_data : DataFrame)
  : option (list (string * pyfloat)) :=
  usage ← column_mean "MIN" processed_data;
  fgm ← column_sum "FGM" processed_data;
  fga ← column_sum "FGA" processed_data;
  stl ← column_mean "STL" processed_data;
  blk ← column_mean "BLK" processed_data;
  pts ← column_sum "PTS" processed_data;
  minutes ← column_sum "MIN" processed_data;
  Some [("Usage Rate", usage);
        ("Offensive Rating", np_mul (np_truediv fgm fga) (Q2Qc 100));
        ("Defensive Impact", np_add stl blk);
        ("Efficiency", np_mul (np_truediv pts minutes) (Q2Qc 48))].

(** *** Feature engineering with the kernel as a parameter

    [preprocess_game_log] with the rolling mean it calls as a parameter:
    at [rolling_mean] it is the function above, which computes in exact
    arithmetic; at [rolling_mean64] it computes in binary64, as pandas
    does. *)

Definition add_rolling_with (kernel : nat → column → option column)
    (game_log : ref) (feature : string) (window : nat) : M store unit :=
  df ← deref game_log;
  col ← getitem feature df;
  match kernel window col with
  | Some rolled =>
      assign game_log (set_column (rolling_name feature window) rolled df)
  | None => raise DataError
  end.

Definition preprocess_game_log_with (kernel : nat → column → option column)
    (game_log : option ref) : M store (option ref) :=
  match game_log with
  | None => mret None
  | Some r =>
      df ← deref r;
      if empty df then mret None
      else
        for_each (features ++ [target]) (λ feature,
          for_each rolling_windows (λ window,
            add_rolling_with kernel r feature window)) ;;
        df ← deref r;
        r' ← alloc (dropna df);
        mret (Some r')
  end.




(** *** Teams and rosters *)

(** An entry of the static team catalogue: the keys ['id'] and
    ['abbreviation'] of a team's dict. *)
Record team_entry := mkTeam { team_id : Z; abbreviation : string }.

(** [nba_api]: the team catalogue, its search by abbreviation (a dict or
    [None]) and the roster endpoint, whose first frame is used.  What a
    request yields may depend on the requests issued before it; the
    search and the request may raise. *)
Class TeamsApi := {
  get_teams : list team_entry;
  find_team_by_abbreviation : string → exn + option team_entry;
  CommonTeamRoster : list Z → Z → exn + DataFrame
}.

(** What [get_team_roster] reports with [st.error]. *)
Inductive roster_message :=
| ErrTeamNotFound (team_abbreviation : string)
| ErrRoster (team_abbreviation : string) (e : exn).

(** The requests sent to the roster endpoint, the messages shown, and the
    live entries of the [st.cache_data] store of [get_team_roster]. *)
Record RosterWorld := mkRosterWorld {
  roster_requests : list Z;
  roster_messages : list roster_message;
  roster_cache : gmap string (list cell)
}.

Definition send_roster_request (team : Z) : M RosterWorld unit :=
  modify (λ w, mkRosterWorld (roster_requests w ++ [team])
                             (roster_messages w) (roster_cache w)).

Definition st_error (m : roster_message) : M RosterWorld unit :=
  modify (λ w, mkRosterWorld (roster_requests w)
                             (roster_messages w ++ [m]) (roster_cache w)).

Definition roster_cache_store (k : string) (v : list cell)
  : M RosterWorld unit :=
  modify (λ w, mkRosterWorld (roster_requests w) (roster_messages w)
                             (<[k := v]> (roster_cache w))).

Section rosters.
Context `{TeamsApi}.

Definition get_team_abbreviations : list string :=
  abbreviation <$> get_teams.

Definition get_team_by_abbreviation (abbreviation : string)
  : exn + option team_entry :=
  find_team_by_abbreviation abbreviation.

(** The body of [get_team_roster]. *)
Definition get_team_roster_uncached (team_abbreviation : string)
  : M RosterWorld (list cell) :=
  try_except
    (match get_team_by_abbreviation team_abbreviation with
     | inl e => raise e
     | inr None =>
         st_error (ErrTeamNotFound team_abbreviation) ;; mret []
     | inr (Some team_info) =>
         w ← get;
         send_roster_request (team_id team_info) ;;
         match CommonTeamRoster (roster_requests w) (team_id team_info) with
         | inl e => raise e
         | inr roster =>
             match get_column "PLAYER" roster with
             | Some player_names => mret player_names
             | None => raise (KeyError "PLAYER")
             end
         end
     end)
    any_exception
    (λ e, st_error (ErrRoster team_abbreviation e) ;; mret []).

(** [@st.cache_data(ttl=CACHE_TTL)] *)
Definition get_team_roster (team_abbreviation : string)
  : M RosterWorld (list cell) :=
  w ← get;
  match roster_cache w !! team_abbreviation with
  | Some cached => mret cached
  | None =>
      player_names ← get_team_roster_uncached team_abbreviation;
      roster_cache_store team_abbreviation player_names ;;
      mret player_names
  end.

End rosters.

End App.

(** ** 1streamlit_app.py *)

Module App1.
Import Py Pandas Eff.

Definition features : list string := App.features.
Definition target : string := "PTS".
Definition windows : list nat := [3; 5; 10]%nat.

(** [f'{col}_roll_{w}'] *)
Definition roll_name (col : string) (w : nat) : string :=
  col +:+ "_roll_" +:+ pretty w.

Definition add_rolling (df : App.ref) (col : string) (w : nat)
  : M App.store unit :=
  frame ← App.deref df;
  values ← App.getitem col frame;
  match rolling_mean w values with
  | Some rolled => App.assign df (set_column (roll_name col w) rolled frame)
  | None => raise DataError
  end.

Definition preprocess_game_log (df : option App.ref)
  : M App.store (option App.ref) :=
  match df with
  | None => mret None
  | Some r =>
      frame ← App.deref r;
      if empty frame then mret None
      else
        for_each (features ++ [target]) (λ col,
          for_each windows (λ w, add_rolling r col w)) ;;
        frame ← App.deref r;
        r' ← App.alloc (dropna frame);
        mret (Some r')
  end.

(** The guarded ratios: [a / b * k if b != 0 else 0]. *)
Definition impact_metrics (processed_df : DataFrame)
  : option (list (string * pyfloat)) :=
  usage ← App.column_mean "MIN" processed_df;
  fgm ← App.column_sum "FGM" processed_df;
  fga ← App.column_sum "FGA" processed_df;
  stl ← App.column_mean "STL" processed_df;
  blk ← App.column_mean "BLK" processed_df;
  pts ← App.column_sum "PTS" processed_df;
  minutes ← App.column_sum "MIN" processed_df;
  Some [("Usage Rate", usage);
        ("Offensive Rating",
           if py_ne (Fin fga) (Fin 0)
           then np_mul (np_truediv fgm fga) (Q2Qc 100) else Fin 0);
        ("Defensive Impact", np_add stl blk);
        ("Efficiency",
           if py_ne (Fin minutes) (Fin 0)
           then np_mul (np_truediv pts minutes) (Q2Qc 48) else Fin 0)].

(** *** Rosters *)

Section rosters.
Context `{App.TeamsApi}.

Definition get_team_abbreviations : list string :=
  App.abbreviation <$> App.get_teams.

Definition get_team_by_abbreviation (abbrev : string)
  : exn + option App.team_entry :=
  App.find_team_by_abbreviation abbrev.

(** The body of [get_team_roster]: no handler, an exception leaves the
    function. *)
Definition get_team_roster_uncached (team_abbrev : string)
  : M App.RosterWorld (list cell) :=
  match get_team_by_abbreviation team_abbrev with
  | inl e => raise e
  | inr None =>
      App.st_error (App.ErrTeamNotFound team_abbrev) ;; mret []
  | inr (Some team_info) =>
      w ← get;
      App.send_roster_request (App.team_id team_info) ;;
      match App.CommonTeamRoster (App.roster_requests w)
                                 (App.team_id team_info) with
      | inl e => raise e
      | inr roster_df =>
          match get_column "PLAYER" roster_df with
          | Some names => mret names
          | None => raise (KeyError "PLAYER")
          end
      end
  end.

(** [@st.cache_data(ttl=CACHE_TTL)]: only a returned value is stored. *)
Definition get_team_roster (team_abbrev : string)
  : M App.RosterWorld (list cell) :=
  w ← get;
  match App.roster_cache w !! team_abbrev with
  | Some cached => mret cached
  | None =>
      names ← get_team_roster_uncached team_abbrev;
      App.roster_cache_store team_abbrev names ;;
      mret names
  end.

End rosters.

(** *** Fetching *)

(** What [st.warning] and [st.error] report here: the game-log error
    names the season only. *)
Inductive message :=
| WarnPlayerNotFound (player_name : string)
| ErrGameLog (season : string) (e : exn).

Record World := mkWorld {
  requests : list (Z * string);
  messages : list message;
  gamelog_cache : gmap (Z * string) (option DataFrame)
}.

Definition send_request (k : Z * string) : M World unit :=
  modify (λ w, mkWorld (requests w ++ [k]) (messages w) (gamelog_cache w)).

Definition st_report (m : message) : M World unit :=
  modify (λ w, mkWorld (requests w) (messages w ++ [m]) (gamelog_cache w)).

Definition cache_store (k : Z * string) (v : option DataFrame)
  : M World unit :=
  modify (λ w, mkWorld (requests w) (messages w)
                       (<[k := v]> (gamelog_cache w))).

Section fetch.
Context `{App.NbaApi}.

(** No handler: a failing lookup raises.  The [st.cache_data] wrapper
    is left out, as for the other version. *)
Definition get_player_id (player_name : string) : M World (option Z) :=
  match App.find_players_by_full_name player_name with
  | inl e => raise e
  | inr (first :: _) => mret (Some (App.ident first))
  | inr [] => st_report (WarnPlayerNotFound player_name) ;; mret None
  end.

Definition fetch_player_gamelog_uncached (player_id : Z) (season : string)
  : M World (option DataFrame) :=
  try_except
    (w ← get;
     send_request (player_id, season) ;;
     match App.PlayerGameLog (requests w) player_id season with
     | inl e => raise e
     | inr gamelog => mret (Some gamelog)
     end)
    App.any_exception
    (λ e, st_report (ErrGameLog season e) ;; mret None).

Definition fetch_player_gamelog (player_id : Z) (season : string)
  : M World (option DataFrame) :=
  w ← get;
  match gamelog_cache w !! (player_id, season) with
  | Some cached => mret cached
  | None =>
      gamelog ← fetch_player_gamelog_uncached player_id season;
      cache_store (player_id, season) gamelog ;;
      mret gamelog
  end.

(** [for season in [SEASON_CURRENT, SEASON_PREVIOUS]: ...] *)
Fixpoint season_loop (player_id : Z) (seasons : list string)
    (gamelogs : list DataFrame) : M World (list DataFrame) :=
  match seasons with
  | [] => mret gamelogs
  | season :: rest =>
      df ← fetch_player_gamelog player_id season;
      season_loop player_id rest
                  (match df with
                   | Some g => gamelogs ++ [g]
                   | None => gamelogs
                   end)
  end.

Definition get_player_data (player_name : string)
  : M World (option DataFrame) :=
  player_id ← get_player_id player_name;
  if App.not_id player_id then mret None
  else
    gamelogs ← season_loop (default 0%Z player_id)
                           [App.SEASON_CURRENT; App.SEASON_PREVIOUS] [];
    mret (match gamelogs with
          | [] => None
          | _ => Some (concat gamelogs)
          end).

End fetch.

(** *** The effect of the loop of [preprocess_game_log] on the frame,
    for the proofs *)

Definition add_rolling_df (col : string) (w : nat) (frame : DataFrame)
  : option DataFrame :=
  values ← get_column col frame;
  rolled ← rolling_mean w values;
  Some (set_column (roll_name col w) rolled frame).

Fixpoint augment_with (todo : list (string * nat)) (frame : DataFrame)
  : option DataFrame :=
  match todo with
  | [] => Some frame
  | (col, w) :: rest =>
      frame' ← add_rolling_df col w frame; augment_with rest frame'
  end.

(** The (column, window) pairs in loop order, and the names written. *)
Definition steps : list (string * nat) :=
  col ← features ++ [target];
  w ← windows;
  [(col, w)].

Definition roll_columns : list string :=
  (λ p : string * nat, roll_name p.1 p.2) <$> steps.

Definition derived_columns (todo : list (string * nat)) (frame : DataFrame)
  : list (string * column) :=
  (λ p : string * nat,
     (roll_name p.1 p.2,
      default [] (get_column p.1 frame ≫= rolling_mean p.2))) <$> todo.

End App1.

(** ** Sample inputs *)

Module Samples.
Import Py Pandas Eff App.

Definition ints (l : list Z) : column := (λ z, CNum (Qc_of_Z z)) <$> l.

(** A game log as the endpoint delivers it: date, matchup, the sixteen
    box-score fields and the points.  [minutes] and [points] give the
    rows; the other fields are zero. *)
Definition game_log (minutes points : list Z) : DataFrame :=
  let n := length points in
  mkDF (seqZ 0 (Z.of_nat n))
       ([("GAME_DATE", replicate n (CStr "2024-11-01"));
         ("MATCHUP", replicate n (CStr "LAL vs. BOS"));
         ("MIN", ints minutes)]
        ++ ((λ f, (f, replicate n (CNum 0))) <$> tail features)
        ++ [("PTS", ints points)]).

Definition two_games : DataFrame := game_log [30; 32]%Z [10; 20]%Z.

(** A player with no recorded minutes. *)
Definition bench_log : DataFrame := game_log [0; 0]%Z [0; 0]%Z.

Definition five_games : DataFrame :=
  game_log [30; 32; 28; 35; 31]%Z [10; 20; 15; 25; 18]%Z.

Definition ten_games : DataFrame :=
  game_log [30; 32; 28; 35; 31; 29; 33; 34; 27; 36]%Z
           [10; 20; 15; 25; 18; 22; 12; 30; 16; 21]%Z.

Definition lebron : player_entry := mkPlayer 2544 "LeBron James".

(** An upstream whose first request times out and whose later requests
    deliver [two_games]. *)
Definition flaky_api : NbaApi := {|
  find_players_by_full_name name :=
    if decide (name = "LeBron James") then inr [lebron] else inr [];
  PlayerGameLog history player_id season :=
    match history with
    | [] => inl ReadTimeout
    | _ => inr two_games
    end
|}.

Definition fresh_world : World := mkWorld [] [] [] [] ∅.

(** A three-player batch: one table, one player without data, one worker
    that raised; the futures complete out of submission order. *)
Definition trio : list string := ["Anthony Davis"; "LeBron James"; "Bronny James"].

Definition trio_run : pool_run :=
  mkRun [inr (Some two_games); inr None; inl (OtherError "worker failed")]
        [2; 0; 1]%nat.

(** A stand-in for scikit-learn: an unshuffled 80/20 split, and a score
    that is undefined ([nan]) on fewer than two held-out rows, as the
    coefficient of determination is, and [r2 model] otherwise. *)
Definition rows_upto (k : nat) (df : DataFrame) : DataFrame :=
  mkDF (take k (index df))
       ((λ nc : string * column, (nc.1, take k nc.2)) <$> columns df).

Definition rows_from (k : nat) (df : DataFrame) : DataFrame :=
  mkDF (drop k (index df))
       ((λ nc : string * column, (nc.1, drop k nc.2)) <$> columns df).

Definition ordered_split (X : DataFrame) (y : column) (test_size : Qc)
    (random_state : Z) : exn + partition :=
  let n := nrows X in
  let n_test := Z.to_nat (Qceiling (test_size * Qc_of_Z (Z.of_nat n))%Qc) in
  let n_train := (n - n_test)%nat in
  if bool_decide (n_train = 0%nat) then inl ValueError
  else inr (mkSplit (rows_upto n_train X) (rows_from n_train X)
                    (take n_train y) (drop n_train y)).

Definition stub_sklearn (r2 : estimator → pyfloat) : Sklearn := {|
  fitted := estimator;
  train_test_split := ordered_split;
  fit model _ _ := model;
  score model X_test _ :=
    if bool_decide (nrows X_test < 2)%nat then NaN else r2 model;
  predict model X_test := replicate (nrows X_test) (Fin 0)
|}.

(** The feature matrix and the target [main] builds from a game log. *)
Definition inputs_of (log : DataFrame) : option (DataFrame * column) :=
  a ← augment log; model_inputs (dropna a).

(** The scores 0.5, 0.7, 0.7, 0.3 in declared order. *)
Definition declared_scores (model : estimator) : pyfloat :=
  match model with
  | RandomForestRegressor _ _ => Fin (Q2Qc (5 # 10))
  | GradientBoostingRegressor _ _ => Fin (Q2Qc (7 # 10))
  | XGBRegressor _ _ => Fin (Q2Qc (7 # 10))
  | MLPRegressor _ _ _ => Fin (Q2Qc (3 # 10))
  end.

Definition declared : Sklearn := stub_sklearn declared_scores.

Definition features_of (log : DataFrame) : DataFrame :=
  match inputs_of log with Some (X, _) => X | None => log end.

Definition target_of (log : DataFrame) : column :=
  match inputs_of log with Some (_, y) => y | None => [] end.

(** Training on a game log with the stand-in library: the whole run,
    and the [results] dict and the calls it leaves. *)
Definition train_on (log : DataFrame)
  : (exn + option estimator * list (string * model_result estimator))
    * list call :=
  @train_models declared (features_of log) (target_of log) [].

Definition results_on (log : DataFrame)
  : list (string * model_result estimator) :=
  match (train_on log).1 with inr p => p.2 | inl _ => [] end.

Definition calls_on (log : DataFrame) : list call := (train_on log).2.

(** A two-game log without the assists column. *)
Definition no_assists : DataFrame :=
  mkDF (index two_games)
       (filter (λ nc : string * column, nc.1 ≠ "AST") (columns two_games)).

(** A two-game log with field goals made and attempted. *)
Definition shooting_log : DataFrame :=
  set_column "FGA" (ints [10; 12]%Z)
             (set_column "FGM" (ints [4; 6]%Z) two_games).

(** A three-game log whose second game has no points recorded. *)
Definition gap_log : DataFrame :=
  set_column "PTS" [CNum (Qc_of_Z 10); CNaN; CNum (Qc_of_Z 20)]
             (game_log [30; 32; 28]%Z [10; 0; 20]%Z).



End Samples.

(** * Proofs *)

Import Py Pandas Eff App Samples.

Ltac compute_true := apply (bool_decide_unpack _); vm_compute; exact I.

(** ** The rolling mean *)

Lemma present_app l1 l2 : present (l1 ++ l2) = present l1 ++ present l2.
Proof. unfold present. by rewrite omap_app. Qed.

Lemma Qc_sum_app l1 l2 : Qc_sum (l1 ++ l2) = Qc_sum l1 + Qc_sum l2.
Proof.
  induction l1 as [|x l1 IH]; simpl.
  - ring.
  - rewrite IH. ring.
Qed.

Lemma summary_snoc l v : summary (l ++ [v]) = add_mean v (summary l).
Proof.
  unfold summary. rewrite present_app. destruct v as [x|]; simpl.
  - rewrite Qc_sum_app, length_app. simpl. f_equal; [ring | lia].
  - by rewrite app_nil_r.
Qed.

Lemma summary_cons v l : remove_mean v (summary (v :: l)) = summary l.
Proof.
  unfold summary. destruct v as [x|]; simpl; [|done].
  f_equal. ring.
Qed.


Lemma last_n_snoc {A} n (l : list A) x :
  (n ≤ length l)%nat → last_n (S n) (l ++ [x]) = last_n n l ++ [x].
Proof.
  intros H. unfold last_n. rewrite length_app. simpl.
  replace (length l + 1 - S n)%nat with (length l - n)%nat by lia.
  rewrite drop_app_le by lia. done.
Qed.

Lemma last_n_uncons {A} n (l : list A) x :
  (S n ≤ length l)%nat → l !! (length l - S n)%nat = Some x →
  last_n (S n) l = x :: last_n n l.
Proof.
  intros H Hx. unfold last_n.
  rewrite (drop_S _ _ _ Hx). f_equal. f_equal. lia.
Qed.

Lemma roll_mean_from_lookup values w minp :
  (1 ≤ w)%nat →
  ∀ todo done st,
    values = done ++ todo →
    st = summary (last_n (min (length done) w) done) →
    ∀ k, (k < length todo)%nat →
      roll_mean_from values w minp (length done) todo st !! k
      = Some (calc_mean minp (summary (window_cells values w (length done + k)))).
Proof.
  intros Hw todo. induction todo as [|v rest IH]; intros done st Hv Hst k Hk.
  - simpl in Hk. lia.
  - set (i := length done).
    assert (Hst1 :
      (if bool_decide (w ≤ i)%nat
       then match values !! (i - w)%nat with
            | Some old => remove_mean old st
            | None => st
            end
       else st) = summary (last_n (min i (w - 1)) done)).
    { case_bool_decide as Hwi.
      - assert (is_Some (done !! (i - w)%nat)) as [old Hold].
        { apply lookup_lt_is_Some. unfold i in *. lia. }
        rewrite Hv, lookup_app_l by (unfold i in *; lia). rewrite Hold.
        rewrite Hst. replace (min (length done) w) with (S (w - 1)) by (unfold i in *; lia).
        rewrite (last_n_uncons _ _ old).
        + rewrite summary_cons. f_equal. f_equal. lia.
        + unfold i in *. lia.
        + rewrite <- Hold. f_equal. unfold i. lia.
      - rewrite Hst. f_equal. f_equal. unfold i in *. lia. }
    assert (Hst2 : add_mean v (summary (last_n (min i (w - 1)) done))
                   = summary (last_n (min (S i) w) (done ++ [v]))).
    { rewrite <- summary_snoc. f_equal.
      replace (min (S i) w) with (S (min i (w - 1))) by lia.
      rewrite last_n_snoc; [done | unfold i; lia]. }
    simpl. fold i. rewrite Hst1, Hst2.
    destruct k as [|k]; simpl.
    + f_equal. f_equal. f_equal. unfold window_cells.
      rewrite Nat.add_0_r. fold i. rewrite Hv.
      replace (i + 1)%nat with (S i) by lia.
      f_equal. rewrite take_app_ge by (unfold i; lia).
      replace (S i - length done)%nat with 1%nat by (unfold i; lia). done.
    + specialize (IH (done ++ [v]) (summary (last_n (min (S i) w) (done ++ [v])))).
      rewrite length_app in IH. simpl in IH.
      replace (length done + 1)%nat with (S i) in IH by (unfold i; lia).
      rewrite IH.
      * f_equal. f_equal. f_equal. f_equal. unfold i. lia.
      * rewrite Hv. by rewrite <- app_assoc.
      * done.
      * simpl in Hk. lia.
Qed.

Lemma roll_mean_lookup values w minp i :
  (1 ≤ w)%nat → (i < length values)%nat →
  roll_mean w minp values !! i
  = Some (calc_mean minp (summary (window_cells values w i))).
Proof.
  intros Hw Hi. unfold roll_mean.
  apply (roll_mean_from_lookup values w minp Hw values [] (mkRoll 0 0)); [done| |].
  - unfold last_n. by rewrite drop_nil.
  - done.
Qed.

Lemma length_window_cells values w i :
  (i < length values)%nat → length (window_cells values w i) = min (i + 1) w.
Proof.
  intros Hi. unfold window_cells, last_n.
  rewrite length_drop, length_take. lia.
Qed.

Lemma present_Some vs : present (Some <$> vs) = vs.
Proof. unfold present. induction vs; simpl; [done|]. by f_equal. Qed.

Lemma roll_mean_all_present values w i vs :
  (1 ≤ w)%nat → (i < length values)%nat →
  window_cells values w i = Some <$> vs →
  roll_mean w 1 values !! i = Some (Some (mean vs)).
Proof.
  intros Hw Hi Hvs. rewrite roll_mean_lookup by done.
  f_equal. unfold calc_mean, summary. rewrite Hvs, present_Some. simpl.
  assert (length vs = min (i + 1) w) as Hl.
  { rewrite <- (length_window_cells values w i Hi), Hvs. by rewrite length_fmap. }
  rewrite !bool_decide_eq_true_2 by lia. done.
Qed.

Lemma roll_mean_window_mean values w i :
  (1 ≤ w)%nat → (i < length values)%nat →
  roll_mean w 1 values !! i = Some (window_mean values w i).
Proof.
  intros Hw Hi. rewrite roll_mean_lookup by done. f_equal.
  unfold calc_mean, summary, window_mean, mean. simpl.
  destruct (present (window_cells values w i)) as [|x vs]; [done|].
  cbn [length]. rewrite !bool_decide_eq_true_2 by lia. done.
Qed.

Lemma length_roll_mean_from values w minp i todo st :
  length (roll_mean_from values w minp i todo st) = length todo.
Proof.
  revert i st. induction todo as [|v rest IH]; intros i st; simpl; [done|].
  by rewrite IH.
Qed.

Lemma length_roll_mean w minp values :
  length (roll_mean w minp values) = length values.
Proof. apply length_roll_mean_from. Qed.

(** ** Ordered mappings *)
Section assoc.
Context {A : Type}.
Implicit Types (l : list (string * A)) (kvs : list (string * A)).


Lemma assoc_get_set_ne n m (c : A) l :
  n ≠ m → assoc_get m (assoc_set n c l) = assoc_get m l.
Proof.
  intros Hne. induction l as [|[k c'] l IH]; simpl.
  - by rewrite decide_False.
  - destruct (decide (k = n)) as [->|Hk]; simpl.
    + by rewrite !decide_False.
    + destruct (decide (k = m)); [done|]. apply IH.
Qed.

Lemma assoc_set_fresh n (c : A) l : n ∉ l.*1 → assoc_set n c l = l ++ [(n, c)].
Proof.
  induction l as [|[k c'] l IH]; simpl; intros Hn; [done|].
  apply not_elem_of_cons in Hn as [? ?]. rewrite decide_False by done. f_equal. by apply IH.
Qed.

Lemma assoc_get_None n l : n ∉ l.*1 → assoc_get n l = None.
Proof.
  induction l as [|[k c'] l IH]; simpl; intros Hn; [done|].
  apply not_elem_of_cons in Hn as [? ?]. rewrite decide_False by done. by apply IH.
Qed.

Lemma assoc_get_app_l n l1 l2 c :
  assoc_get n l1 = Some c → assoc_get n (l1 ++ l2) = Some c.
Proof.
  induction l1 as [|[k c'] l IH]; simpl; [done|].
  destruct (decide (k = n)); [done|]. apply IH.
Qed.

Lemma assoc_get_app_r n l1 l2 :
  n ∉ l1.*1 → assoc_get n (l1 ++ l2) = assoc_get n l2.
Proof.
  induction l1 as [|[k c'] l IH]; simpl; intros Hn; [done|].
  apply not_elem_of_cons in Hn as [? ?]. rewrite decide_False by done. by apply IH.
Qed.

Lemma assoc_get_NoDup n c l :
  NoDup l.*1 → (n, c) ∈ l → assoc_get n l = Some c.
Proof.
  induction l as [|[k c'] l IH]; simpl; intros Hnd Hin; [by apply elem_of_nil in Hin|].
  apply NoDup_cons in Hnd as [Hk Hnd].
  apply elem_of_cons in Hin as [Heq|Hin].
  - injection Heq as -> ->. by rewrite decide_True.
  - rewrite decide_False; [by apply IH|].
    intros ->. apply Hk. apply list_elem_of_fmap. by exists (n, c).
Qed.

Lemma assoc_set_names n (c : A) l :
  (assoc_set n c l).*1 = if decide (n ∈ l.*1) then l.*1 else l.*1 ++ [n].
Proof.
  induction l as [|[k c'] l IH].
  - case_decide as Hin; [by apply elem_of_nil in Hin | done].
  - cbn [assoc_set]. destruct (decide (k = n)) as [->|Hk].
    + rewrite decide_True; [done | apply list_elem_of_here].
    + rewrite fmap_cons, IH. cbn [fst fmap list_fmap].
      destruct (decide (n ∈ l.*1)) as [Hin|Hin].
      * rewrite decide_True; [done | by apply list_elem_of_further].
      * rewrite decide_False; [done|].
        intros [?|?]%elem_of_cons; congruence.
Qed.
End assoc.

Section assoc_fold.
Context {A : Type}.
Implicit Types (l kvs : list (string * A)).

Lemma assoc_set_all_other k kvs l :
  k ∉ kvs.*1 → assoc_get k (assoc_set_all kvs l) = assoc_get k l.
Proof.
  revert l. induction kvs as [|[n c] kvs IH]; intros l Hk; [done|].
  apply not_elem_of_cons in Hk as [Hne Hk]. simpl in *.
  unfold assoc_set_all in *. simpl. rewrite IH by done.
  by apply assoc_get_set_ne.
Qed.


Lemma assoc_set_all_fresh kvs l :
  NoDup kvs.*1 → (∀ k, k ∈ kvs.*1 → k ∉ l.*1) → assoc_set_all kvs l = l ++ kvs.
Proof.
  revert l. induction kvs as [|[n c] kvs IH]; intros l Hnd Hfresh.
  { by rewrite app_nil_r. }
  rewrite fmap_cons in Hnd. apply NoDup_cons in Hnd as [Hn Hnd].
  unfold assoc_set_all in *. simpl.
  rewrite assoc_set_fresh by (apply Hfresh; rewrite fmap_cons; apply list_elem_of_here).
  rewrite IH; [by rewrite <- app_assoc | done |].
  intros k Hk. rewrite fmap_app. intros [Hl|Hl]%elem_of_app.
  - revert Hl. apply Hfresh. rewrite fmap_cons. by apply list_elem_of_further.
  - simpl in Hl. apply list_elem_of_singleton in Hl as ->. done.
Qed.
End assoc_fold.


Lemma elem_of_steps f w :
  (f, w) ∈ steps ↔ f ∈ features ++ [target] ∧ w ∈ rolling_windows.
Proof.
  unfold steps. rewrite list_elem_of_bind. split.
  - intros (f' & Hin & Hf'). apply list_elem_of_bind in Hin as (w' & Hin & Hw').
    apply list_elem_of_singleton in Hin. by injection Hin as -> ->.
  - intros [Hf Hw]. exists f. split; [|done].
    apply list_elem_of_bind. exists w. split; [apply list_elem_of_here | done].
Qed.

Lemma rolling_columns_NoDup : NoDup rolling_columns.
Proof. apply (bool_decide_unpack _). by vm_compute. Qed.

Lemma rolling_columns_not_fields :
  Forall (λ n, n ∉ features ++ [target]) rolling_columns.
Proof. apply (bool_decide_unpack _). by vm_compute. Qed.

Lemma rolling_name_not_field p q :
  p ∈ steps → q ∈ steps → rolling_name p.1 p.2 ≠ q.1.
Proof.
  intros Hp Hq Heq.
  pose proof rolling_columns_not_fields as HF.
  rewrite Forall_forall in HF. apply (HF (rolling_name p.1 p.2)).
  - apply list_elem_of_fmap. by exists p.
  - rewrite Heq. destruct q as [f w]. by apply elem_of_steps in Hq as [? ?].
Qed.

Lemma get_column_set_column_ne n m col df :
  n ≠ m → get_column m (set_column n col df) = get_column m df.
Proof. intros. unfold get_column, set_column. simpl. by apply assoc_get_set_ne. Qed.

Lemma augment_with_fold todo : ∀ df,
  (∀ p, p ∈ todo → ∃ col rolled,
      get_column p.1 df = Some col ∧ rolling_mean p.2 col = Some rolled) →
  (∀ p q, p ∈ todo → q ∈ todo → rolling_name p.1 p.2 ≠ q.1) →
  augment_with todo df
  = Some (mkDF (index df) (assoc_set_all (derived_columns todo df) (columns df))).
Proof.
  induction todo as [|[f w] rest IH]; intros df Hcols Hnames.
  { by destruct df. }
  destruct (Hcols (f, w)) as (col & rolled & Hcol & Hroll); [apply list_elem_of_here|].
  simpl in Hcol, Hroll. cbn [augment_with]. unfold add_rolling_df.
  rewrite Hcol. simpl. rewrite Hroll. simpl.
  assert (Hsame : ∀ q, q ∈ rest →
            get_column q.1 (set_column (rolling_name f w) rolled df)
            = get_column q.1 df).
  { intros q Hq. apply get_column_set_column_ne.
    apply (Hnames (f, w) q); [apply list_elem_of_here | by apply list_elem_of_further]. }
  rewrite IH.
  - f_equal. simpl. f_equal. unfold assoc_set_all. simpl.
    rewrite Hcol. simpl. rewrite Hroll. simpl. f_equal.
    unfold derived_columns. apply list_fmap_ext.
    intros i q Hq. rewrite Hsame; [done|]. by eapply list_elem_of_lookup_2.
  - intros q Hq. rewrite Hsame by done. apply Hcols. by apply list_elem_of_further.
  - intros p q Hp Hq. apply Hnames; by apply list_elem_of_further.
Qed.

Lemma rolling_mean_numeric w col values :
  as_numeric col = Some values →
  rolling_mean w col = Some (of_number <$> roll_mean w 1 values).
Proof. intros H. unfold rolling_mean. by rewrite H. Qed.

Lemma augment_numeric df :
  numeric_fields df →
  augment df
  = Some (mkDF (index df) (assoc_set_all (derived_columns steps df) (columns df))).
Proof.
  intros Hnum. apply augment_with_fold.
  - intros [f w] [Hf Hw]%elem_of_steps.
    destruct (Hnum f Hf) as (col & values & Hcol & Hval).
    exists col, (of_number <$> roll_mean w 1 values). split; [done|].
    by apply rolling_mean_numeric.
  - apply rolling_name_not_field.
Qed.

(** ** Loops and the store *)
Section for_each.
Context {S A : Type}.
Implicit Types (body : A → M S unit).

Lemma for_each_ext l body1 body2 :
  (∀ x s, body1 x s = body2 x s) →
  ∀ s, for_each l body1 s = for_each l body2 s.
Proof.
  intros Hext. induction l as [|x l IH]; intros s; [done|].
  simpl. unfold mbind, M_bind. rewrite Hext.
  destruct (body2 x s) as [[e|[]] s']; [done|]. apply IH.
Qed.

Lemma for_each_app l1 l2 body s :
  for_each (l1 ++ l2) body s = (for_each l1 body ;; for_each l2 body) s.
Proof.
  revert s. induction l1 as [|x l1 IH]; intros s; [done|].
  simpl. unfold mbind, M_bind in *.
  destruct (body x s) as [[e|[]] s']; [done|]. apply IH.
Qed.

Lemma for_each_singleton x body s : for_each [x] body s = body x s.
Proof.
  simpl. unfold mbind, M_bind, mret, M_ret.
  by destruct (body x s) as [[e|[]] s'].
Qed.
End for_each.

Lemma for_each_bind {S A B} (l : list A) (f : A → list B) (body : B → M S unit) s :
  for_each (l ≫= f) body s = for_each l (λ x, for_each (f x) body) s.
Proof.
  revert s. induction l as [|x l IH]; intros s; [done|].
  change ((x :: l) ≫= f) with (f x ++ (l ≫= f)).
  rewrite for_each_app. simpl. unfold mbind at 1 3, M_bind.
  destruct (for_each (f x) body s) as [[e|[]] s']; [done|]. apply IH.
Qed.

Lemma for_each_steps r h :
  for_each (features ++ [target]) (λ feature,
    for_each rolling_windows (λ window, add_rolling r feature window)) h
  = for_each steps (λ p, add_rolling r p.1 p.2) h.
Proof.
  unfold steps. rewrite for_each_bind. apply for_each_ext.
  intros f s. rewrite for_each_bind. apply for_each_ext.
  intros w s'. by rewrite for_each_singleton.
Qed.

Lemma add_rolling_run r f w (h : gmap nat DataFrame) df df' :
  h !! r = Some df → add_rolling_df f w df = Some df' →
  add_rolling r f w h = (inr tt, <[r := df']> h).
Proof.
  intros Hr Hadd. unfold add_rolling, add_rolling_df in *.
  unfold mbind at 1, M_bind, deref. rewrite Hr.
  unfold mbind at 1, M_bind, getitem.
  destruct (get_column f df) as [col|]; [|done]. simpl in *.
  destruct (rolling_mean w col) as [rolled|]; [|done]. simpl in *.
  injection Hadd as <-. done.
Qed.

Lemma for_each_add_rolling r todo : ∀ (h : gmap nat DataFrame) df a,
  h !! r = Some df → augment_with todo df = Some a →
  for_each todo (λ p, add_rolling r p.1 p.2) h = (inr tt, <[r := a]> h).
Proof.
  induction todo as [|[f w] rest IH]; intros h df a Hr Haug.
  - injection Haug as <-. simpl. by rewrite insert_id.
  - cbn [augment_with] in Haug.
    destruct (add_rolling_df f w df) as [df'|] eqn:Hadd; [|done]. simpl in Haug.
    cbn [for_each]. unfold mbind, M_bind. simpl.
    rewrite (add_rolling_run r f w h df df' Hr Hadd).
    rewrite (IH (<[r := df']> h) df' a); [|by rewrite lookup_insert_eq|done].
    by rewrite insert_insert_eq.
Qed.

Lemma preprocess_game_log_run r (h : gmap nat DataFrame) df a :
  h !! r = Some df → empty df = false → augment df = Some a →
  preprocess_game_log (Some r) h
  = (inr (Some (fresh (dom h))),
     <[fresh (dom h) := dropna a]> (<[r := a]> h)).
Proof.
  intros Hr Hne Haug. unfold preprocess_game_log.
  unfold mbind at 1, M_bind, deref. rewrite Hr, Hne.
  unfold mbind at 1, M_bind. rewrite for_each_steps.
  rewrite (for_each_add_rolling r steps h df a Hr Haug).
  unfold mbind at 1, M_bind. rewrite lookup_insert_eq.
  unfold mbind, M_bind, alloc, mret, M_ret.
  assert (dom (<[r := a]> h) = dom h) as ->; [|done].
  apply dom_insert_lookup_L. eauto.
Qed.

Lemma preprocess_game_log_None (h : gmap nat DataFrame) :
  preprocess_game_log None h = (inr None, h).
Proof. done. Qed.

Lemma preprocess_game_log_empty r (h : gmap nat DataFrame) df :
  h !! r = Some df → empty df = true →
  preprocess_game_log (Some r) h = (inr None, h).
Proof.
  intros Hr He. unfold preprocess_game_log.
  unfold mbind at 1, M_bind, deref. by rewrite Hr, He.
Qed.

(** ** dropna *)
Section keep_rows.
Context {A : Type}.
Implicit Types (l : list A) (keep : nat → bool).

Lemma keep_rows_snoc keep l x :
  keep_rows keep (l ++ [x])
  = keep_rows keep l ++ (if keep (length l) then [x] else []).
Proof.
  unfold keep_rows. rewrite imap_app, filter_app, fmap_app. f_equal.
  simpl. rewrite Nat.add_0_r.
  destruct (keep (length l)) eqn:Hk.
  - rewrite filter_cons_True by done. done.
  - rewrite filter_cons_False; [done|]. simpl. by rewrite Hk.
Qed.

Lemma kept_before_S keep i :
  kept_before keep (S i)
  = (kept_before keep i + if keep i then 1 else 0)%nat.
Proof.
  unfold kept_before. rewrite seq_S, filter_app, length_app. f_equal.
  simpl. destruct (keep i) eqn:Hk.
  - rewrite filter_cons_True by done. done.
  - rewrite filter_cons_False; [done|]. by rewrite Hk.
Qed.

Lemma length_keep_rows keep l :
  length (keep_rows keep l) = kept_before keep (length l).
Proof.
  induction l as [|x l IH] using rev_ind; [done|].
  rewrite keep_rows_snoc, !length_app, IH. simpl.
  rewrite Nat.add_1_r, kept_before_S. by destruct (keep (length l)).
Qed.

Lemma keep_rows_lookup keep l i x :
  keep i = true → l !! i = Some x →
  keep_rows keep l !! kept_before keep i = Some x.
Proof.
  induction l as [|y l IH] using rev_ind; intros Hk Hi; [done|].
  rewrite keep_rows_snoc.
  destruct (decide (i < length l)%nat) as [Hlt|Hge].
  - rewrite lookup_app_l in Hi by done.
    apply lookup_app_l_Some. by apply IH.
  - apply lookup_lt_Some in Hi as Hlen. rewrite length_app in Hlen. simpl in Hlen.
    assert (i = length l) as -> by lia.
    rewrite lookup_app_r in Hi by lia. rewrite Nat.sub_diag in Hi.
    injection Hi as ->. rewrite Hk.
    rewrite lookup_app_r by (rewrite length_keep_rows; lia).
    by rewrite length_keep_rows, Nat.sub_diag.
Qed.

Lemma keep_rows_all keep l :
  (∀ i, (i < length l)%nat → keep i = true) → keep_rows keep l = l.
Proof.
  induction l as [|x l IH] using rev_ind; intros Hk; [done|].
  rewrite keep_rows_snoc, IH.
  - rewrite Hk; [done|]. rewrite length_app. simpl. lia.
  - intros i Hi. apply Hk. rewrite length_app. lia.
Qed.

Lemma keep_rows_from keep l j x :
  keep_rows keep l !! j = Some x →
  ∃ i, l !! i = Some x ∧ keep i = true ∧ j = kept_before keep i.
Proof.
  revert j. induction l as [|y l IH] using rev_ind; intros j Hj; [done|].
  rewrite keep_rows_snoc in Hj.
  apply lookup_app_Some in Hj as [Hj|[Hge Hj]].
  - destruct (IH j Hj) as (i & Hi & Hk & ->). exists i.
    split; [by apply lookup_app_l_Some | done].
  - destruct (keep (length l)) eqn:Hk; [|done].
    apply list_lookup_singleton_Some in Hj as [Hj ->].
    exists (length l). split; [|split; [done|]].
    + rewrite lookup_app_r by lia. by rewrite Nat.sub_diag.
    + rewrite length_keep_rows in *. lia.
Qed.
End keep_rows.

Lemma complete_row_complete df i : complete df → row_complete df i = true.
Proof.
  intros Hc. unfold row_complete. apply forallb_forall.
  intros [n col] Hin%list_elem_of_In. unfold complete in Hc.
  rewrite Forall_forall in Hc. specialize (Hc _ Hin). unfold cell_ok. simpl in *.
  destruct (col !! i) as [c|] eqn:Hci; [|done].
  rewrite Forall_forall in Hc. rewrite (Hc c); [done|].
  by eapply list_elem_of_lookup_2.
Qed.

Lemma dropna_all_rows df : (∀ i, row_complete df i = true) → dropna df = df.
Proof.
  unfold dropna. generalize (row_complete df). intros keep Hall.
  destruct df as [idx cols]. simpl. f_equal.
  - apply keep_rows_all. auto.
  - induction cols as [|[n col] cols IH]; [done|].
    rewrite fmap_cons. f_equal; [|done].
    unfold prod_map. simpl. f_equal. apply keep_rows_all. auto.
Qed.

Lemma dropna_complete df : complete df → dropna df = df.
Proof. intros Hc. apply dropna_all_rows. intros i. by apply complete_row_complete. Qed.

(** ** Fetching *)
Section fetch_facts.
Context `{NbaApi}.

Ltac run := unfold mbind, M_bind, mret, M_ret, modify, get, raise,
            st_report, send_request, note_attempt, cache_store, sleep;
            simpl.

Lemma get_player_id_returns player_name w :
  ∃ player_id w', get_player_id player_name w = (inr player_id, w') ∧
    requests w' = requests w ∧ attempts w' = attempts w ∧
    slept w' = slept w ∧ gamelog_cache w' = gamelog_cache w.
Proof.
  unfold get_player_id, try_except.
  destruct (find_players_by_full_name player_name) as [e|[|first rest]]; run;
    eauto 10.
Qed.

Lemma fetch_player_gamelog_uncached_returns player_id season w :
  ∃ gamelog w',
    fetch_player_gamelog_uncached player_id season w = (inr gamelog, w') ∧
    requests w' = requests w ++ [(player_id, season)] ∧
    attempts w' = attempts w ∧ slept w' = slept w ∧
    gamelog_cache w' = gamelog_cache w.
Proof.
  unfold fetch_player_gamelog_uncached, try_except. run.
  destruct (PlayerGameLog (requests w) player_id season) as [e|gamelog]; run;
    eauto 10.
Qed.

(** The retry handler of [get_player_data] has nothing to catch: a call
    of [fetch_player_gamelog] always returns. *)
Lemma fetch_player_gamelog_returns player_id season w :
  ∃ gamelog w',
    fetch_player_gamelog player_id season w = (inr gamelog, w') ∧
    attempts w' = attempts w ++ [(player_id, season)] ∧
    slept w' = slept w ∧
    (requests w' = requests w ∨
     requests w' = requests w ++ [(player_id, season)]).
Proof.
  unfold fetch_player_gamelog. run.
  destruct (gamelog_cache w !! (player_id, season)) as [cached|] eqn:Hc.
  - eexists _, _. split; [done|]. simpl. auto.
  - match goal with |- context [fetch_player_gamelog_uncached _ _ ?w0] =>
      destruct (fetch_player_gamelog_uncached_returns player_id season w0)
        as (gamelog & w' & -> & Hreq & Hatt & Hsl & Hca)
    end.
    simpl in *. eexists _, _. split; [done|]. simpl. auto.
Qed.

Lemma attempt_loop_first player_name player_id season max_retries attempt rest
    gamelogs w gamelog w' :
  fetch_player_gamelog player_id season w = (inr gamelog, w') →
  attempt_loop player_name player_id season max_retries (attempt :: rest)
               gamelogs w
  = (inr (Normal (match gamelog with
                  | Some g => gamelogs ++ [g]
                  | None => gamelogs
                  end)), w').
Proof.
  intros Hf. cbn [attempt_loop]. unfold try_except, mbind, M_bind.
  by rewrite Hf.
Qed.

Lemma range_pos n : (1 ≤ n)%Z → range n = 0%Z :: seqZ 1 (n - 1).
Proof.
  intros Hn. unfold range. replace n with (Z.succ (n - 1)) at 1 by lia.
  rewrite seqZ_cons by lia. f_equal. f_equal; lia.
Qed.
End fetch_facts.

Section get_player_data_facts.
Context `{NbaApi}.

Lemma season_loop_two player_name player_id max_retries w current w2 previous w3 :
  (1 ≤ max_retries)%Z →
  fetch_player_gamelog player_id SEASON_CURRENT w = (inr current, w2) →
  fetch_player_gamelog player_id SEASON_PREVIOUS w2 = (inr previous, w3) →
  season_loop player_name player_id max_retries
              [SEASON_CURRENT; SEASON_PREVIOUS] [] w
  = (inr (Normal (option_list current ++ option_list previous)), w3).
Proof.
  intros Hn Hc Hp. cbn [season_loop]. rewrite (range_pos _ Hn).
  unfold mbind at 1, M_bind.
  rewrite (attempt_loop_first _ _ _ _ _ _ _ _ _ _ Hc).
  unfold mbind at 1, M_bind.
  rewrite (attempt_loop_first _ _ _ _ _ _ _ _ _ _ Hp).
  unfold mret, M_ret. do 2 f_equal.
  by destruct current, previous.
Qed.

(** Claim C1.  A call of [get_player_data] that allows at least one attempt
    per season never raises.  When the identity is not resolved it returns
    [None].  Otherwise both seasons are fetched, one after the other, each
    fetch returns, and the result is the concatenation of the seasons that
    succeeded, in the order requested: it is [None] exactly when both
    seasons failed, so one season's failure alone never fails the player. *)
Theorem get_player_data_partial player_name max_retries w :
  (1 ≤ max_retries)%Z →
  ∃ player_id w1 result w',
    get_player_id player_name w = (inr player_id, w1) ∧
    get_player_data player_name max_retries w = (inr result, w') ∧
    if not_id player_id then result = None ∧ w' = w1
    else ∃ current w2 previous,
      fetch_player_gamelog (default 0%Z player_id) SEASON_CURRENT w1
        = (inr current, w2) ∧
      fetch_player_gamelog (default 0%Z player_id) SEASON_PREVIOUS w2
        = (inr previous, w') ∧
      (result = None ↔ current = None ∧ previous = None) ∧
      (option_list current ++ option_list previous ≠ [] →
       result = Some (concat (option_list current ++ option_list previous))).
Proof.
  intros Hn.
  destruct (get_player_id_returns player_name w)
    as (player_id & w1 & Hid & _).
  unfold get_player_data. unfold mbind at 1, M_bind. rewrite Hid.
  destruct (not_id player_id) eqn:Hnot.
  { exists player_id, w1, None, w1. by rewrite Hnot. }
  destruct (fetch_player_gamelog_returns (default 0%Z player_id) SEASON_CURRENT w1)
    as (current & w2 & Hc & _).
  destruct (fetch_player_gamelog_returns (default 0%Z player_id) SEASON_PREVIOUS w2)
    as (previous & w3 & Hp & _).
  unfold mbind at 1, M_bind.
  rewrite (season_loop_two _ _ _ _ _ _ _ _ Hn Hc Hp).
  destruct current as [g1|], previous as [g2|]; simpl;
    eexists player_id, w1, _, w3; rewrite Hnot;
    (split; [done|]); (split; [done|]);
    eexists _, w2, _; (split; [done|]); (split; [done|]);
    (split; [|done]); split; try done; intros [? ?]; done.
Qed.
End get_player_data_facts.

(** ** The roster batch *)

Lemma size_list_to_set_le (l : list string) :
  (size (list_to_set l : gset string) ≤ length l)%nat.
Proof.
  induction l as [|x l IH].
  - rewrite list_to_set_nil, size_empty. done.
  - rewrite list_to_set_cons, size_union_alt, size_singleton.
    assert (size (list_to_set l ∖ {[x]} : gset string)
            ≤ size (list_to_set l : gset string))%nat.
    { apply subseteq_size. apply subseteq_difference_l. done. }
    simpl. lia.
Qed.

(** A player is in the mapping exactly when one of their futures returned a
    non-empty table; the value is such a table. *)
Lemma collect_fold_lookup completed : ∀ acc p data,
  (foldl collect acc completed).1 !! p = Some data →
  acc.1 !! p = Some data ∨
  ((p, inr (Some data) : outcome) ∈ completed ∧ empty data = false).
Proof.
  induction completed as [|[q o] rest IH]; intros [m msgs] p data Hl; [by left|].
  simpl in Hl. apply IH in Hl as [Hl|[Hin He]].
  - destruct o as [e|[d|]]; simpl in Hl; try by left.
    destruct (empty d) eqn:Hd; simpl in Hl; [by left|].
    destruct (decide (q = p)) as [->|Hne].
    + rewrite lookup_insert_eq in Hl. injection Hl as ->.
      right. split; [apply list_elem_of_here | done].
    + rewrite lookup_insert_ne in Hl by done. by left.
  - right. split; [by apply list_elem_of_further | done].
Qed.

Lemma collect_fold_keeps completed : ∀ acc p,
  is_Some (acc.1 !! p) → is_Some ((foldl collect acc completed).1 !! p).
Proof.
  induction completed as [|[q o] rest IH]; intros [m msgs] p Hs; [done|].
  simpl. apply IH.
  destruct o as [e|[d|]]; simpl; try done.
  destruct (empty d); simpl; [done|].
  destruct (decide (q = p)) as [->|Hne].
  - rewrite lookup_insert_eq. eauto.
  - by rewrite lookup_insert_ne.
Qed.

Lemma collect_fold_included completed : ∀ acc p data,
  (p, inr (Some data) : outcome) ∈ completed → empty data = false →
  is_Some ((foldl collect acc completed).1 !! p).
Proof.
  induction completed as [|[q o] rest IH]; intros [m msgs] p data Hin He.
  { by apply elem_of_nil in Hin. }
  apply elem_of_cons in Hin as [Heq|Hin].
  - injection Heq as <- <-. simpl. rewrite He. simpl.
    apply collect_fold_keeps. simpl. rewrite lookup_insert_eq. eauto.
  - simpl. by eapply IH.
Qed.

Lemma elem_of_as_completed roster run p o :
  valid_run roster run →
  (p, o) ∈ as_completed roster run ↔
  ∃ i, roster !! i = Some p ∧ outcomes run !! i = Some o.
Proof.
  intros [Hlen Hperm]. unfold as_completed. rewrite list_elem_of_omap. split.
  - intros (i & Hi & Hpo). exists i.
    destruct (roster !! i) as [p'|]; [|done]. simpl in Hpo.
    destruct (outcomes run !! i) as [o'|]; [|done]. simpl in Hpo.
    by injection Hpo as -> ->.
  - intros (i & Hp & Ho). exists i. split.
    + rewrite Hperm. apply elem_of_seq. apply lookup_lt_Some in Hp. lia.
    + by rewrite Hp, Ho.
Qed.

(** Claim C7.  Whatever the workers return or raise and in whatever order
    the futures complete, the mapping [fetch_all_player_data] returns has
    its keys in the roster, at most as many entries as the roster has, and
    only non-empty tables; a player is in it exactly when one of that
    player's futures returned a non-empty table, whatever happened to the
    other players. *)
Theorem fetch_all_player_data_partial roster run :
  valid_run roster run →
  let player_data := (fetch_all_player_data roster run).1 in
  dom player_data ⊆ list_to_set roster ∧
  (size player_data ≤ length roster)%nat ∧
  (∀ player data, player_data !! player = Some data →
     empty data = false ∧ (0 < nrows data)%nat) ∧
  (∀ player, player ∈ dom player_data ↔
     ∃ i data, roster !! i = Some player ∧
       outcomes run !! i = Some (inr (Some data)) ∧ empty data = false).
Proof.
  intros Hrun player_data.
  assert (Hfrom : ∀ player data, player_data !! player = Some data →
            ∃ i, roster !! i = Some player ∧
                 outcomes run !! i = Some (inr (Some data)) ∧ empty data = false).
  { intros player data Hl. unfold player_data, fetch_all_player_data in Hl.
    apply collect_fold_lookup in Hl as [Hl|[Hin He]]; [done|].
    apply (elem_of_as_completed roster run) in Hin as (i & Hp & Ho); [|done].
    eauto. }
  assert (Hdom : dom player_data ⊆ list_to_set roster).
  { intros player [data Hl]%elem_of_dom.
    destruct (Hfrom _ _ Hl) as (i & Hp & _).
    apply elem_of_list_to_set. by eapply list_elem_of_lookup_2. }
  split; [done|]. split; [|split].
  - rewrite <- size_dom. etrans; [by apply subseteq_size|].
    apply size_list_to_set_le.
  - intros player data Hl. destruct (Hfrom _ _ Hl) as (i & _ & _ & He).
    split; [done|]. unfold empty in He.
    apply orb_false_iff in He as [He _]. apply bool_decide_eq_false in He. lia.
  - intros player. split.
    + intros [data Hl]%elem_of_dom. destruct (Hfrom _ _ Hl) as (i & ?). eauto.
    + intros (i & data & Hp & Ho & He). apply elem_of_dom.
      unfold player_data, fetch_all_player_data.
      apply (collect_fold_included _ _ _ data); [|done].
      apply elem_of_as_completed; eauto.
Qed.

(** ** Training and selection *)

Lemma py_gt_irrefl a : py_gt a a = false.
Proof.
  destruct a as [|x| |]; simpl; try done.
  apply bool_decide_eq_false. apply Qcle_not_lt, Qcle_refl.
Qed.

Lemma py_gt_asym a b : py_gt a b = true → py_gt b a = false.
Proof.
  destruct a as [|x| |], b as [|y| |]; simpl; try done.
  intros Hlt%bool_decide_eq_true. apply bool_decide_eq_false.
  intros Hlt'. apply (Qcle_not_lt x x (Qcle_refl x)). by eapply Qclt_trans.
Qed.

Lemma py_gt_le_trans x c s :
  s ≠ NaN → py_gt s c = false → py_gt x c = true → py_gt x s = true.
Proof.
  destruct x as [|x| |], c as [|c| |], s as [|s| |]; simpl; try done.
  intros _ Hsc%bool_decide_eq_false Hxc%bool_decide_eq_true.
  apply bool_decide_eq_true. apply Qcnot_lt_le in Hsc.
  by eapply Qcle_lt_trans.
Qed.

Lemma py_gt_comparable s : comparable s → py_gt s NegInf = true.
Proof. intros [? ?]. by destruct s. Qed.

Lemma py_gt_true_comparable a b : py_gt a b = true → comparable a.
Proof. by destruct a, b. Qed.

Section train_facts.
Context `{Sklearn}.

Lemma train_one_run parts acc c calls :
  train_one parts acc c calls
  = (inr (select_one acc (c.1, entry_of parts c.2)),
     calls ++ calls_of parts c.1).
Proof.
  destruct c as [name model]. unfold train_one, select_one, entry_of, calls_of.
  unfold mbind, M_bind, record_call, modify, mret, M_ret. simpl.
  rewrite <- !app_assoc. simpl.
  by destruct (py_gt _ _).
Qed.

Lemma train_loop_run parts todo : ∀ acc calls,
  train_loop parts acc todo calls
  = (inr (foldl select_one acc
            ((λ c : string * estimator, (c.1, entry_of parts c.2)) <$> todo)),
     calls ++ (todo ≫= λ c, calls_of parts c.1)).
Proof.
  induction todo as [|c rest IH]; intros acc calls.
  - simpl. by rewrite app_nil_r.
  - cbn [train_loop]. unfold mbind at 1, M_bind. rewrite train_one_run.
    rewrite IH. rewrite fmap_cons. cbn [foldl]. f_equal.
    change ((c :: rest) ≫= (λ c0, calls_of parts c0.1))
      with (calls_of parts c.1 ++ (rest ≫= (λ c0, calls_of parts c0.1))).
    by rewrite app_assoc.
Qed.

Lemma train_models_run X y calls :
  train_models X y calls
  = match train_test_split X y (Q2Qc (2 # 10)) 42 with
    | inl e => (inl e, calls ++ [CallSplit X y (Q2Qc (2 # 10)) 42])
    | inr parts =>
        let final := foldl select_one (mkSel None NegInf []) (entries parts) in
        (inr (best_model final, results final),
         calls ++ CallSplit X y (Q2Qc (2 # 10)) 42
               :: (models ≫= λ c, calls_of parts c.1))
    end.
Proof.
  unfold train_models. unfold mbind at 1, M_bind, record_call, modify.
  cbv beta iota.
  destruct (train_test_split X y (Q2Qc (2 # 10)) 42) as [e|parts]; [done|].
  unfold mbind, M_bind. rewrite train_loop_run. unfold mret, M_ret.
  cbv beta iota zeta. fold (entries parts). by rewrite <- app_assoc.
Qed.

Lemma entries_names parts : (entries parts).*1 = models.*1.
Proof. unfold entries. rewrite <- list_fmap_compose. done. Qed.

Lemma models_NoDup : NoDup models.*1.
Proof. apply (bool_decide_unpack _). by vm_compute. Qed.
End train_facts.

Section select_facts.
Context {F : Type}.
Implicit Types (acc : selection F) (l : list (string * model_result F)).

Lemma results_fold l : ∀ acc,
  results (foldl select_one acc l) = assoc_set_all l (results acc).
Proof.
  induction l as [|c rest IH]; intros acc; [done|].
  cbn [foldl]. rewrite IH. unfold assoc_set_all. cbn [foldl]. f_equal.
  unfold select_one. by destruct (py_gt _ _).
Qed.

Lemma first_max_snoc_keep scores i s x :
  scores !! i = Some s → first_max scores i → py_gt x s = false →
  first_max (scores ++ [x]) i.
Proof.
  intros Hi (s0 & Hs0 & Hmax & Hfirst) Hx.
  assert (s0 = s) as -> by congruence.
  exists s. split; [by apply lookup_app_l_Some|]. split.
  - intros j s' [Hj|[_ Hj]]%lookup_app_Some; [by eapply Hmax|].
    apply list_lookup_singleton_Some in Hj as [_ <-]. done.
  - intros j s' Hlt Hj. apply (Hfirst j s' Hlt).
    apply lookup_lt_Some in Hi.
    rewrite lookup_app_l in Hj by lia. done.
Qed.

Lemma first_max_snoc_new scores i s x :
  Forall (λ s', s' ≠ NaN) scores →
  scores !! i = Some s → first_max scores i → py_gt x s = true →
  first_max (scores ++ [x]) (length scores).
Proof.
  intros Hnn Hi (s0 & Hs0 & Hmax & Hfirst) Hx.
  assert (s0 = s) as -> by congruence.
  assert (Hall : ∀ j s', scores !! j = Some s' → py_gt x s' = true).
  { intros j s' Hj. apply (py_gt_le_trans x s s'); [|by eapply Hmax|done].
    rewrite Forall_forall in Hnn. apply Hnn. by eapply list_elem_of_lookup_2. }
  exists x. split.
  { rewrite lookup_app_r by lia. by rewrite Nat.sub_diag. }
  split.
  - intros j s' [Hj|[_ Hj]]%lookup_app_Some.
    + apply py_gt_asym. by eapply Hall.
    + apply list_lookup_singleton_Some in Hj as [_ <-]. apply py_gt_irrefl.
  - intros j s' Hlt Hj. rewrite lookup_app_l in Hj by lia. by eapply Hall.
Qed.

Lemma select_fold_selected l : ∀ done acc,
  Forall comparable (scores_of (done ++ l)) →
  selected done acc →
  selected (done ++ l) (foldl select_one acc l).
Proof.
  induction l as [|c rest IH]; intros done acc Hcmp Hsel.
  { by rewrite app_nil_r. }
  cbn [foldl]. replace (done ++ c :: rest) with ((done ++ [c]) ++ rest)
    by (by rewrite <- app_assoc).
  replace (done ++ c :: rest) with ((done ++ [c]) ++ rest) in Hcmp
    by (by rewrite <- app_assoc).
  apply IH; [done|]. clear IH.
  unfold scores_of in Hcmp. rewrite !fmap_app in Hcmp.
  apply Forall_app in Hcmp as [Hcmp _].
  apply Forall_app in Hcmp as [Hdone Hc].
  simpl in Hc. apply Forall_inv in Hc.
  unfold selected, select_one in *.
  destruct (best_model acc) as [m|] eqn:Hbest.
  - destruct Hsel as (i & c0 & Hi & Hm & Hs & Hfm).
    assert (Hsi : scores_of done !! i = Some (result_score c0.2)).
    { unfold scores_of. rewrite list_lookup_fmap, Hi. done. }
    destruct (py_gt (result_score c.2) (best_score acc)) eqn:Hgt; simpl.
    + exists (length done), c. split.
      { rewrite lookup_app_r by lia. by rewrite Nat.sub_diag. }
      split; [done|]. split; [done|].
      unfold scores_of. rewrite fmap_app. simpl.
      replace (length done) with (length (scores_of done))
        by (unfold scores_of; by rewrite length_fmap).
      eapply first_max_snoc_new; [|done|done|by rewrite <- Hs].
      eapply Forall_impl; [exact Hdone|]. by intros s [? ?].
    + exists i, c0. split; [by apply lookup_app_l_Some|].
      split; [done|]. split; [done|].
      unfold scores_of. rewrite fmap_app. simpl.
      eapply first_max_snoc_keep; [done|done|by rewrite <- Hs].
  - destruct Hsel as [-> Hs]. rewrite Hs.
    rewrite (py_gt_comparable _ Hc). simpl.
    exists 0%nat, c. split; [done|]. split; [done|]. split; [done|].
    exists (result_score c.2). split; [done|]. split.
    + intros [|j] s' Hj; [|done]. injection Hj as <-. apply py_gt_irrefl.
    + intros j s' Hlt. lia.
Qed.

Lemma max_from_elem {A} (key : A → pyfloat) (rest : list A) : ∀ current,
  max_from key current rest ∈ current :: rest.
Proof.
  induction rest as [|x rest IH]; intros current; simpl.
  - apply list_elem_of_here.
  - specialize (IH (if py_gt (key x) (key current) then x else current)).
    apply elem_of_cons in IH as [->|IH].
    + destruct (py_gt _ _); [apply list_elem_of_further|]; apply list_elem_of_here.
    + by do 2 apply list_elem_of_further.
Qed.

(** Once the loop holds a candidate, it and Python's [max] move together. *)
Lemma select_fold_max_from (rest : list (string * model_result F)) :
  ∀ acc current,
  best_model acc = Some (result_model current.2) →
  best_score acc = result_score current.2 →
  let key := λ x : string * model_result F, result_score x.2 in
  best_model (foldl select_one acc rest)
  = Some (result_model (max_from key current rest).2).
Proof.
  induction rest as [|x rest IH]; intros acc current Hm Hs key; [done|].
  cbn [foldl max_from]. unfold select_one at 2. rewrite Hs. fold key.
  change (result_score x.2) with (key x).
  change (result_score current.2) with (key current).
  destruct (py_gt (key x) (key current)); by apply IH.
Qed.
End select_facts.

Section selection_facts.
Context `{Sklearn}.

Lemma results_entries parts :
  results (foldl select_one (mkSel None NegInf []) (entries parts))
  = entries parts.
Proof.
  rewrite results_fold. cbn [results]. rewrite assoc_set_all_fresh; [done| |].
  - rewrite entries_names. apply models_NoDup.
  - intros k _. apply not_elem_of_nil.
Qed.

Lemma train_models_inv X y calls best res calls' :
  train_models X y calls = (inr (best, res), calls') →
  ∃ parts,
    train_test_split X y (Q2Qc (2 # 10)) 42 = inr parts ∧
    res = entries parts ∧
    best = best_model (foldl select_one (mkSel None NegInf []) (entries parts)) ∧
    calls' = calls ++ CallSplit X y (Q2Qc (2 # 10)) 42
                   :: (models ≫= λ c, calls_of parts c.1).
Proof.
  rewrite train_models_run.
  destruct (train_test_split X y (Q2Qc (2 # 10)) 42) as [e|parts]; [done|].
  cbv zeta. rewrite results_entries. intros [= <- <- <-]. by exists parts.
Qed.

(** Claim C5, amended.  When every candidate's held-out score is a number
    above [-inf] (none is [nan]), [train_models] returns as best the model
    of the candidate at the first maximum of the scores, taken in the fixed
    order Random Forest, Gradient Boosting, XGBoost, Neural Network. *)
Theorem train_models_selects_first_max X y calls best res calls' :
  train_models X y calls = (inr (best, res), calls') →
  Forall comparable (scores_of res) →
  res.*1 = models.*1 ∧
  ∃ i c, res !! i = Some c ∧ best = Some (result_model c.2) ∧
         first_max (scores_of res) i.
Proof.
  intros (parts & _ & -> & -> & _)%train_models_inv Hcmp.
  split; [apply entries_names|].
  pose proof (select_fold_selected (entries parts) [] (mkSel None NegInf [])
                Hcmp) as Hsel.
  unfold selected at 2 in Hsel. simpl in Hsel.
  specialize (Hsel (conj eq_refl eq_refl)). simpl in Hsel.
  unfold selected in Hsel.
  destruct (best_model _) as [m|].
  - destruct Hsel as (i & c & Hi & -> & _ & Hfm). eauto.
  - by destruct Hsel as [? _].
Qed.


(** Claim C10, amended.  When the score of the first candidate is a number
    above [-inf] (in particular when no score is [nan] or [-inf]), the entry
    [main] charts, Python's [max] of the results by score, is the entry of
    the model [train_models] returned as best. *)
Theorem chart_matches_best_model X y calls best res calls' s :
  train_models X y calls = (inr (best, res), calls') →
  scores_of res !! 0%nat = Some s → comparable s →
  ∃ r, best_result res = Some r ∧ best = Some (result_model r).
Proof.
  intros (parts & _ & -> & -> & _)%train_models_inv Hs Hcmp.
  pose proof (entries_names parts) as Hnames.
  pose proof models_NoDup as Hnd. rewrite <- Hnames in Hnd.
  destruct (entries parts) as [|first rest]; [done|].
  injection Hs as <-.
  set (key := λ x : string * model_result fitted, result_score x.2).
  exists (max_from key first rest).2. split.
  - unfold best_result. cbn [py_max mbind option_bind]. fold key.
    apply assoc_get_NoDup; [done|].
    destruct (max_from key first rest) as [n r] eqn:Hmax. simpl.
    rewrite <- Hmax. apply max_from_elem.
  - cbn [foldl]. unfold select_one at 2. simpl.
    rewrite (py_gt_comparable _ Hcmp).
    by apply select_fold_max_from.
Qed.
End selection_facts.

(** ** The engineered table *)

Lemma derived_columns_names todo df :
  (derived_columns todo df).*1 = (λ p : string * nat, rolling_name p.1 p.2) <$> todo.
Proof. unfold derived_columns. by rewrite <- list_fmap_compose. Qed.

Lemma length_derived_columns df : length (derived_columns steps df) = 51%nat.
Proof. unfold derived_columns. by rewrite length_fmap. Qed.

Lemma windows_pos w : w ∈ rolling_windows → (1 ≤ w)%nat.
Proof.
  unfold rolling_windows. rewrite !elem_of_cons, elem_of_nil. lia.
Qed.

Lemma augment_columns df a :
  numeric_fields df → augment df = Some a →
  index a = index df ∧
  columns a = assoc_set_all (derived_columns steps df) (columns df).
Proof.
  intros Hnum Ha. rewrite (augment_numeric df Hnum) in Ha.
  assert (a = mkDF (index df)
                   (assoc_set_all (derived_columns steps df) (columns df)))
    as -> by congruence.
  split; exact eq_refl.
Qed.


Lemma augment_other_column df a g :
  numeric_fields df → augment df = Some a → g ∉ rolling_columns →
  get_column g a = get_column g df.
Proof.
  intros Hnum Ha Hg.
  destruct (augment_columns df a Hnum Ha) as [_ Hcols].
  unfold get_column. rewrite Hcols. apply assoc_set_all_other.
  by rewrite derived_columns_names.
Qed.

Lemma augment_appends df a :
  numeric_fields df → augment df = Some a →
  (∀ n, n ∈ rolling_columns → n ∉ column_names df) →
  columns a = columns df ++ derived_columns steps df.
Proof.
  intros Hnum Ha Hfresh.
  destruct (augment_columns df a Hnum Ha) as [_ Hcols].
  rewrite Hcols. apply assoc_set_all_fresh.
  - rewrite derived_columns_names. apply rolling_columns_NoDup.
  - intros k Hk. apply Hfresh. by rewrite derived_columns_names in Hk.
Qed.

Lemma augment_exists df : numeric_fields df → ∃ a, augment df = Some a.
Proof. intros Hnum. eexists. by apply augment_numeric. Qed.

(** dropna on one column. *)
Lemma assoc_get_fmap {A B} (g : A → B) n (l : list (string * A)) :
  assoc_get n (prod_map id g <$> l) = g <$> assoc_get n l.
Proof.
  induction l as [|[k c] l IH]; [done|].
  rewrite fmap_cons. unfold prod_map at 1. simpl.
  destruct (decide (k = n)); [done | apply IH].
Qed.

Lemma get_column_dropna n df :
  get_column n (dropna df) = keep_rows (row_complete df) <$> get_column n df.
Proof. unfold get_column, dropna. simpl. apply assoc_get_fmap. Qed.

Lemma column_names_dropna df : column_names (dropna df) = column_names df.
Proof.
  unfold column_names, dropna. simpl. rewrite <- list_fmap_compose.
  apply list_fmap_ext. by intros i [n c] _.
Qed.



(** The window of row [i] ends with the cell of row [i]. *)
Lemma window_cells_current values w i x :
  (1 ≤ w)%nat → values !! i = Some x →
  window_cells values w i
  = last_n (min i (w - 1)) (take i values) ++ [x].
Proof.
  intros Hw Hi. unfold window_cells.
  replace (i + 1)%nat with (S i) by lia.
  rewrite (take_S_r _ _ _ Hi).
  replace (min (S i) w) with (S (min i (w - 1))) by lia.
  apply last_n_snoc. rewrite length_take.
  apply lookup_lt_Some in Hi. lia.
Qed.


Lemma window_mean_current values w i v :
  (1 ≤ w)%nat → values !! i = Some (Some v) →
  window_mean values w i
  = Some (mean (present (last_n (min i (w - 1)) (take i values)) ++ [v])).
Proof.
  intros Hw Hi. unfold window_mean.
  rewrite (window_cells_current values w i (Some v) Hw Hi), present_app.
  simpl. by destruct (present _).
Qed.

Lemma roll_mean_present values w i v :
  (1 ≤ w)%nat → values !! i = Some (Some v) →
  ∃ m, roll_mean w 1 values !! i = Some (Some m).
Proof.
  intros Hw Hi. apply lookup_lt_Some in Hi as Hlt.
  rewrite roll_mean_window_mean by done.
  rewrite (window_mean_current values w i v Hw Hi). eauto.
Qed.



(** The numeric view, cell by cell. *)
Lemma as_numeric_Forall2 col values :
  as_numeric col = Some values →
  Forall2 (λ c x, cell_number c = Some x) col values.
Proof. unfold as_numeric. by rewrite mapM_Some. Qed.

Lemma as_numeric_lookup col values i c :
  as_numeric col = Some values → col !! i = Some c →
  ∃ x, values !! i = Some x ∧ cell_number c = Some x.
Proof.
  intros HF%as_numeric_Forall2 Hi.
  destruct (Forall2_lookup_l _ _ _ _ _ HF Hi) as (x & Hx & Hc). eauto.
Qed.

Lemma as_numeric_length col values :
  as_numeric col = Some values → length values = length col.
Proof. intros HF%as_numeric_Forall2. symmetry. by eapply Forall2_length. Qed.

Lemma assoc_get_elem {A} n (c : A) l : assoc_get n l = Some c → (n, c) ∈ l.
Proof.
  induction l as [|[k c'] l IH]; simpl; [done|].
  destruct (decide (k = n)) as [->|Hne].
  - intros [= ->]. apply list_elem_of_here.
  - intros Hl. apply list_elem_of_further. by apply IH.
Qed.

Section forallb_assoc.
Context {A : Type} (P : string * A → bool).
Hypothesis P_value : ∀ n m c, P (n, c) = P (m, c).

Lemma forallb_assoc_set n c l :
  forallb P l = true → P (n, c) = true → forallb P (assoc_set n c l) = true.
Proof using P_value.
  intros Hl Hc. induction l as [|[k c'] l IH]; simpl.
  - by rewrite Hc.
  - simpl in Hl. apply andb_true_iff in Hl as [Hk Hl].
    destruct (decide (k = n)) as [->|Hne]; simpl.
    + by rewrite Hc, Hl.
    + by rewrite Hk, IH.
Qed.

Lemma forallb_assoc_set_all kvs : ∀ l,
  forallb P l = true → Forall (λ kv, P kv = true) kvs →
  forallb P (assoc_set_all kvs l) = true.
Proof using P_value.
  induction kvs as [|[n c] kvs IH]; intros l Hl Hkvs; [done|].
  apply Forall_cons in Hkvs as [Hc Hkvs].
  unfold assoc_set_all in *. simpl. apply IH; [|done].
  by apply forallb_assoc_set.
Qed.
End forallb_assoc.

(** A complete row stays complete: with one observation in its window,
    every rolling mean of the row is a number. *)
Lemma row_complete_augment df a i :
  numeric_fields df → augment df = Some a →
  row_complete df i = true → row_complete a i = true.
Proof.
  intros Hnum Ha Hrow.
  destruct (augment_columns df a Hnum Ha) as [_ Hcols].
  unfold row_complete in *. rewrite Hcols.
  apply (forallb_assoc_set_all (cell_ok i)); [done|exact Hrow|].
  unfold derived_columns. apply Forall_fmap, Forall_forall.
  intros [f w] [Hf Hw]%elem_of_steps. unfold cell_ok. simpl.
  destruct (Hnum f Hf) as (col & values & Hcol & Hval).
  rewrite Hcol. simpl. rewrite (rolling_mean_numeric w col values Hval).
  change (default [] (Some ?x)) with x. rewrite list_lookup_fmap.
  destruct (roll_mean w 1 values !! i) as [m|] eqn:Hm; [|done]. simpl.
  apply lookup_lt_Some in Hm as Hlt. rewrite length_roll_mean in Hlt.
  rewrite (as_numeric_length col values Hval) in Hlt.
  destruct (lookup_lt_is_Some_2 col i Hlt) as [c Hc].
  destruct (as_numeric_lookup col values i c Hval Hc) as (x & Hx & Hcx).
  assert (cell_missing c = false) as Hpresent.
  { rewrite forallb_forall in Hrow.
    specialize (Hrow (f, col)). unfold cell_ok in Hrow. simpl in Hrow.
    rewrite Hc in Hrow.
    apply negb_true_iff, Hrow, list_elem_of_In. by apply assoc_get_elem. }
  clear Ha Hcols Hnum.
  destruct c as [q| |]; simpl in Hcx, Hpresent; [|done|done].
  injection Hcx as <-.
  destruct (roll_mean_present values w i q (windows_pos w Hw) Hx) as (m' & Hm').
  rewrite Hm' in Hm. by injection Hm as <-.
Qed.

Lemma complete_augment_dropna df a :
  numeric_fields df → augment df = Some a → complete df → dropna a = a.
Proof.
  intros Hnum Ha Hc. apply dropna_all_rows. intros i.
  apply (row_complete_augment df a i Hnum Ha).
  by apply complete_row_complete.
Qed.

Lemma get_column_names n df c : get_column n df = Some c → n ∈ column_names df.
Proof.
  intros Hc%assoc_get_elem. unfold column_names.
  apply list_elem_of_fmap. by exists (n, c).
Qed.

Lemma names_get_column n df : n ∈ column_names df → is_Some (get_column n df).
Proof.
  unfold column_names, get_column. induction (columns df) as [|[k c] l IH]; simpl.
  - by intros ?%elem_of_nil.
  - intros [->|Hin]%elem_of_cons.
    + rewrite decide_True by done. eauto.
    + destruct (decide (k = n)); eauto.
Qed.

Lemma select_Some names df :
  (∀ n, n ∈ names → n ∈ column_names df) →
  ∃ X, select names df = Some X ∧ column_names X = names ∧
       index X = index df ∧
       ∀ n, n ∈ names → get_column n X = get_column n df.
Proof.
  intros Hnames. unfold select.
  assert (∃ cols, mapM (λ n, pair n <$> get_column n df) names = Some cols ∧
            cols.*1 = names ∧
            ∀ n, n ∈ names → assoc_get n cols = get_column n df)
    as (cols & -> & Hn & Hget).
  { induction names as [|n names IH].
    - exists []. split; [done|]. split; [done|]. by intros n ?%elem_of_nil.
    - destruct IH as (cols & Hm & Hn & Hget).
      { intros m Hm. apply Hnames. by apply list_elem_of_further. }
      destruct (names_get_column n df) as [c Hc].
      { apply Hnames. apply list_elem_of_here. }
      exists ((n, c) :: cols). split; [|split].
      + cbn [mapM]. rewrite Hc. simpl. by rewrite Hm.
      + rewrite fmap_cons. cbn [fst]. by rewrite Hn.
      + intros m [->|Hm']%elem_of_cons; simpl.
        * by rewrite decide_True.
        * destruct (decide (n = m)) as [->|]; [done | by apply Hget]. }
  eexists. split; [done|]. by repeat split.
Qed.


Lemma target_not_rolling : target ∉ rolling_columns.
Proof. apply (bool_decide_unpack _). by vm_compute. Qed.

Lemma target_is_field : target ∈ features ++ [target].
Proof. apply elem_of_app. right. apply list_elem_of_here. Qed.

(** What a call on a table with the seventeen numeric fields does. *)
Lemma preprocess_game_log_numeric r (h : gmap nat DataFrame) df :
  h !! r = Some df → empty df = false → numeric_fields df →
  ∃ r' h' a,
    preprocess_game_log (Some r) h = (inr (Some r'), h') ∧
    augment df = Some a ∧
    r' ≠ r ∧ h !! r' = None ∧
    h' !! r = Some a ∧ h' !! r' = Some (dropna a) ∧
    (∀ r'', r'' ≠ r → r'' ≠ r' → h' !! r'' = h !! r'').
Proof.
  intros Hr Hne Hnum. destruct (augment_exists df Hnum) as [a Ha].
  exists (fresh (dom h)), (<[fresh (dom h) := dropna a]> (<[r := a]> h)), a.
  assert (Hfresh : h !! fresh (dom h) = None).
  { apply not_elem_of_dom. apply is_fresh. }
  assert (fresh (dom h) ≠ r) as Hrr.
  { intros Heq. rewrite Heq in Hfresh. by rewrite Hr in Hfresh. }
  split; [by apply (preprocess_game_log_run r h df a)|]. split; [done|].
  split; [done|]. split; [done|]. split; [|split].
  - rewrite lookup_insert_ne by done. by rewrite lookup_insert_eq.
  - by rewrite lookup_insert_eq.
  - intros r'' H1 H2. by rewrite !lookup_insert_ne.
Qed.


(** Claim C8, amended.  For a non-empty table with the seventeen numeric
    fields and none of the derived column names, [preprocess_game_log]
    returns a new table: the complete rows of the input with exactly 51
    rolling columns (17 fields, 3 windows) appended, all rows when no cell
    is missing.  It is deterministic: an equal table in any store gives an
    equal result.  It is not pure: the same 51 columns are appended in place
    to the table it was given; no other object changes. *)
Theorem preprocess_game_log_effect r (h : gmap nat DataFrame) df :
  h !! r = Some df → empty df = false → numeric_fields df →
  (∀ n, n ∈ rolling_columns → n ∉ column_names df) →
  ∃ r' h' a,
    preprocess_game_log (Some r) h = (inr (Some r'), h') ∧
    r' ≠ r ∧ h !! r' = None ∧
    index a = index df ∧
    columns a = columns df ++ derived_columns steps df ∧
    length (derived_columns steps df) = 51%nat ∧
    h' !! r' = Some (dropna a) ∧
    (complete df → dropna a = a) ∧
    h' !! r = Some a ∧
    (∀ r'', r'' ≠ r → r'' ≠ r' → h' !! r'' = h !! r'') ∧
    (∀ (h2 : gmap nat DataFrame) r2, h2 !! r2 = Some df →
       ∃ r2' h2', preprocess_game_log (Some r2) h2 = (inr (Some r2'), h2') ∧
                  h2' !! r2' = Some (dropna a)).
Proof.
  intros Hr Hne Hnum Hfresh.
  destruct (preprocess_game_log_numeric r h df Hr Hne Hnum)
    as (r' & h' & a & Hrun & Ha & Hrr & Hnew & Hin & Hout & Hother).
  exists r', h', a.
  destruct (augment_columns df a Hnum Ha) as [Hidx _].
  split; [exact Hrun|]. split; [exact Hrr|]. split; [exact Hnew|].
  split; [exact Hidx|]. split; [by apply augment_appends|].
  split; [apply length_derived_columns|]. split; [exact Hout|].
  split; [intros Hc; by apply (complete_augment_dropna df a)|].
  split; [exact Hin|]. split; [exact Hother|].
  intros h2 r2 Hr2.
  destruct (preprocess_game_log_numeric r2 h2 df Hr2 Hne Hnum)
    as (r2' & h2' & a2 & Hrun2 & Ha2 & _ & _ & _ & Hout2 & _).
  exists r2', h2'. split; [exact Hrun2|]. congruence.
Qed.


(** ** Metrics *)

Lemma np_truediv_zero a : ∀ q, np_truediv a 0 ≠ Fin q.
Proof.
  intros q. unfold np_truediv. rewrite decide_True by done.
  by repeat case_decide.
Qed.

Lemma np_mul_not_finite a c : (∀ q, a ≠ Fin q) → ∀ q, np_mul a c ≠ Fin q.
Proof.
  intros Ha q. destruct a as [|x| |]; simpl; repeat case_decide; try done.
  by destruct (Ha x).
Qed.

Lemma impact_metrics_unguarded df m :
  App.impact_metrics df = Some m → column_sum "MIN" df = Some 0 →
  ∃ v, assoc_get "Efficiency" m = Some v ∧ v ≠ Fin 0.
Proof.
  unfold App.impact_metrics. intros Hm Hmin.
  destruct (column_mean "MIN" df) as [usage|]; [|done]. simpl in Hm.
  destruct (column_sum "FGM" df) as [fgm|]; [|done]. simpl in Hm.
  destruct (column_sum "FGA" df) as [fga|]; [|done]. simpl in Hm.
  destruct (column_mean "STL" df) as [stl|]; [|done]. simpl in Hm.
  destruct (column_mean "BLK" df) as [blk|]; [|done]. simpl in Hm.
  destruct (column_sum "PTS" df) as [pts|]; [|done]. simpl in Hm.
  rewrite Hmin in Hm. simpl in Hm. injection Hm as <-.
  eexists. split; [reflexivity|].
  apply np_mul_not_finite, np_truediv_zero.
Qed.

Lemma impact_metrics_guarded df m :
  App1.impact_metrics df = Some m → column_sum "MIN" df = Some 0 →
  assoc_get "Efficiency" m = Some (Fin 0).
Proof.
  unfold App1.impact_metrics. intros Hm Hmin.
  destruct (column_mean "MIN" df) as [usage|]; [|done]. simpl in Hm.
  destruct (column_sum "FGM" df) as [fgm|]; [|done]. simpl in Hm.
  destruct (column_sum "FGA" df) as [fga|]; [|done]. simpl in Hm.
  destruct (column_mean "STL" df) as [stl|]; [|done]. simpl in Hm.
  destruct (column_mean "BLK" df) as [blk|]; [|done]. simpl in Hm.
  destruct (column_sum "PTS" df) as [pts|]; [|done]. simpl in Hm.
  rewrite Hmin in Hm. simpl in Hm. injection Hm as <-.
  cbn [assoc_get]. repeat (rewrite decide_False by done). rewrite decide_True by done.
  reflexivity.
Qed.

(** ** concat *)

Lemma elem_of_union_names names : ∀ seen n,
  n ∈ union_names seen names ↔ n ∈ seen ∨ n ∈ names.
Proof.
  induction names as [|m names IH]; intros seen n; simpl.
  - rewrite elem_of_nil. tauto.
  - destruct (decide (m ∈ seen)) as [Hin|Hin]; rewrite IH.
    + split.
      * intros [?|?]; [by left | right; by apply list_elem_of_further].
      * intros [?|[->|?]%elem_of_cons]; [by left | by left | by right].
    + split.
      * intros [[?|Hm]%elem_of_app|?].
        -- by left.
        -- apply list_elem_of_singleton in Hm as ->. right. apply list_elem_of_here.
        -- right. by apply list_elem_of_further.
      * intros [?|[->|?]%elem_of_cons].
        -- left. apply elem_of_app. by left.
        -- left. apply elem_of_app. right. apply list_elem_of_here.
        -- by right.
Qed.

Lemma elem_of_all_names nss : ∀ seen n,
  n ∈ foldl union_names seen nss ↔ n ∈ seen ∨ ∃ ns, ns ∈ nss ∧ n ∈ ns.
Proof.
  induction nss as [|ns nss IH]; intros seen n; simpl.
  - split; [tauto|]. intros [?|(ns & []%elem_of_nil & _)]. done.
  - rewrite IH, elem_of_union_names. split.
    + intros [[?|?]|(ns' & ? & ?)]; [tauto| |].
      * right. exists ns. split; [apply list_elem_of_here|done].
      * right. exists ns'. split; [by apply list_elem_of_further|done].
    + intros [?|(ns' & [->|?]%elem_of_cons & ?)]; [tauto|tauto|].
      right. by exists ns'.
Qed.

Lemma assoc_get_tabulate {A} (F : string → A) names n :
  n ∈ names → assoc_get n ((λ name, (name, F name)) <$> names) = Some (F n).
Proof.
  induction names as [|m names IH]; [by intros ?%elem_of_nil|].
  intros Hin. rewrite fmap_cons. simpl.
  destruct (decide (m = n)) as [->|Hne]; [done|].
  apply IH. apply elem_of_cons in Hin as [->|?]; done.
Qed.

(** The rows of a concat are the rows of the frames, one frame after the
    other. *)
Lemma concat_rows frames :
  nrows (concat frames) = sum_list (nrows <$> frames) ∧
  ∀ n df, df ∈ frames → n ∈ column_names df →
    get_column n (concat frames) = Some (mjoin (cells_for n <$> frames)).
Proof.
  split.
  - unfold concat. cbv zeta. unfold nrows at 1. cbn [index].
    rewrite length_seqZ. apply Nat2Z.id.
  - intros n df Hdf Hn. unfold get_column, concat. simpl.
    apply (assoc_get_tabulate (λ name, mjoin (cells_for name <$> frames))).
    apply elem_of_all_names. right. exists (column_names df).
    split; [|done]. apply list_elem_of_fmap. by exists df.
Qed.

(** ** Attempts and sleeps *)
Section attempts.
Context `{NbaApi}.

Lemma attempt_loop_nil player_name player_id season max_retries gamelogs w :
  attempt_loop player_name player_id season max_retries [] gamelogs w
  = (inr (Normal gamelogs), w).
Proof. done. Qed.

Lemma range_nonpos n : (n < 1)%Z → range n = [].
Proof. intros Hn. unfold range, seqZ. by replace (Z.to_nat n) with 0%nat by lia. Qed.

(** Whatever the upstream does, a call never sleeps and never calls
    [fetch_player_gamelog] twice for a season. *)
Lemma get_player_data_single_attempt player_name max_retries w r w' :
  get_player_data player_name max_retries w = (r, w') →
  slept w' = slept w ∧
  ∃ made, attempts w' = attempts w ++ made ∧ NoDup made.
Proof.
  destruct (get_player_id_returns player_name w)
    as (player_id & w1 & Hid & _ & Hatt1 & Hsl1 & _).
  unfold get_player_data. unfold mbind at 1, M_bind. rewrite Hid.
  destruct (not_id player_id) eqn:Hnot.
  { intros [= <- <-]. split; [done|]. exists [].
    rewrite app_nil_r. split; [done | apply NoDup_nil_2]. }
  destruct (decide (1 ≤ max_retries)%Z) as [Hn|Hn].
  - destruct (fetch_player_gamelog_returns (default 0%Z player_id)
                SEASON_CURRENT w1) as (current & w2 & Hc & Hatt2 & Hsl2 & _).
    destruct (fetch_player_gamelog_returns (default 0%Z player_id)
                SEASON_PREVIOUS w2) as (previous & w3 & Hp & Hatt3 & Hsl3 & _).
    unfold mbind at 1, M_bind.
    rewrite (season_loop_two _ _ _ _ _ _ _ _ Hn Hc Hp).
    intros Hrun.
    assert (w' = w3) as ->.
    { destruct (option_list current ++ option_list previous);
        by injection Hrun as _ <-. }
    split; [congruence|].
    exists [(default 0%Z player_id, SEASON_CURRENT);
            (default 0%Z player_id, SEASON_PREVIOUS)].
    split.
    + rewrite Hatt3, Hatt2, Hatt1, <- app_assoc. done.
    + apply NoDup_cons. split; [|apply NoDup_singleton].
      rewrite list_elem_of_singleton. by intros [= _ Hs].
  - unfold mbind at 1, M_bind. cbn [season_loop].
    rewrite (range_nonpos max_retries) by lia.
    unfold mbind, M_bind. rewrite !attempt_loop_nil.
    intros [= <- <-]. split; [done|]. exists [].
    rewrite app_nil_r. split; [done | apply NoDup_nil_2].
Qed.
End attempts.

(** ** The pipeline on the sample inputs *)

Lemma numeric_fields_check df :
  forallb (λ f, bool_decide (is_Some (get_column f df ≫= as_numeric)))
          (features ++ [target]) = true →
  numeric_fields df.
Proof.
  intros Hall f Hf. rewrite forallb_forall in Hall.
  specialize (Hall f). rewrite <- list_elem_of_In in Hall.
  specialize (Hall Hf). apply bool_decide_eq_true in Hall as [values Hv].
  destruct (get_column f df) as [col|]; [|done]. simpl in Hv. eauto.
Qed.

Lemma numeric_fields_two_games : numeric_fields two_games.
Proof. apply numeric_fields_check. vm_compute. reflexivity. Qed.

Example mean_10_20 : mean [Qc_of_Z 10; Qc_of_Z 20] = Qc_of_Z 15.
Proof. apply Qc_is_canon. reflexivity. Qed.

Example rolling_3_of_10_20 :
  rolling_mean 3 (ints [10; 20]%Z) = Some (ints [10; 15]%Z).
Proof. compute_true. Qed.

(** Claim C2, at an upstream whose first request times out although a second
    request for the same season would succeed: [fetch_player_gamelog] turns
    the timeout into [None], so [get_player_data] attempts each season
    exactly once, never sleeps, reports the error, and returns the rows of
    the other season only. *)
Theorem get_player_data_timeout_not_retried :
  let run := @get_player_data flaky_api "LeBron James" MAX_RETRIES fresh_world in
  @PlayerGameLog flaky_api [] 2544 SEASON_CURRENT = inl ReadTimeout ∧
  @PlayerGameLog flaky_api [(2544%Z, SEASON_CURRENT)] 2544 SEASON_CURRENT
    = inr two_games ∧
  attempts run.2 = [(2544%Z, SEASON_CURRENT); (2544%Z, SEASON_PREVIOUS)] ∧
  requests run.2 = [(2544%Z, SEASON_CURRENT); (2544%Z, SEASON_PREVIOUS)] ∧
  slept run.2 = [] ∧
  messages run.2 = [ErrGameLog 2544 SEASON_CURRENT ReadTimeout] ∧
  run.1 = inr (Some (concat [two_games])).
Proof.
  cbv zeta. split; [reflexivity|]. split; [reflexivity|].
  split; [by vm_compute|]. split; [by vm_compute|]. split; [by vm_compute|].
  split; [by vm_compute|]. compute_true.
Qed.

(** Claim C3, for a player whose [MIN] is 0 in every row: on the engineered
    table the unguarded ratios of [streamlit_app.py] (Efficiency and
    Offensive Rating) are [nan], not 0, while the guarded ratios of
    [1streamlit_app.py] are 0. *)
Theorem efficiency_unguarded_on_zero_minutes :
  ∃ r' h' processed,
    preprocess_game_log (Some 0%nat) {[0%nat := bench_log]}
      = (inr (Some r'), h') ∧
    h' !! r' = Some processed ∧
    column_sum "MIN" processed = Some 0 ∧
    column_sum "FGA" processed = Some 0 ∧
    App.impact_metrics processed ≫= assoc_get "Efficiency" = Some NaN ∧
    App.impact_metrics processed ≫= assoc_get "Offensive Rating" = Some NaN ∧
    App1.impact_metrics processed ≫= assoc_get "Efficiency" = Some (Fin 0) ∧
    App1.impact_metrics processed ≫= assoc_get "Offensive Rating" = Some (Fin 0).
Proof.
  set (a := default bench_log (augment bench_log)).
  assert (Ha : augment bench_log = Some a) by (vm_compute; reflexivity).
  set (h := {[0%nat := bench_log]} : gmap nat DataFrame).
  exists (fresh (dom h)), (<[fresh (dom h) := dropna a]> (<[0%nat := a]> h)),
    (dropna a).
  split.
  { apply (preprocess_game_log_run 0 h bench_log a);
      [apply lookup_singleton_eq | reflexivity | exact Ha]. }
  split; [apply lookup_insert_eq|].
  split; [compute_true|]. split; [compute_true|]. split; [compute_true|].
  split; [compute_true|]. split; compute_true.
Qed.

(** ** Where the stated claims fail *)

(** Against claim C5 as stated: on a five-game log the held-out partition
    has one row, every score is [nan], no score compares greater than
    [-inf], and [train_models] returns no model at all as best. *)
Lemma train_models_no_best_on_five_games :
  nrows (features_of five_games) = 5%nat ∧
  @train_models declared (features_of five_games) (target_of five_games) []
    = (inr (None, results_on five_games), calls_on five_games) ∧
  scores_of (results_on five_games) = [NaN; NaN; NaN; NaN].
Proof.
  split; [vm_compute; reflexivity|]. split; vm_compute; reflexivity.
Qed.

(** Against claim C10 as stated: on the same five-game log [train_models]
    returns no best model, while [main] charts the first entry, Random
    Forest. *)
Lemma chart_differs_from_best_on_five_games :
  ∃ charted,
    @train_models declared (features_of five_games) (target_of five_games) []
      = (inr (None, results_on five_games), calls_on five_games) ∧
    best_result (results_on five_games) = Some charted ∧
    results_on five_games !! 0%nat = Some ("Random Forest", charted) ∧
    result_model charted = RandomForestRegressor 100 42.
Proof.
  exists (mkResult (RandomForestRegressor 100 42) NaN [Fin 0]
            (ints [18]%Z)).
  split; [vm_compute; reflexivity|]. split; [compute_true|].
  split; compute_true.
Qed.

(** Against claim C8 as stated: on a two-game log with 19 columns the call
    appends 51 columns, not 48, and the table it was given no longer is the
    one passed in: it has the columns of the result. *)
Lemma preprocess_game_log_changes_its_input :
  ∃ r' h' out,
    preprocess_game_log (Some 0%nat) {[0%nat := two_games]}
      = (inr (Some r'), h') ∧
    h' !! r' = Some out ∧
    h' !! 0%nat ≠ Some two_games ∧
    length (columns two_games) = 19%nat ∧
    length (columns out) = (19 + 51)%nat ∧
    column_names <$> h' !! 0%nat = Some (column_names out).
Proof.
  set (a := default two_games (augment two_games)).
  assert (Ha : augment two_games = Some a) by (vm_compute; reflexivity).
  set (h := {[0%nat := two_games]} : gmap nat DataFrame).
  assert (Hfresh : fresh (dom h) ≠ 0%nat).
  { intros Heq. apply (is_fresh (dom h)). rewrite Heq.
    apply elem_of_dom. exists two_games. apply lookup_singleton_eq. }
  exists (fresh (dom h)), (<[fresh (dom h) := dropna a]> (<[0%nat := a]> h)),
    (dropna a).
  split.
  { apply (preprocess_game_log_run 0 h two_games a);
      [apply lookup_singleton_eq | reflexivity | exact Ha]. }
  split; [apply lookup_insert_eq|].
  rewrite lookup_insert_ne by done. rewrite lookup_insert_eq.
  split.
  { intros Heq. apply (f_equal (fmap (λ d, length (columns d)))) in Heq.
    vm_compute in Heq. discriminate. }
  split; [reflexivity|]. split; [vm_compute; reflexivity|].
  vm_compute. reflexivity.
Qed.

(** The sibling [preprocess_game_log] of [1streamlit_app.py] writes its 51
    columns into the table it was given as well. *)
Example sibling_preprocess_changes_its_input :
  (λ d, length (columns d))
    <$> (App1.preprocess_game_log (Some 0%nat) {[0%nat := two_games]}).2 !! 0%nat
  = Some 70%nat.
Proof. by vm_compute. Qed.

(** ** The theorems at the sample inputs *)

Lemma get_player_data_partial_witness :
  (1 ≤ MAX_RETRIES)%Z ∧
  ∃ player_id w1 result w',
    @get_player_id flaky_api "LeBron James" fresh_world = (inr player_id, w1) ∧
    @get_player_data flaky_api "LeBron James" MAX_RETRIES fresh_world
      = (inr result, w') ∧
    if not_id player_id then result = None ∧ w' = w1
    else ∃ current w2 previous,
      @fetch_player_gamelog flaky_api (default 0%Z player_id) SEASON_CURRENT w1
        = (inr current, w2) ∧
      @fetch_player_gamelog flaky_api (default 0%Z player_id) SEASON_PREVIOUS w2
        = (inr previous, w') ∧
      (result = None ↔ current = None ∧ previous = None) ∧
      (option_list current ++ option_list previous ≠ [] →
       result = Some (concat (option_list current ++ option_list previous))).
Proof.
  assert (Hn : (1 ≤ MAX_RETRIES)%Z) by (unfold MAX_RETRIES; lia).
  split; [exact Hn|].
  exact (@get_player_data_partial flaky_api "LeBron James" MAX_RETRIES
           fresh_world Hn).
Defined.

Lemma fetch_all_player_data_partial_witness :
  valid_run trio trio_run ∧
  let player_data := (fetch_all_player_data trio trio_run).1 in
  dom player_data ⊆ list_to_set trio ∧
  (size player_data ≤ length trio)%nat ∧
  (∀ player data, player_data !! player = Some data →
     empty data = false ∧ (0 < nrows data)%nat) ∧
  (∀ player, player ∈ dom player_data ↔
     ∃ i data, trio !! i = Some player ∧
       outcomes trio_run !! i = Some (inr (Some data)) ∧ empty data = false).
Proof.
  assert (Hrun : valid_run trio trio_run).
  { split; [reflexivity|]. compute_true. }
  split; [exact Hrun|].
  exact (fetch_all_player_data_partial trio trio_run Hrun).
Defined.

Example trio_result :
  dom (fetch_all_player_data trio trio_run).1 = {["Anthony Davis"]} ∧
  (fetch_all_player_data trio trio_run).2
  = [ErrPlayerData "Bronny James" (OtherError "worker failed");
     WarnNoData "LeBron James"].
Proof. split; [compute_true | by vm_compute]. Qed.


Lemma rolling_columns_fresh_two_games :
  ∀ n, n ∈ rolling_columns → n ∉ column_names two_games.
Proof.
  apply Forall_forall. compute_true.
Qed.

Lemma preprocess_game_log_effect_witness :
  let h : gmap nat DataFrame := {[0%nat := two_games]} in
  (h !! 0%nat = Some two_games ∧ empty two_games = false ∧
   numeric_fields two_games ∧
   (∀ n, n ∈ rolling_columns → n ∉ column_names two_games)) ∧
  ∃ r' h' a,
    preprocess_game_log (Some 0%nat) h = (inr (Some r'), h') ∧
    r' ≠ 0%nat ∧ h !! r' = None ∧
    index a = index two_games ∧
    columns a = columns two_games ++ derived_columns steps two_games ∧
    length (derived_columns steps two_games) = 51%nat ∧
    h' !! r' = Some (dropna a) ∧
    (complete two_games → dropna a = a) ∧
    h' !! 0%nat = Some a ∧
    (∀ r'', r'' ≠ 0%nat → r'' ≠ r' → h' !! r'' = h !! r'') ∧
    (∀ (h2 : gmap nat DataFrame) r2, h2 !! r2 = Some two_games →
       ∃ r2' h2', preprocess_game_log (Some r2) h2 = (inr (Some r2'), h2') ∧
                  h2' !! r2' = Some (dropna a)).
Proof.
  intros h.
  assert (H1 : h !! 0%nat = Some two_games) by apply lookup_singleton_eq.
  assert (H2 : empty two_games = false) by reflexivity.
  split; [by repeat split; try exact numeric_fields_two_games;
             try exact rolling_columns_fresh_two_games|].
  exact (preprocess_game_log_effect 0 h two_games H1 H2
           numeric_fields_two_games rolling_columns_fresh_two_games).
Defined.


Lemma declared_run_ten_games :
  nrows (features_of ten_games) = 10%nat ∧
  @train_models declared (features_of ten_games) (target_of ten_games) []
    = (inr (Some (GradientBoostingRegressor 100 42), results_on ten_games),
       calls_on ten_games) ∧
  scores_of (results_on ten_games)
  = [Fin (Q2Qc (5 # 10)); Fin (Q2Qc (7 # 10));
     Fin (Q2Qc (7 # 10)); Fin (Q2Qc (3 # 10))].
Proof.
  split; [vm_compute; reflexivity|]. split; [vm_compute; reflexivity|].
  compute_true.
Qed.

Lemma comparable_Fin q : comparable (Fin q).
Proof. by split. Qed.

Lemma train_models_selects_first_max_witness :
  let X := features_of ten_games in
  let y := target_of ten_games in
  let res := results_on ten_games in
  let best := Some (GradientBoostingRegressor 100 42) in
  (@train_models declared X y [] = (inr (best, res), calls_on ten_games) ∧
   Forall comparable (scores_of res)) ∧
  scores_of res = [Fin (Q2Qc (5 # 10)); Fin (Q2Qc (7 # 10));
                   Fin (Q2Qc (7 # 10)); Fin (Q2Qc (3 # 10))] ∧
  res.*1 = models.*1 ∧
  ∃ i c, res !! i = Some c ∧ best = Some (result_model c.2) ∧
         first_max (scores_of res) i.
Proof.
  intros X y res best.
  destruct declared_run_ten_games as (_ & Hrun & Hs).
  assert (Hcmp : Forall comparable (scores_of res)).
  { unfold res. rewrite Hs. repeat constructor; apply comparable_Fin. }
  split; [by split|]. split; [exact Hs|].
  exact (@train_models_selects_first_max declared X y [] best res
           (calls_on ten_games) Hrun Hcmp).
Defined.

Lemma chart_matches_best_model_witness :
  let X := features_of ten_games in
  let y := target_of ten_games in
  let res := results_on ten_games in
  let best := Some (GradientBoostingRegressor 100 42) in
  (@train_models declared X y [] = (inr (best, res), calls_on ten_games) ∧
   scores_of res !! 0%nat = Some (Fin (Q2Qc (5 # 10))) ∧
   comparable (Fin (Q2Qc (5 # 10)))) ∧
  ∃ r, best_result res = Some r ∧ best = Some (result_model r).
Proof.
  intros X y res best.
  destruct declared_run_ten_games as (_ & Hrun & Hs).
  assert (H0 : scores_of res !! 0%nat = Some (Fin (Q2Qc (5 # 10))))
    by (unfold res; by rewrite Hs).
  split; [split; [exact Hrun | split; [exact H0 | apply comparable_Fin]]|].
  exact (@chart_matches_best_model declared X y [] best res
           (calls_on ten_games) _ Hrun H0 (comparable_Fin _)).
Defined.

(** * Further properties of the code *)

(** ** The cache of [fetch_player_gamelog] *)

Section cache_facts.
Context `{NbaApi}.

Ltac run := unfold mbind, M_bind, mret, M_ret, modify, get, raise,
            st_report, send_request, note_attempt, cache_store, sleep;
            simpl.

(** A live entry answers the call: no request, no message. *)
Lemma fetch_player_gamelog_hit player_id season w cached :
  gamelog_cache w !! (player_id, season) = Some cached →
  ∃ w', fetch_player_gamelog player_id season w = (inr cached, w') ∧
    requests w' = requests w ∧ messages w' = messages w ∧
    slept w' = slept w ∧ gamelog_cache w' = gamelog_cache w.
Proof.
  intros Hc. unfold fetch_player_gamelog. run. rewrite Hc.
  eexists. split; [reflexivity|]. done.
Qed.

(** What a call returns is what the cache holds afterwards; the other
    entries stay. *)
Lemma fetch_player_gamelog_stores player_id season w gamelog w' :
  fetch_player_gamelog player_id season w = (inr gamelog, w') →
  gamelog_cache w' !! (player_id, season) = Some gamelog ∧
  ∀ k v, gamelog_cache w !! k = Some v → gamelog_cache w' !! k = Some v.
Proof.
  unfold fetch_player_gamelog. run.
  destruct (gamelog_cache w !! (player_id, season)) as [cached|] eqn:Hc.
  - intros [= <- <-]. simpl. done.
  - match goal with |- context [fetch_player_gamelog_uncached _ _ ?w0] =>
      destruct (fetch_player_gamelog_uncached_returns player_id season w0)
        as (g & w1 & -> & _ & _ & _ & Hca)
    end.
    simpl in Hca. intros [= <- <-]. simpl. split.
    + apply lookup_insert_eq.
    + intros k v Hk. rewrite Hca.
      destruct (decide (k = (player_id, season))) as [->|Hne]; [congruence|].
      by rewrite lookup_insert_ne.
Qed.

(** A call of [fetch_player_gamelog] returns, and a second call with the
    same arguments, while the entry is live, returns the same value, a
    [None] that stands for a failed request too, without a new request:
    a failure is remembered like a table. *)
Theorem fetch_player_gamelog_idempotent player_id season w :
  ∃ gamelog w1 w2,
    fetch_player_gamelog player_id season w = (inr gamelog, w1) ∧
    fetch_player_gamelog player_id season w1 = (inr gamelog, w2) ∧
    requests w2 = requests w1 ∧ gamelog_cache w2 = gamelog_cache w1.
Proof.
  destruct (fetch_player_gamelog_returns player_id season w)
    as (gamelog & w1 & Hf & _).
  destruct (fetch_player_gamelog_stores _ _ _ _ _ Hf) as [Hc _].
  destruct (fetch_player_gamelog_hit _ _ _ _ Hc)
    as (w2 & Hf2 & Hr & Hm & _ & Hca).
  by exists gamelog, w1, w2.
Qed.

(** [fetch_player_gamelog] never raises and never sleeps.  A live entry
    answers without a request.  Otherwise exactly one request is sent:
    the table it delivers is returned, and any exception it raises is
    turned into [None] and one error message. *)
Theorem fetch_player_gamelog_outcome player_id season w :
  ∃ gamelog w',
    fetch_player_gamelog player_id season w = (inr gamelog, w') ∧
    slept w' = slept w ∧
    match gamelog_cache w !! (player_id, season) with
    | Some cached => gamelog = cached ∧ requests w' = requests w
    | None =>
        requests w' = requests w ++ [(player_id, season)] ∧
        match PlayerGameLog (requests w) player_id season with
        | inr table => gamelog = Some table ∧ messages w' = messages w
        | inl e =>
            gamelog = None ∧
            messages w' = messages w ++ [ErrGameLog player_id season e]
        end
    end.
Proof.
  unfold fetch_player_gamelog. run.
  destruct (gamelog_cache w !! (player_id, season)) as [cached|] eqn:Hc.
  - eexists _, _. split; [reflexivity|]. done.
  - unfold fetch_player_gamelog_uncached, try_except. run.
    destruct (PlayerGameLog (requests w) player_id season) as [e|table]; run;
      eexists _, _; (split; [reflexivity|]); done.
Qed.
End cache_facts.

(** ** [get_player_data] at its edges *)

Section get_player_data_edges.
Context `{NbaApi}.

Ltac run := unfold mbind, M_bind, mret, M_ret, modify, get, raise,
            st_report, send_request, note_attempt, cache_store, sleep;
            simpl.

(** The identity found for a name does not depend on the world. *)
Lemma get_player_id_stable player_name w player_id w1 v :
  get_player_id player_name w = (inr player_id, w1) →
  ∃ v1, get_player_id player_name v = (inr player_id, v1) ∧
    requests v1 = requests v ∧ gamelog_cache v1 = gamelog_cache v.
Proof.
  unfold get_player_id, try_except.
  destruct (find_players_by_full_name player_name) as [e|[|first rest]]; run;
    intros [= <- _]; eauto.
Qed.

Lemma get_player_data_run player_name max_retries w player_id w1
    current w2 previous w3 :
  (1 ≤ max_retries)%Z →
  get_player_id player_name w = (inr player_id, w1) →
  not_id player_id = false →
  fetch_player_gamelog (default 0%Z player_id) SEASON_CURRENT w1
    = (inr current, w2) →
  fetch_player_gamelog (default 0%Z player_id) SEASON_PREVIOUS w2
    = (inr previous, w3) →
  get_player_data player_name max_retries w
  = (inr (match option_list current ++ option_list previous with
          | [] => None
          | gamelogs => Some (concat gamelogs)
          end), w3).
Proof.
  intros Hn Hid Hnot Hc Hp. unfold get_player_data.
  unfold mbind at 1, M_bind. rewrite Hid, Hnot.
  unfold mbind at 1, M_bind.
  rewrite (season_loop_two _ _ _ _ _ _ _ _ Hn Hc Hp).
  by destruct (option_list current ++ option_list previous).
Qed.

Lemma get_player_data_no_season player_name max_retries w player_id w1 :
  (max_retries < 1)%Z →
  get_player_id player_name w = (inr player_id, w1) →
  get_player_data player_name max_retries w = (inr None, w1).
Proof.
  intros Hn Hid. unfold get_player_data.
  unfold mbind at 1, M_bind. rewrite Hid.
  destruct (not_id player_id); [done|].
  unfold mbind at 1, M_bind. cbn [season_loop].
  rewrite (range_nonpos max_retries) by lia.
  unfold mbind, M_bind. by rewrite !attempt_loop_nil.
Qed.

(** With [max_retries] below 1 the attempt loop has no iteration: no
    season is fetched, nothing is requested, and the call returns [None]
    for a known player too. *)
Theorem get_player_data_without_attempts player_name max_retries w :
  (max_retries < 1)%Z →
  ∃ w', get_player_data player_name max_retries w = (inr None, w') ∧
    requests w' = requests w ∧ attempts w' = attempts w ∧
    slept w' = slept w ∧ gamelog_cache w' = gamelog_cache w.
Proof.
  intros Hn.
  destruct (get_player_id_returns player_name w)
    as (player_id & w1 & Hid & Hreq & Hatt & Hsl & Hca).
  exists w1. by rewrite (get_player_data_no_season _ _ _ _ _ Hn Hid).
Qed.

(** A name the catalogue does not resolve ends the call before any
    fetch: a failed lookup and an empty answer each leave one message, and
    a first entry whose id is 0 is taken for no id and leaves none. *)
Theorem get_player_data_unresolved player_name max_retries w :
  match find_players_by_full_name player_name with
  | inr (first :: _) => ident first = 0%Z
  | _ => True
  end →
  ∃ w', get_player_data player_name max_retries w = (inr None, w') ∧
    requests w' = requests w ∧ attempts w' = attempts w ∧
    gamelog_cache w' = gamelog_cache w ∧
    messages w' = messages w ++
      match find_players_by_full_name player_name with
      | inl e => [ErrPlayerId player_name e]
      | inr [] => [WarnPlayerNotFound player_name]
      | inr (_ :: _) => []
      end.
Proof.
  intros Hfind. unfold get_player_data, get_player_id, try_except.
  destruct (find_players_by_full_name player_name) as [e|[|first rest]]; run.
  - eexists. split; [reflexivity|]. done.
  - eexists. split; [reflexivity|]. done.
  - rewrite Hfind. simpl. eexists. split; [reflexivity|].
    by rewrite app_nil_r.
Qed.

(** A second call for the same player, while the entries of the first
    are live, returns the same result without a new request. *)
Theorem get_player_data_warm player_name max_retries w :
  ∃ result w1 w2,
    get_player_data player_name max_retries w = (inr result, w1) ∧
    get_player_data player_name max_retries w1 = (inr result, w2) ∧
    requests w2 = requests w1 ∧ gamelog_cache w2 = gamelog_cache w1.
Proof.
  destruct (get_player_id_returns player_name w)
    as (player_id & v1 & Hid & _).
  destruct (decide (1 ≤ max_retries)%Z) as [Hn|Hn].
  2: { assert (max_retries < 1)%Z as Hlt by lia.
       destruct (get_player_id_stable _ _ _ _ v1 Hid)
         as (v2 & Hid2 & Hreq & Hca).
       exists None, v1, v2.
       rewrite (get_player_data_no_season _ _ _ _ _ Hlt Hid).
       by rewrite (get_player_data_no_season _ _ _ _ _ Hlt Hid2). }
  destruct (not_id player_id) eqn:Hnot.
  { destruct (get_player_id_stable _ _ _ _ v1 Hid)
      as (v2 & Hid2 & Hreq & Hca).
    exists None, v1, v2. unfold get_player_data.
    unfold mbind at 1, M_bind. rewrite Hid, Hnot.
    unfold mbind at 1, M_bind. rewrite Hid2, Hnot. done. }
  set (i := default 0%Z player_id) in *.
  destruct (fetch_player_gamelog_returns i SEASON_CURRENT v1)
    as (current & v2 & Hc & _).
  destruct (fetch_player_gamelog_returns i SEASON_PREVIOUS v2)
    as (previous & v3 & Hp & _).
  destruct (fetch_player_gamelog_stores _ _ _ _ _ Hc) as [Hcc _].
  destruct (fetch_player_gamelog_stores _ _ _ _ _ Hp) as [Hpp Hkeep].
  apply Hkeep in Hcc.
  destruct (get_player_id_stable _ _ _ _ v3 Hid) as (u1 & Hid2 & Hr1 & Hca1).
  rewrite <- Hca1 in Hcc, Hpp.
  destruct (fetch_player_gamelog_hit _ _ _ _ Hcc)
    as (u2 & Hc2 & Hr2 & _ & _ & Hca2).
  rewrite <- Hca2 in Hpp.
  destruct (fetch_player_gamelog_hit _ _ _ _ Hpp)
    as (u3 & Hp2 & Hr3 & _ & _ & Hca3).
  eexists _, v3, u3.
  rewrite (get_player_data_run _ _ _ _ _ _ _ _ _ Hn Hid Hnot Hc Hp).
  rewrite (get_player_data_run _ _ _ _ _ _ _ _ _ Hn Hid2 Hnot Hc2 Hp2).
  split; [reflexivity|]. split; [reflexivity|].
  split; congruence.
Qed.

(** A table [get_player_data] returns is the concatenation of the
    seasons' tables that were delivered, the current season first, as the
    cache holds them under the player's id after the call.  It is
    renumbered: its labels are 0, 1, ...; its rows are as many as the
    seasons' together, and a column holds the seasons' cells one after
    the other, with [NaN] for the rows of a season whose table lacks the
    column. *)
Theorem get_player_data_rows player_name max_retries w combined w' :
  get_player_data player_name max_retries w = (inr (Some combined), w') →
  ∃ player_id current previous,
    gamelog_cache w' !! (player_id, SEASON_CURRENT) = Some current ∧
    gamelog_cache w' !! (player_id, SEASON_PREVIOUS) = Some previous ∧
    let gamelogs := option_list current ++ option_list previous in
    gamelogs ≠ [] ∧
    combined = concat gamelogs ∧
    index combined = seqZ 0 (Z.of_nat (nrows combined)) ∧
    nrows combined = sum_list (nrows <$> gamelogs) ∧
    ∀ g n, g ∈ gamelogs → n ∈ column_names g →
      get_column n combined = Some (mjoin (cells_for n <$> gamelogs)).
Proof.
  destruct (get_player_id_returns player_name w)
    as (player_id & v1 & Hid & _).
  destruct (decide (1 ≤ max_retries)%Z) as [Hn|Hn].
  2: { assert (max_retries < 1)%Z as Hlt by lia.
       rewrite (get_player_data_no_season _ _ _ _ _ Hlt Hid).
       intros [=]. }
  destruct (not_id player_id) eqn:Hnot.
  { unfold get_player_data. unfold mbind at 1, M_bind.
    rewrite Hid, Hnot. intros [=]. }
  set (i := default 0%Z player_id) in *.
  destruct (fetch_player_gamelog_returns i SEASON_CURRENT v1)
    as (current & v2 & Hc & _).
  destruct (fetch_player_gamelog_returns i SEASON_PREVIOUS v2)
    as (previous & v3 & Hp & _).
  rewrite (get_player_data_run _ _ _ _ _ _ _ _ _ Hn Hid Hnot Hc Hp).
  destruct (fetch_player_gamelog_stores _ _ _ _ _ Hc) as [Hcc _].
  destruct (fetch_player_gamelog_stores _ _ _ _ _ Hp) as [Hpp Hkeep].
  apply Hkeep in Hcc.
  intros Hrun. exists i, current, previous.
  set (gamelogs := option_list current ++ option_list previous) in *.
  assert (gamelogs ≠ [] ∧ combined = concat gamelogs ∧ w' = v3)
    as (Hne & -> & ->).
  { destruct gamelogs; [done|]. by injection Hrun as <- <-. }
  split; [exact Hcc|]. split; [exact Hpp|].
  split; [exact Hne|]. split; [reflexivity|].
  destruct (concat_rows gamelogs) as [Hrows Hcols].
  split; [by rewrite Hrows|]. split; [exact Hrows|].
  intros g n Hg Hcol. by apply (Hcols n g).
Qed.
End get_player_data_edges.

(** ** The roster batch: messages and completion order *)

(** In submission order, the futures are the roster paired with the
    workers' outcomes. *)
Lemma as_completed_submitted (roster : list string)
    (os : list (exn + option DataFrame)) :
  length os = length roster →
  omap (λ i, p ← roster !! i; o ← os !! i; Some (p, o)) (seq 0 (length roster))
  = zip roster os.
Proof.
  revert os. induction roster as [|p roster IH] using rev_ind; intros os Hlen.
  { done. }
  rewrite length_app in Hlen. simpl in Hlen.
  destruct (decide (os = [])) as [->|Hos]; [simpl in Hlen; lia|].
  destruct (exists_last Hos) as (os' & o & ->).
  rewrite length_app in Hlen. simpl in Hlen.
  assert (length os' = length roster) as Hlen' by lia.
  rewrite length_app. simpl. rewrite Nat.add_1_r, seq_S, omap_app. simpl.
  rewrite zip_with_app by done. simpl. f_equal.
  - rewrite <- (IH os' Hlen'). apply list_omap_ext.
    apply Forall_Forall2_diag, Forall_forall. intros i Hi.
    apply elem_of_seq in Hi.
    rewrite !lookup_app_l by lia. done.
  - rewrite (list_lookup_middle roster [] p) by done. simpl.
    by rewrite (list_lookup_middle os' [] o).
Qed.

Lemma as_completed_Permutation roster run :
  valid_run roster run →
  as_completed roster run ≡ₚ zip roster (outcomes run).
Proof.
  intros [Hlen Hperm]. unfold as_completed. rewrite Hperm.
  by rewrite as_completed_submitted.
Qed.

Lemma as_completed_players roster run :
  valid_run roster run → (as_completed roster run).*1 ≡ₚ roster.
Proof.
  intros Hrun. rewrite (as_completed_Permutation roster run Hrun).
  destruct Hrun as [Hlen _]. rewrite fst_zip; [done | lia].
Qed.

(** The loop shows, in completion order, one message for each future that
    adds no entry. *)
Lemma collect_fold_messages completed : ∀ acc,
  (foldl collect acc completed).2 = acc.2 ++ omap notice completed.
Proof.
  induction completed as [|[p o] rest IH]; intros [m shown]; simpl.
  { by rewrite app_nil_r. }
  rewrite IH. unfold notice. simpl.
  destruct o as [e|[d|]]; simpl; [by rewrite <- app_assoc| |by rewrite <- app_assoc].
  destruct (empty d); simpl; [by rewrite <- app_assoc | done].
Qed.

(** An entry is added exactly for the futures without a message. *)
Lemma collect_fold_size completed : ∀ acc,
  NoDup completed.*1 → (∀ p, p ∈ completed.*1 → acc.1 !! p = None) →
  (size (foldl collect acc completed).1 + length (omap notice completed)
   = size acc.1 + length completed)%nat.
Proof.
  induction completed as [|[p o] rest IH]; intros [m shown] Hnd Hfresh.
  { simpl. lia. }
  rewrite fmap_cons in Hnd. apply NoDup_cons in Hnd as [Hp Hnd].
  assert (Hm : m !! p = None).
  { apply (Hfresh p). rewrite fmap_cons. apply list_elem_of_here. }
  assert (Hrest : ∀ q, q ∈ rest.*1 → m !! q = None).
  { intros q Hq. apply (Hfresh q). rewrite fmap_cons.
    by apply list_elem_of_further. }
  assert (Hcons : ∀ x, omap notice (x :: rest)
            = match notice x with
              | Some msg => msg :: omap notice rest
              | None => omap notice rest
              end) by done.
  rewrite Hcons. clear Hcons. unfold notice at 1.
  cbn [foldl collect fst snd length].
  destruct o as [e|[d|]].
  - pose proof (IH (m, shown ++ [ErrPlayerData p e]) Hnd Hrest) as Hs.
    cbn [fst length] in *. lia.
  - destruct (empty d); cbn [negb].
    + pose proof (IH (m, shown ++ [WarnNoData p]) Hnd Hrest) as Hs.
      cbn [fst length] in *. lia.
    + pose proof (IH (<[p := d]> m, shown) Hnd) as Hs. cbn [fst length] in *.
      rewrite map_size_insert_None in Hs by done. rewrite Hs; [lia|].
      intros q Hq. rewrite lookup_insert_ne; [by apply Hrest|].
      intros ->. done.
  - pose proof (IH (m, shown ++ [WarnNoData p]) Hnd Hrest) as Hs.
    cbn [fst length] in *. lia.
Qed.

(** With distinct players the mapping does not depend on the order in
    which the futures complete. *)
Lemma collect_fold_Permutation l l' :
  l ≡ₚ l' → ∀ acc, NoDup l.*1 →
  (foldl collect acc l).1 = (foldl collect acc l').1.
Proof.
  induction 1 as [|x l l' Hp IH|x y l|l l' l'' Hp IH Hp' IH'];
    intros acc Hnd.
  - done.
  - simpl. apply IH. rewrite fmap_cons in Hnd. by apply NoDup_cons in Hnd as [_ ?].
  - cbn [foldl]. rewrite !fmap_cons in Hnd.
    apply NoDup_cons in Hnd as [Hxy _].
    assert (x.1 ≠ y.1) as Hne.
    { intros Heq. apply Hxy. rewrite Heq. apply list_elem_of_here. }
    destruct acc as [m shown], x as [p o], y as [q o']. cbn [fst] in Hne.
    assert (∀ (a b : gmap string DataFrame * list message) k,
              a.1 = b.1 → (foldl collect a k).1 = (foldl collect b k).1) as Hext.
    { intros a b k. revert a b.
      induction k as [|[r u] k IHk]; intros [ma sa] [mb sb] Hab.
      - done.
      - cbn [fst] in Hab. subst mb. cbn [foldl]. apply IHk.
        destruct u as [e|[d|]]; cbn [collect fst]; try done.
        by destruct (empty d). }
    apply Hext. clear Hext Hxy.
    destruct o as [e|[d|]], o' as [e'|[d'|]]; cbn [collect fst];
      try destruct (empty d) eqn:Hd; try destruct (empty d') eqn:Hd';
      cbn [collect negb fst]; rewrite ?Hd, ?Hd'; cbn [negb fst]; try done.
    by apply insert_insert_ne.
  - rewrite IH by done. apply IH'. by rewrite <- Hp.
Qed.

Lemma collect_fold_value completed : ∀ acc p data,
  NoDup completed.*1 →
  (p, inr (Some data) : exn + option DataFrame) ∈ completed →
  empty data = false →
  (foldl collect acc completed).1 !! p = Some data.
Proof.
  induction completed as [|[q o] rest IH]; intros [m shown] p data Hnd Hin He.
  { by apply elem_of_nil in Hin. }
  rewrite fmap_cons in Hnd. apply NoDup_cons in Hnd as [Hq Hnd].
  apply elem_of_cons in Hin as [Heq|Hin].
  - injection Heq as <- <-. simpl. rewrite He. simpl.
    destruct (collect_fold_keeps rest (<[p := data]> m, shown) p) as [d Hd].
    { simpl. rewrite lookup_insert_eq. eauto. }
    rewrite Hd. f_equal.
    apply collect_fold_lookup in Hd as [Hd|[Hin _]].
    + simpl in Hd. rewrite lookup_insert_eq in Hd. congruence.
    + exfalso. apply Hq. simpl.
      apply list_elem_of_fmap. by exists (p, inr (Some d)).
  - simpl. by apply IH.
Qed.

(** Every future is accounted for: the messages are, in completion order,
    those of the futures that delivered no table (a warning for [None] or
    an empty table, an error for an exception), the same messages in any
    order of completion; and with distinct players the entries and the
    messages together are as many as the roster. *)
Theorem fetch_all_player_data_accounts roster run :
  valid_run roster run →
  let '(player_data, shown) := fetch_all_player_data roster run in
  shown = omap notice (as_completed roster run) ∧
  shown ≡ₚ omap notice (zip roster (outcomes run)) ∧
  (NoDup roster → (size player_data + length shown)%nat = length roster).
Proof.
  intros Hrun.
  destruct (fetch_all_player_data roster run) as [player_data shown] eqn:Hall.
  unfold fetch_all_player_data in Hall.
  assert (Hshown : shown = omap notice (as_completed roster run)).
  { pose proof (collect_fold_messages (as_completed roster run) (∅, [])) as Hm.
    rewrite Hall in Hm. done. }
  split; [done|]. split.
  - rewrite Hshown. by rewrite (as_completed_Permutation roster run Hrun).
  - intros Hnd.
    pose proof (collect_fold_size (as_completed roster run) (∅, [])) as Hs.
    rewrite Hall in Hs. simpl in Hs. rewrite Hshown, Hs.
    + rewrite map_size_empty. simpl.
      rewrite <- (length_fmap fst).
      by rewrite (as_completed_players roster run Hrun).
    + by rewrite (as_completed_players roster run Hrun).
    + intros p _. apply lookup_empty.
Qed.

(** With distinct players the mapping is the same whatever the order in
    which the futures complete, and each entry is the table that player's
    own future returned. *)
Theorem fetch_all_player_data_order roster run :
  NoDup roster → valid_run roster run →
  (∀ run', valid_run roster run' → outcomes run' = outcomes run →
     (fetch_all_player_data roster run').1
     = (fetch_all_player_data roster run).1) ∧
  (∀ i player data, roster !! i = Some player →
     outcomes run !! i = Some (inr (Some data)) → empty data = false →
     (fetch_all_player_data roster run).1 !! player = Some data).
Proof.
  intros Hnd Hrun.
  assert (Hnd' : ∀ r, valid_run roster r → NoDup (as_completed roster r).*1).
  { intros r Hr. by rewrite (as_completed_players roster r Hr). }
  split.
  - intros run' Hrun' Hout. unfold fetch_all_player_data.
    apply collect_fold_Permutation; [|by apply Hnd'].
    rewrite (as_completed_Permutation roster run' Hrun'), Hout.
    by rewrite (as_completed_Permutation roster run Hrun).
  - intros i player data Hp Ho He. unfold fetch_all_player_data.
    apply collect_fold_value; [by apply Hnd'| |done].
    apply elem_of_as_completed; eauto.
Qed.

(** ** [preprocess_game_log] on a table that lacks a field *)

Lemma steps_split pre f post :
  features ++ [target] = pre ++ f :: post →
  steps = (feature ← pre; window ← rolling_windows; [(feature, window)])
          ++ (f, 3%nat) :: (f, 5%nat) :: (f, 10%nat)
          :: (feature ← post; window ← rolling_windows; [(feature, window)]).
Proof.
  intros Hsplit. unfold steps. rewrite Hsplit.
  rewrite bind_app. f_equal.
Qed.

Lemma for_each_raises {S A} (l : list A) (body : A → M S unit) x rest e s s' :
  l = x :: rest → body x s = (inl e, s') → for_each l body s = (inl e, s').
Proof. intros -> Hx. simpl. unfold mbind, M_bind. by rewrite Hx. Qed.

(** The first field a table lacks, or holds as text, ends the call with
    an exception ([KeyError] for a missing column, [DataError] for a column
    without numbers) after the rolling columns of the fields before it have
    been written to the caller's table, which keeps them. *)
Theorem preprocess_game_log_stops_at_field r (h : gmap nat DataFrame) df
    pre f post :
  h !! r = Some df → empty df = false →
  features ++ [target] = pre ++ f :: post →
  Forall (λ g, is_Some (get_column g df ≫= as_numeric)) pre →
  get_column f df ≫= as_numeric = None →
  let written := feature ← pre; window ← rolling_windows; [(feature, window)] in
  ∃ a,
    preprocess_game_log (Some r) h
    = (inl (match get_column f df with
            | None => KeyError f
            | Some _ => DataError
            end), <[r := a]> h) ∧
    index a = index df ∧
    columns a = assoc_set_all (derived_columns written df) (columns df) ∧
    length (derived_columns written df) = (3 * length pre)%nat.
Proof.
  intros Hr Hne Hsplit Hpre Hf written.
  pose proof (steps_split pre f post Hsplit) as Hsteps. fold written in Hsteps.
  assert (Hsub : ∀ p, p ∈ written → p ∈ steps).
  { intros p Hp. rewrite Hsteps. apply elem_of_app. by left. }
  assert (Hpre' : ∀ p, p ∈ written → p.1 ∈ pre).
  { intros p Hp. unfold written in Hp.
    apply list_elem_of_bind in Hp as (g & Hp & Hg).
    apply list_elem_of_bind in Hp as (w & Hp & _).
    apply list_elem_of_singleton in Hp. by subst. }
  assert (Hfield : (f, 3%nat) ∈ steps).
  { rewrite Hsteps. apply elem_of_app. right. apply list_elem_of_here. }
  set (a := mkDF (index df)
                 (assoc_set_all (derived_columns written df) (columns df))).
  assert (Ha : augment_with written df = Some a).
  { apply augment_with_fold.
    - intros p Hp. rewrite Forall_forall in Hpre.
      destruct (Hpre p.1 (Hpre' p Hp)) as [values Hv].
      destruct (get_column p.1 df) as [col|]; [|done]. simpl in Hv.
      exists col, (of_number <$> roll_mean p.2 1 values). split; [done|].
      by apply rolling_mean_numeric.
    - intros p q Hp Hq. apply rolling_name_not_field; by apply Hsub. }
  assert (Hfa : get_column f a = get_column f df).
  { unfold get_column, a. cbn [columns]. apply assoc_set_all_other.
    rewrite derived_columns_names. intros Hin.
    apply list_elem_of_fmap in Hin as (p & Hp & Hin).
    by apply (rolling_name_not_field p (f, 3%nat) (Hsub p Hin) Hfield). }
  exists a. split; [|split; [done|split; [done|]]].
  - unfold preprocess_game_log.
    unfold mbind at 1, M_bind, deref. rewrite Hr, Hne.
    unfold mbind at 1, M_bind. rewrite for_each_steps, Hsteps, for_each_app.
    unfold mbind at 1, M_bind.
    rewrite (for_each_add_rolling r written h df a Hr Ha).
    erewrite for_each_raises; [reflexivity|reflexivity|].
    cbn [fst snd]. unfold add_rolling.
    unfold mbind at 1, M_bind, deref. rewrite lookup_insert_eq.
    unfold mbind at 1, M_bind, getitem. rewrite Hfa.
    destruct (get_column f df) as [col|]; [|done]. simpl in Hf.
    unfold mret, M_ret, rolling_mean. by rewrite Hf.
  - unfold derived_columns, written. rewrite length_fmap.
    clear. induction pre as [|g pre IH]; [done|].
    change ((g :: pre) ≫= ?k) with (k g ++ (pre ≫= k)).
    rewrite length_app, IH. simpl. lia.
Qed.

(** ** The table [preprocess_game_log] returns *)

Lemma dropna_no_missing df : complete (dropna df).
Proof.
  unfold complete, dropna. cbn [columns]. apply Forall_fmap, Forall_forall.
  intros [n col] Hin. cbn [prod_map snd]. simpl. apply Forall_forall.
  intros c Hc. apply list_elem_of_lookup_1 in Hc as [j Hj].
  apply keep_rows_from in Hj as (i & Hi & Hk & _).
  unfold row_complete in Hk. rewrite forallb_forall in Hk.
  apply list_elem_of_In in Hin. specialize (Hk _ Hin).
  unfold cell_ok in Hk. simpl in Hk. rewrite Hi in Hk.
  by apply negb_true_iff.
Qed.

Lemma keep_rows_sublist {A} keep (l : list A) : sublist (keep_rows keep l) l.
Proof.
  induction l as [|x l IH] using rev_ind; [done|].
  rewrite keep_rows_snoc. apply sublist_app; [done|].
  destruct (keep (length l)); [done | apply sublist_nil_l].
Qed.

Lemma keep_rows_ext {A} keep1 keep2 (l : list A) :
  (∀ i, keep1 i = keep2 i) → keep_rows keep1 l = keep_rows keep2 l.
Proof.
  intros Hext. unfold keep_rows. f_equal. apply list_filter_iff.
  intros [i x]. simpl. by rewrite Hext.
Qed.

(** With fresh names for the derived columns, a row of the written table
    is complete exactly when it was complete in the input. *)
Lemma row_complete_augment_iff df a i :
  numeric_fields df → augment df = Some a →
  (∀ n, n ∈ rolling_columns → n ∉ column_names df) →
  row_complete a i = row_complete df i.
Proof.
  intros Hnum Ha Hfresh.
  destruct (row_complete df i) eqn:Hrow.
  - by apply (row_complete_augment df a i).
  - pose proof (augment_appends df a Hnum Ha Hfresh) as Hcols.
    unfold row_complete in *. rewrite Hcols, forallb_app, Hrow. done.
Qed.

(** On a non-empty table with the seventeen numeric fields and none of
    the derived column names, the table the call returns has no missing
    cell, and its rows are exactly the rows of the input that had none, in
    the input's order: each such row is there under its own label and with
    its own cells, every row of the result is such a row, and the raw
    columns of the result are the input's columns restricted to these
    rows. *)
Theorem preprocess_game_log_output r (h : gmap nat DataFrame) df :
  h !! r = Some df → empty df = false → numeric_fields df →
  (∀ n, n ∈ rolling_columns → n ∉ column_names df) →
  ∃ r' h' out,
    preprocess_game_log (Some r) h = (inr (Some r'), h') ∧
    h' !! r' = Some out ∧
    complete out ∧
    index out = keep_rows (row_complete df) (index df) ∧
    (∀ n, n ∈ column_names df →
       get_column n out = keep_rows (row_complete df) <$> get_column n df) ∧
    (∀ i label, index df !! i = Some label → row_complete df i = true →
       let j := kept_before (row_complete df) i in
       index out !! j = Some label ∧
       ∀ n col c, get_column n df = Some col → col !! i = Some c →
         get_column n out ≫= (.!! j) = Some c) ∧
    (∀ j label, index out !! j = Some label →
       ∃ i, index df !! i = Some label ∧ row_complete df i = true ∧
            j = kept_before (row_complete df) i) ∧
    sublist (index out) (index df) ∧
    nrows out = kept_before (row_complete df) (nrows df).
Proof.
  intros Hr Hne Hnum Hfresh.
  destruct (preprocess_game_log_numeric r h df Hr Hne Hnum)
    as (r' & h' & a & Hrun & Ha & _ & _ & _ & Hout & _).
  destruct (augment_columns df a Hnum Ha) as [Hidx _].
  pose proof (λ i, row_complete_augment_iff df a i Hnum Ha Hfresh) as Hrow.
  assert (Hindex : index (dropna a) = keep_rows (row_complete df) (index df)).
  { unfold dropna. cbn [index]. rewrite Hidx. by apply keep_rows_ext. }
  assert (Hcolumn : ∀ n, n ∈ column_names df →
            get_column n (dropna a)
            = keep_rows (row_complete df) <$> get_column n df).
  { intros n Hn. rewrite get_column_dropna.
    rewrite (augment_other_column df a n Hnum Ha).
    - destruct (get_column n df) as [col|]; [|done]. simpl. f_equal.
      by apply keep_rows_ext.
    - intros Hin. by apply (Hfresh n). }
  exists r', h', (dropna a).
  split; [exact Hrun|]. split; [exact Hout|].
  split; [apply dropna_no_missing|]. split; [exact Hindex|].
  split; [exact Hcolumn|]. split; [|split; [|split]].
  - intros i label Hi Hc j. split.
    + rewrite Hindex. by apply keep_rows_lookup.
    + intros n col c Hcol Hci. rewrite Hcolumn, Hcol by (by eapply get_column_names).
      simpl. by apply keep_rows_lookup.
  - intros j label Hj. rewrite Hindex in Hj.
    apply keep_rows_from in Hj as (i & Hi & Hk & ->). eauto.
  - rewrite Hindex. apply keep_rows_sublist.
  - unfold nrows at 1. rewrite Hindex. apply length_keep_rows.
Qed.

(** ** The feature matrix [main] builds *)

Lemma rolling_columns_contain :
  Forall (λ n, contains "_rolling_" n = true) rolling_columns.
Proof. apply (bool_decide_unpack _). by vm_compute. Qed.

Lemma filter_all {A} (P : A → Prop) `{∀ x, Decision (P x)} (l : list A) :
  Forall P l → filter P l = l.
Proof.
  induction 1 as [|x l Hx _ IH]; [done|].
  by rewrite filter_cons_True, IH.
Qed.

Lemma filter_none {A} (P : A → Prop) `{∀ x, Decision (P x)} (l : list A) :
  Forall (λ x, ¬ P x) l → filter P l = [].
Proof.
  induction 1 as [|x l Hx _ IH]; [done|].
  by rewrite filter_cons_False, IH.
Qed.

(** When no column of the fetched table has [_rolling_] in its name, the
    feature matrix [X] holds exactly the 51 rolling columns, in the order
    they were written, with the rows of the returned table; it holds no raw
    column, the target [PTS] in particular, which is [y]. *)
Theorem model_inputs_rolling_columns r (h : gmap nat DataFrame) df :
  h !! r = Some df → empty df = false → numeric_fields df →
  Forall (λ n, contains "_rolling_" n = false) (column_names df) →
  ∃ r' h' out X y,
    preprocess_game_log (Some r) h = (inr (Some r'), h') ∧
    h' !! r' = Some out ∧
    model_inputs out = Some (X, y) ∧
    column_names X = rolling_columns ∧
    length (column_names X) = 51%nat ∧
    (∀ n, n ∈ column_names df → n ∉ column_names X) ∧
    index X = index out ∧
    (∀ n, n ∈ rolling_columns → get_column n X = get_column n out) ∧
    get_column target out = Some y.
Proof.
  intros Hr Hne Hnum Hraw.
  destruct (preprocess_game_log_numeric r h df Hr Hne Hnum)
    as (r' & h' & a & Hrun & Ha & _ & _ & _ & Hout & _).
  assert (Hfresh : ∀ n, n ∈ rolling_columns → n ∉ column_names df).
  { intros n Hn Hin. pose proof rolling_columns_contain as Hc.
    rewrite Forall_forall in Hc, Hraw.
    specialize (Hc n Hn). specialize (Hraw n Hin). congruence. }
  pose proof (augment_appends df a Hnum Ha Hfresh) as Hcols.
  assert (Hfeat : feature_columns (dropna a) = rolling_columns).
  { unfold feature_columns. rewrite column_names_dropna.
    unfold column_names. rewrite Hcols, fmap_app, filter_app.
    rewrite derived_columns_names. fold rolling_columns.
    rewrite filter_none, filter_all; [done| |].
    - apply rolling_columns_contain.
    - eapply Forall_impl; [exact Hraw|]. intros n Hn. simpl. congruence. }
  destruct (select_Some (feature_columns (dropna a)) (dropna a))
    as (X & HX & HXn & HXi & HXget).
  { intros n Hn. unfold feature_columns in Hn.
    by apply list_elem_of_filter in Hn as [_ Hn]. }
  destruct (Hnum target target_is_field) as (col & values & Hcol & _).
  assert (∃ y, get_column target (dropna a) = Some y) as [y Hy].
  { rewrite get_column_dropna.
    rewrite (augment_other_column df a target Hnum Ha target_not_rolling), Hcol.
    eauto. }
  exists r', h', (dropna a), X, y.
  split; [exact Hrun|]. split; [exact Hout|]. split.
  { unfold model_inputs. rewrite HX. simpl.
    change (get_column "PTS" (dropna a)) with (get_column target (dropna a)).
    by rewrite Hy. }
  rewrite HXn, Hfeat.
  split; [done|]. split; [by vm_compute|]. split.
  { intros n Hin Hn. by apply (Hfresh n). }
  split; [done|]. split; [|done].
  intros n Hn. apply HXget. by rewrite Hfeat.
Qed.

(** ** When [train_models] has no best model *)

Lemma py_gt_NegInf_false s : py_gt s NegInf = false ↔ s = NaN ∨ s = NegInf.
Proof. destruct s; simpl; split; intros; try done; try tauto; by destruct H. Qed.

Section best_facts.
Context {F : Type}.
Implicit Types (acc : selection F) (l : list (string * model_result F)).

Lemma select_fold_Some l : ∀ acc,
  is_Some (best_model acc) → is_Some (best_model (foldl select_one acc l)).
Proof.
  induction l as [|c rest IH]; intros acc Hs; [done|].
  cbn [foldl]. apply IH. unfold select_one.
  destruct (py_gt _ _); cbn [best_model]; eauto.
Qed.

Lemma select_fold_None l : ∀ acc,
  best_model (foldl select_one acc l) = None ↔
  best_model acc = None ∧
  Forall (λ c, py_gt (result_score c.2) (best_score acc) = false) l.
Proof.
  induction l as [|c rest IH]; intros acc.
  { simpl. split; [by intros ?|by intros [? _]]. }
  cbn [foldl]. rewrite IH. unfold select_one.
  destruct (py_gt (result_score c.2) (best_score acc)) eqn:Hgt;
    cbn [best_model best_score].
  - split; [by intros [? _]|]. intros [_ Hall].
    apply Forall_inv in Hall. congruence.
  - split.
    + intros [? ?]. split; [done|]. by apply Forall_cons.
    + intros [? Hall]. split; [done|]. by apply Forall_inv_tail in Hall.
Qed.

Lemma select_fold_from l : ∀ acc m,
  best_model (foldl select_one acc l) = Some m →
  best_model acc = Some m ∨
  ∃ c, c ∈ l ∧ m = result_model c.2 ∧ comparable (result_score c.2).
Proof.
  induction l as [|c rest IH]; intros acc m Hm; [by left|].
  cbn [foldl] in Hm. apply IH in Hm as [Hm|(c' & Hin & ? & ?)].
  - unfold select_one in Hm.
    destruct (py_gt (result_score c.2) (best_score acc)) eqn:Hgt;
      cbn [best_model] in Hm; [|by left].
    right. exists c. split; [apply list_elem_of_here|].
    split; [congruence|]. by eapply py_gt_true_comparable.
  - right. exists c'. split; [by apply list_elem_of_further | done].
Qed.

(** Python's [max]: the item returned is in the list, and no later item
    compares greater than it. *)
Lemma max_from_position {A} (key : A → pyfloat) (rest : list A) :
  ∀ current, ∃ i,
    (current :: rest) !! i = Some (max_from key current rest) ∧
    ∀ j x, (i < j)%nat → (current :: rest) !! j = Some x →
      py_gt (key x) (key (max_from key current rest)) = false.
Proof.
  induction rest as [|x rest IH]; intros current.
  { exists 0%nat. split; [done|]. intros [|j] y Hlt Hj; [lia | done]. }
  cbn [max_from].
  destruct (IH (if py_gt (key x) (key current) then x else current))
    as (i & Hi & Hlater).
  destruct (py_gt (key x) (key current)) eqn:Hgt.
  - exists (S i). split; [done|].
    intros [|j] y Hlt Hj; [lia|]. apply (Hlater j y); [lia | done].
  - destruct i as [|i].
    + injection Hi as Hi. exists 0%nat. split; [by rewrite <- Hi|].
      intros [|[|j]] y Hlt Hj; [lia| |].
      * injection Hj as <-. by rewrite <- Hi.
      * apply (Hlater (S j) y); [lia | done].
    + exists (S (S i)). split; [done|].
      intros [|[|j]] y Hlt Hj; [lia|lia|].
      apply (Hlater (S j) y); [lia | done].
Qed.
End best_facts.

Section best_model_facts.
Context `{Sklearn}.

(** [train_models] returns no model as best exactly when no candidate's
    score compares greater than [-inf], that is when every score is [nan]
    or [-inf]; a model it does return is the model of an entry of the
    results whose score is a number above [-inf]. *)
Theorem train_models_best_none X y calls best res calls' :
  train_models X y calls = (inr (best, res), calls') →
  (best = None ↔ Forall (λ s, s = NaN ∨ s = NegInf) (scores_of res)) ∧
  (∀ m, best = Some m →
     ∃ c, c ∈ res ∧ m = result_model c.2 ∧ comparable (result_score c.2)).
Proof.
  intros (parts & _ & -> & -> & _)%train_models_inv. split.
  - rewrite select_fold_None. cbn [best_model best_score].
    unfold scores_of. rewrite Forall_fmap. split.
    + intros [_ Hall]. eapply Forall_impl; [exact Hall|].
      intros c Hc. by apply py_gt_NegInf_false.
    + intros Hall. split; [done|]. eapply Forall_impl; [exact Hall|].
      intros c Hc. by apply py_gt_NegInf_false.
  - intros m Hm. by apply select_fold_from in Hm as [Hm|Hm].
Qed.

(** The lookup [main] makes for the chart never fails on the results of
    [train_models]: Python's [max] has a non-empty dict to search, the
    key it yields is a key of the dict, and the entry found is the one
    [max] chose, an entry no later entry's score compares greater
    than. *)
Theorem best_result_defined X y calls best res calls' :
  train_models X y calls = (inr (best, res), calls') →
  ∃ i item,
    res !! i = Some item ∧ best_result res = Some item.2 ∧
    ∀ j c, (i < j)%nat → res !! j = Some c →
      py_gt (result_score c.2) (result_score item.2) = false.
Proof.
  intros (parts & _ & -> & _ & _)%train_models_inv.
  pose proof (entries_names parts) as Hnames.
  pose proof models_NoDup as Hnd. rewrite <- Hnames in Hnd.
  destruct (entries parts) as [|first rest] eqn:He; [done|].
  set (key := λ x : string * model_result fitted, result_score x.2).
  destruct (max_from_position key rest first) as (i & Hi & Hlater).
  exists i, (max_from key first rest). split; [done|]. split.
  - unfold best_result. cbn [py_max mbind option_bind]. fold key.
    apply assoc_get_NoDup; [done|].
    destruct (max_from key first rest) as [n r] eqn:Hmax. simpl.
    rewrite <- Hmax. apply max_from_elem.
  - intros j c Hlt Hj. by apply (Hlater j c).
Qed.
End best_model_facts.

(** ** The two versions of the impact metrics *)

(** When the attempts and the minutes both sum to a non-zero number the
    unguarded ratios of [streamlit_app.py] and the guarded ratios of
    [1streamlit_app.py] are the same metrics. *)
Theorem impact_metrics_agree df :
  column_sum "FGA" df ≠ Some 0 → column_sum "MIN" df ≠ Some 0 →
  App.impact_metrics df = App1.impact_metrics df.
Proof.
  intros Hfga Hmin. unfold App.impact_metrics, App1.impact_metrics.
  destruct (column_mean "MIN" df) as [usage|]; [|done]. simpl.
  destruct (column_sum "FGM" df) as [fgm|]; [|done]. simpl.
  destruct (column_sum "FGA" df) as [fga|]; [|done]. simpl.
  destruct (column_mean "STL" df) as [stl|]; [|done]. simpl.
  destruct (column_mean "BLK" df) as [blk|]; [|done]. simpl.
  destruct (column_sum "PTS" df) as [pts|]; [|done]. simpl.
  destruct (column_sum "MIN" df) as [minutes|]; [|done]. simpl.
  assert (fga ≠ 0) by congruence. assert (minutes ≠ 0) by congruence.
  rewrite !bool_decide_eq_true_2; [done| |]; congruence.
Qed.

(** ** The team statistics *)




(** ** Rosters *)

Section roster_facts.
Context `{TeamsApi}.

Ltac run := unfold mbind, M_bind, mret, M_ret, modify, get, raise,
            st_error, send_roster_request, roster_cache_store;
            simpl.

(** [get_team_roster] never raises.  A live entry answers without a
    request.  Otherwise: a lookup that raises and an unknown team end in
    the empty roster and one error message, with no request sent; for a
    known team exactly one request is sent, for that team's id, and a
    request that raises and a frame without the [PLAYER] column end in
    the empty roster and one error message, while a frame with the column
    gives its cells and no message.  The answer, an empty roster after a
    failure too, is stored: a second call for the team, while the entry
    is live, returns it without a request. *)
Theorem get_team_roster_total team_abbreviation w :
  ∃ player_names w1 w2,
    get_team_roster team_abbreviation w = (inr player_names, w1) ∧
    get_team_roster team_abbreviation w1 = (inr player_names, w2) ∧
    roster_requests w2 = roster_requests w1 ∧
    match roster_cache w !! team_abbreviation with
    | Some cached =>
        player_names = cached ∧ roster_requests w1 = roster_requests w
    | None =>
        roster_cache w1
        = <[team_abbreviation := player_names]> (roster_cache w) ∧
        match get_team_by_abbreviation team_abbreviation with
        | inl e =>
            player_names = [] ∧
            roster_requests w1 = roster_requests w ∧
            roster_messages w1
            = roster_messages w ++ [ErrRoster team_abbreviation e]
        | inr None =>
            player_names = [] ∧
            roster_requests w1 = roster_requests w ∧
            roster_messages w1
            = roster_messages w ++ [ErrTeamNotFound team_abbreviation]
        | inr (Some team_info) =>
            roster_requests w1 = roster_requests w ++ [team_id team_info] ∧
            match CommonTeamRoster (roster_requests w) (team_id team_info) with
            | inl e =>
                player_names = [] ∧
                roster_messages w1
                = roster_messages w ++ [ErrRoster team_abbreviation e]
            | inr roster =>
                match get_column "PLAYER" roster with
                | Some names =>
                    player_names = names ∧
                    roster_messages w1 = roster_messages w
                | None =>
                    player_names = [] ∧
                    roster_messages w1
                    = roster_messages w
                      ++ [ErrRoster team_abbreviation (KeyError "PLAYER")]
                end
            end
        end
    end.
Proof.
  unfold get_team_roster at 1. run.
  destruct (roster_cache w !! team_abbreviation) as [cached|] eqn:Hc.
  - exists cached, w, w. unfold get_team_roster. run. by rewrite Hc.
  - assert (Hagain : ∀ names w1,
              roster_cache w1 !! team_abbreviation = Some names →
              get_team_roster team_abbreviation w1 = (inr names, w1)).
    { intros names w1 H1. unfold get_team_roster. run. by rewrite H1. }
    unfold get_team_roster_uncached, try_except.
    destruct (get_team_by_abbreviation team_abbreviation)
      as [e|[team_info|]]; run.
    + eexists [], _, _. split; [reflexivity|]. split.
      { apply Hagain. simpl. apply lookup_insert_eq. }
      done.
    + destruct (CommonTeamRoster (roster_requests w) (team_id team_info))
        as [e|roster]; run.
      * eexists [], _, _. split; [reflexivity|]. split.
        { apply Hagain. simpl. apply lookup_insert_eq. }
        done.
      * destruct (get_column "PLAYER" roster) as [names|]; run.
        -- eexists names, _, _. split; [reflexivity|]. split.
           { apply Hagain. simpl. apply lookup_insert_eq. }
           done.
        -- eexists [], _, _. split; [reflexivity|]. split.
           { apply Hagain. simpl. apply lookup_insert_eq. }
           done.
    + eexists [], _, _. split; [reflexivity|]. split.
      { apply Hagain. simpl. apply lookup_insert_eq. }
      done.
Qed.

(** The handler is the only difference between the two versions: where
    the call of [1streamlit_app.py] returns, the call of
    [streamlit_app.py] returns the same roster and leaves the same world;
    where the former raises, the latter returns the empty roster, reports
    the exception and remembers the empty roster. *)
Theorem get_team_roster_versions team_abbreviation w :
  match App1.get_team_roster team_abbreviation w with
  | (inr names, w') =>
      get_team_roster team_abbreviation w = (inr names, w')
  | (inl e, w') =>
      get_team_roster team_abbreviation w
      = (inr [],
         mkRosterWorld (roster_requests w')
           (roster_messages w' ++ [ErrRoster team_abbreviation e])
           (<[team_abbreviation := []]> (roster_cache w')))
  end.
Proof.
  unfold App1.get_team_roster, get_team_roster. run.
  destruct (roster_cache w !! team_abbreviation) as [cached|] eqn:Hc;
    [done|].
  unfold App1.get_team_roster_uncached, get_team_roster_uncached,
    try_except, App1.get_team_by_abbreviation, get_team_by_abbreviation.
  destruct (find_team_by_abbreviation team_abbreviation)
    as [e|[team_info|]]; run; [done| |done].
  destruct (CommonTeamRoster (roster_requests w) (team_id team_info))
    as [e|roster]; run; [done|].
  by destruct (get_column "PLAYER" roster) as [names|]; run.
Qed.
End roster_facts.

(** ** The two versions of the fetch *)

Section fetch_versions.
Context `{NbaApi}.

Ltac run := unfold mbind, M_bind, mret, M_ret, modify, get, raise,
            st_report, send_request, note_attempt, cache_store, sleep,
            App1.st_report, App1.send_request, App1.cache_store;
            simpl.

Lemma fetch_player_gamelog_versions player_id season w w1 :
  requests w = App1.requests w1 →
  gamelog_cache w = App1.gamelog_cache w1 →
  ∃ gamelog w' w1',
    fetch_player_gamelog player_id season w = (inr gamelog, w') ∧
    App1.fetch_player_gamelog player_id season w1 = (inr gamelog, w1') ∧
    requests w' = App1.requests w1' ∧
    gamelog_cache w' = App1.gamelog_cache w1'.
Proof.
  intros Hreq Hca.
  unfold fetch_player_gamelog, App1.fetch_player_gamelog. run.
  rewrite <- Hca.
  destruct (gamelog_cache w !! (player_id, season)) as [cached|] eqn:Hc.
  - eexists _, _, _. split; [reflexivity|]. split; [reflexivity|]. done.
  - unfold fetch_player_gamelog_uncached, App1.fetch_player_gamelog_uncached,
      try_except. run. rewrite <- Hreq.
    destruct (PlayerGameLog (requests w) player_id season) as [e|table]; run;
      eexists _, _, _; (split; [reflexivity|]); (split; [reflexivity|]);
      simpl; by rewrite Hreq, Hca.
Qed.

(** With at least one attempt allowed, [get_player_data] of
    [streamlit_app.py] computes what the loop-free [get_player_data] of
    [1streamlit_app.py] computes from the same requests and cache: the
    same result, the same requests sent, the same cache left.  They part
    only when the catalogue lookup raises, which the former turns into
    [None] and the latter lets through. *)
Theorem get_player_data_versions player_name max_retries w w1 :
  (1 ≤ max_retries)%Z →
  requests w = App1.requests w1 →
  gamelog_cache w = App1.gamelog_cache w1 →
  ∃ result w',
    get_player_data player_name max_retries w = (inr result, w') ∧
    match find_players_by_full_name player_name with
    | inl e =>
        result = None ∧
        App1.get_player_data player_name w1 = (inl e, w1)
    | inr _ =>
        ∃ w1',
          App1.get_player_data player_name w1 = (inr result, w1') ∧
          requests w' = App1.requests w1' ∧
          gamelog_cache w' = App1.gamelog_cache w1'
    end.
Proof.
  intros Hn Hreq Hca.
  destruct (get_player_id_returns player_name w)
    as (player_id & v1 & Hid & Hreq1 & _ & _ & Hca1).
  destruct (not_id player_id) eqn:Hnot.
  { exists None, v1. split.
    { unfold get_player_data. unfold mbind at 1, M_bind.
      by rewrite Hid, Hnot. }
    unfold App1.get_player_data, App1.get_player_id.
    unfold get_player_id, try_except in Hid.
    destruct (find_players_by_full_name player_name) as [e|[|first rest]];
      run; revert Hid; run.
    - done.
    - intros [= <- <-]. eexists. split; [reflexivity|]. done.
    - intros [= <- <-]. simpl in Hnot. rewrite Hnot.
      eexists. split; [reflexivity|]. done. }
  assert (∃ first rest, find_players_by_full_name player_name
                        = inr (first :: rest) ∧
                        player_id = Some (ident first) ∧ v1 = w)
    as (first & rest & Hfind & -> & ->).
  { unfold get_player_id, try_except in Hid.
    destruct (find_players_by_full_name player_name) as [e|[|first rest]];
      revert Hid; run; intros [= <- <-]; try done. eauto. }
  cbn [default] in *.
  destruct (fetch_player_gamelog_versions (ident first) SEASON_CURRENT w w1
              Hreq Hca) as (current & w2 & u2 & Hc & Hc1 & Hreq2 & Hca2).
  destruct (fetch_player_gamelog_versions (ident first) SEASON_PREVIOUS w2 u2
              Hreq2 Hca2) as (previous & w3 & u3 & Hp & Hp1 & Hreq3 & Hca3).
  eexists _, w3. split.
  { apply (get_player_data_run player_name max_retries w (Some (ident first))
             w current w2 previous w3); done. }
  rewrite Hfind. exists u3. split; [|done].
  unfold App1.get_player_data, App1.get_player_id. rewrite Hfind.
  unfold mbind at 1, M_bind, mret at 1, M_ret. rewrite Hnot.
  cbn [default App1.season_loop]. unfold mbind, M_bind, id.
  rewrite Hc1. cbn beta iota. rewrite Hp1. cbn beta iota.
  unfold mret, M_ret. by destruct current, previous.
Qed.
End fetch_versions.

(** ** The two versions of [preprocess_game_log] *)

Lemma sibling_steps : App1.steps = steps.
Proof. reflexivity. Qed.

Lemma roll_columns_NoDup : NoDup App1.roll_columns.
Proof. apply (bool_decide_unpack _). by vm_compute. Qed.

Lemma roll_columns_not_fields :
  Forall (λ n, n ∉ features ++ [target]) App1.roll_columns.
Proof. apply (bool_decide_unpack _). by vm_compute. Qed.

Lemma roll_name_not_field p q :
  p ∈ steps → q ∈ steps → App1.roll_name p.1 p.2 ≠ q.1.
Proof.
  intros Hp Hq Heq.
  pose proof roll_columns_not_fields as HF.
  rewrite Forall_forall in HF. apply (HF (App1.roll_name p.1 p.2)).
  - apply list_elem_of_fmap. by exists p.
  - rewrite Heq. destruct q as [f w]. by apply elem_of_steps in Hq as [? ?].
Qed.

Lemma sibling_derived_names todo df :
  (App1.derived_columns todo df).*1
  = (λ p : string * nat, App1.roll_name p.1 p.2) <$> todo.
Proof. unfold App1.derived_columns. by rewrite <- list_fmap_compose. Qed.

(** The columns written are the same under either name. *)
Lemma sibling_derived_cells todo df :
  (App1.derived_columns todo df).*2 = (derived_columns todo df).*2.
Proof.
  unfold App1.derived_columns, derived_columns.
  by rewrite <- !list_fmap_compose.
Qed.

Lemma sibling_augment_with_fold todo : ∀ df,
  (∀ p, p ∈ todo → ∃ col rolled,
      get_column p.1 df = Some col ∧ rolling_mean p.2 col = Some rolled) →
  (∀ p q, p ∈ todo → q ∈ todo → App1.roll_name p.1 p.2 ≠ q.1) →
  App1.augment_with todo df
  = Some (mkDF (index df)
               (assoc_set_all (App1.derived_columns todo df) (columns df))).
Proof.
  induction todo as [|[f w] rest IH]; intros df Hcols Hnames.
  { by destruct df. }
  destruct (Hcols (f, w)) as (col & rolled & Hcol & Hroll);
    [apply list_elem_of_here|].
  simpl in Hcol, Hroll. cbn [App1.augment_with]. unfold App1.add_rolling_df.
  rewrite Hcol. simpl. rewrite Hroll. simpl.
  assert (Hsame : ∀ q, q ∈ rest →
            get_column q.1 (set_column (App1.roll_name f w) rolled df)
            = get_column q.1 df).
  { intros q Hq. apply get_column_set_column_ne.
    apply (Hnames (f, w) q);
      [apply list_elem_of_here | by apply list_elem_of_further]. }
  rewrite IH.
  - f_equal. simpl. f_equal. unfold assoc_set_all. simpl.
    rewrite Hcol. simpl. rewrite Hroll. simpl. f_equal.
    unfold App1.derived_columns. apply list_fmap_ext.
    intros i q Hq. rewrite Hsame; [done|]. by eapply list_elem_of_lookup_2.
  - intros q Hq. rewrite Hsame by done. apply Hcols.
    by apply list_elem_of_further.
  - intros p q Hp Hq. apply Hnames; by apply list_elem_of_further.
Qed.

Lemma sibling_add_rolling_run r f w (h : gmap nat DataFrame) df df' :
  h !! r = Some df → App1.add_rolling_df f w df = Some df' →
  App1.add_rolling r f w h = (inr tt, <[r := df']> h).
Proof.
  intros Hr Hadd. unfold App1.add_rolling, App1.add_rolling_df in *.
  unfold mbind at 1, M_bind, deref. rewrite Hr.
  unfold mbind at 1, M_bind, getitem.
  destruct (get_column f df) as [col|]; [|done]. simpl in *.
  destruct (rolling_mean w col) as [rolled|]; [|done]. simpl in *.
  injection Hadd as <-. done.
Qed.

Lemma sibling_for_each_add_rolling r todo : ∀ (h : gmap nat DataFrame) df a,
  h !! r = Some df → App1.augment_with todo df = Some a →
  for_each todo (λ p, App1.add_rolling r p.1 p.2) h = (inr tt, <[r := a]> h).
Proof.
  induction todo as [|[f w] rest IH]; intros h df a Hr Haug.
  - injection Haug as <-. simpl. by rewrite insert_id.
  - cbn [App1.augment_with] in Haug.
    destruct (App1.add_rolling_df f w df) as [df'|] eqn:Hadd; [|done].
    simpl in Haug. cbn [for_each]. unfold mbind, M_bind. simpl.
    rewrite (sibling_add_rolling_run r f w h df df' Hr Hadd).
    rewrite (IH (<[r := df']> h) df' a); [|by rewrite lookup_insert_eq|done].
    by rewrite insert_insert_eq.
Qed.

Lemma sibling_for_each_steps r h :
  for_each (App1.features ++ [App1.target]) (λ col,
    for_each App1.windows (λ w, App1.add_rolling r col w)) h
  = for_each App1.steps (λ p, App1.add_rolling r p.1 p.2) h.
Proof.
  unfold App1.steps. rewrite for_each_bind. apply for_each_ext.
  intros f s. rewrite for_each_bind. apply for_each_ext.
  intros w s'. by rewrite for_each_singleton.
Qed.

Lemma sibling_preprocess_run r (h : gmap nat DataFrame) df a :
  h !! r = Some df → empty df = false →
  App1.augment_with App1.steps df = Some a →
  App1.preprocess_game_log (Some r) h
  = (inr (Some (fresh (dom h))),
     <[fresh (dom h) := dropna a]> (<[r := a]> h)).
Proof.
  intros Hr Hne Haug. unfold App1.preprocess_game_log.
  unfold mbind at 1, M_bind, deref. rewrite Hr, Hne.
  unfold mbind at 1, M_bind. rewrite sibling_for_each_steps.
  rewrite (sibling_for_each_add_rolling r App1.steps h df a Hr Haug).
  unfold mbind at 1, M_bind. rewrite lookup_insert_eq.
  unfold mbind, M_bind, alloc, mret, M_ret.
  assert (dom (<[r := a]> h) = dom h) as ->; [|done].
  apply dom_insert_lookup_L. eauto.
Qed.

Lemma sibling_augment_numeric df :
  numeric_fields df →
  App1.augment_with App1.steps df
  = Some (mkDF (index df)
               (assoc_set_all (App1.derived_columns steps df) (columns df))).
Proof.
  intros Hnum. rewrite sibling_steps. apply sibling_augment_with_fold.
  - intros [f w] [Hf Hw]%elem_of_steps.
    destruct (Hnum f Hf) as (col & values & Hcol & Hval).
    exists col, (of_number <$> roll_mean w 1 values). split; [done|].
    by apply rolling_mean_numeric.
  - apply roll_name_not_field.
Qed.

(** Which rows [dropna] keeps depends on the cells only. *)
Lemma row_complete_cells df df' :
  (columns df').*2 = (columns df).*2 → ∀ i, row_complete df' i = row_complete df i.
Proof.
  intros Hcells i. unfold row_complete.
  assert (∀ l : list (string * list cell),
            forallb (cell_ok i) l
            = forallb (λ col : list cell,
                         match col !! i with
                         | Some c => negb (cell_missing c)
                         | None => true
                         end) l.*2) as Hsnd.
  { induction l as [|[n c] l IH]; [done|]. simpl. by rewrite IH. }
  by rewrite !Hsnd, Hcells.
Qed.

Lemma dropna_cells df df' :
  index df' = index df → (columns df').*2 = (columns df).*2 →
  index (dropna df') = index (dropna df) ∧
  (columns (dropna df')).*2 = (columns (dropna df)).*2 ∧
  column_names (dropna df') = column_names df'.
Proof.
  intros Hidx Hcells.
  pose proof (row_complete_cells df df' Hcells) as Hrow.
  assert (Hkeep : ∀ {A} (l : list A),
            keep_rows (row_complete df') l = keep_rows (row_complete df) l).
  { intros A l. unfold keep_rows. f_equal. apply list_filter_iff.
    intros [i x]. simpl. by rewrite Hrow. }
  split; [|split].
  - unfold dropna. cbn [index]. by rewrite Hkeep, Hidx.
  - unfold dropna. cbn [columns]. rewrite <- !list_fmap_compose.
    transitivity (keep_rows (row_complete df) <$> (columns df').*2).
    + rewrite <- list_fmap_compose. apply list_fmap_ext.
      intros i [n c] _. simpl. apply Hkeep.
    + rewrite Hcells, <- list_fmap_compose. by apply list_fmap_ext.
  - apply column_names_dropna.
Qed.

(** On a non-empty table with the seventeen numeric fields and none of
    the derived names of either version, the two versions of
    [preprocess_game_log] return the same table up to the names of the 51
    derived columns: the same row labels and, column by column, the same
    cells, under [f_rolling_w] in one and [f_roll_w] in the other.  Both
    write to the table they are given. *)
Theorem preprocess_game_log_versions r (h : gmap nat DataFrame) df :
  h !! r = Some df → empty df = false → numeric_fields df →
  (∀ n, n ∈ rolling_columns → n ∉ column_names df) →
  (∀ n, n ∈ App1.roll_columns → n ∉ column_names df) →
  ∃ r' h' out h1' out1,
    preprocess_game_log (Some r) h = (inr (Some r'), h') ∧
    App1.preprocess_game_log (Some r) h = (inr (Some r'), h1') ∧
    h' !! r' = Some out ∧ h1' !! r' = Some out1 ∧
    index out1 = index out ∧
    (columns out1).*2 = (columns out).*2 ∧
    column_names out = column_names df ++ rolling_columns ∧
    column_names out1 = column_names df ++ App1.roll_columns ∧
    h' !! r ≠ Some df ∧ h1' !! r ≠ Some df.
Proof.
  intros Hr Hne Hnum Hfresh Hfresh1.
  destruct (augment_exists df Hnum) as [a Ha].
  pose proof (augment_appends df a Hnum Ha Hfresh) as Hcols.
  destruct (augment_columns df a Hnum Ha) as [Hidx _].
  pose proof (sibling_augment_numeric df Hnum) as Ha1.
  set (a1 := mkDF (index df)
               (assoc_set_all (App1.derived_columns steps df) (columns df)))
    in Ha1.
  assert (Hcols1 : columns a1 = columns df ++ App1.derived_columns steps df).
  { unfold a1. cbn [columns]. apply assoc_set_all_fresh.
    - rewrite sibling_derived_names. apply roll_columns_NoDup.
    - intros k Hk. apply Hfresh1. by rewrite sibling_derived_names in Hk. }
  assert (Hcells : (columns a1).*2 = (columns a).*2).
  { by rewrite Hcols, Hcols1, !fmap_app, sibling_derived_cells. }
  assert (Hidx1 : index a1 = index a) by (by rewrite Hidx).
  destruct (dropna_cells a a1 Hidx1 Hcells) as (Hdi & Hdc & Hdn).
  assert (Hfr : fresh (dom h) ≠ r).
  { intros Heq. pose proof (is_fresh (dom h)) as Hnot. rewrite Heq in Hnot.
    apply Hnot, elem_of_dom. eauto. }
  exists (fresh (dom h)), (<[fresh (dom h) := dropna a]> (<[r := a]> h)),
    (dropna a), (<[fresh (dom h) := dropna a1]> (<[r := a1]> h)), (dropna a1).
  split; [by apply (preprocess_game_log_run r h df a)|].
  split; [by apply (sibling_preprocess_run r h df a1)|].
  split; [by rewrite lookup_insert_eq|].
  split; [by rewrite lookup_insert_eq|].
  split; [done|]. split; [done|]. split; [|split; [|split]].
  - rewrite column_names_dropna. unfold column_names.
    by rewrite Hcols, fmap_app, derived_columns_names.
  - rewrite Hdn. unfold column_names.
    by rewrite Hcols1, fmap_app, sibling_derived_names.
  - rewrite lookup_insert_ne by done. rewrite lookup_insert_eq.
    intros [= Heq]. apply (f_equal (λ d, length (columns d))) in Heq.
    rewrite Hcols, length_app, length_derived_columns in Heq. lia.
  - rewrite lookup_insert_ne by done. rewrite lookup_insert_eq.
    intros [= Heq]. apply (f_equal (λ d, length (columns d))) in Heq.
    rewrite Hcols1, length_app in Heq. unfold App1.derived_columns in Heq.
    rewrite length_fmap in Heq.
    assert (length steps = 51%nat) as Hlen by reflexivity.
    rewrite Hlen in Heq. lia.
Qed.

Lemma roll_columns_fresh_two_games :
  ∀ n, n ∈ App1.roll_columns → n ∉ column_names two_games.
Proof. apply Forall_forall. compute_true. Qed.

Lemma preprocess_game_log_versions_witness :
  let h : gmap nat DataFrame := {[0%nat := two_games]} in
  (h !! 0%nat = Some two_games ∧ empty two_games = false ∧
   numeric_fields two_games ∧
   (∀ n, n ∈ rolling_columns → n ∉ column_names two_games) ∧
   (∀ n, n ∈ App1.roll_columns → n ∉ column_names two_games)) ∧
  ∃ r' h' out h1' out1,
    preprocess_game_log (Some 0%nat) h = (inr (Some r'), h') ∧
    App1.preprocess_game_log (Some 0%nat) h = (inr (Some r'), h1') ∧
    h' !! r' = Some out ∧ h1' !! r' = Some out1 ∧
    index out1 = index out ∧
    (columns out1).*2 = (columns out).*2 ∧
    column_names out = column_names two_games ++ rolling_columns ∧
    column_names out1 = column_names two_games ++ App1.roll_columns ∧
    h' !! 0%nat ≠ Some two_games ∧ h1' !! 0%nat ≠ Some two_games.
Proof.
  intros h.
  assert (H1 : h !! 0%nat = Some two_games) by apply lookup_singleton_eq.
  assert (H2 : empty two_games = false) by reflexivity.
  split; [by repeat split; try exact numeric_fields_two_games;
             try exact rolling_columns_fresh_two_games;
             try exact roll_columns_fresh_two_games|].
  exact (preprocess_game_log_versions 0 h two_games H1 H2
           numeric_fields_two_games rolling_columns_fresh_two_games
           roll_columns_fresh_two_games).
Defined.

(** ** Seasons with different columns *)

(** A row with a missing cell in some column is not complete. *)
Lemma row_complete_missing df n col i :
  get_column n df = Some col → col !! i = Some CNaN →
  row_complete df i = false.
Proof.
  intros Hcol Hi. apply not_true_iff_false. intros Hrow.
  unfold row_complete in Hrow. rewrite forallb_forall in Hrow.
  specialize (Hrow (n, col)). unfold cell_ok in Hrow. simpl in Hrow.
  rewrite Hi in Hrow. simpl in Hrow.
  assert (false = true) as Hf; [|done].
  apply Hrow, list_elem_of_In. by apply assoc_get_elem.
Qed.

(** When the table of the previous season lacks a column the current
    season's table has, the combined table holds [NaN] in that column for
    every row of the previous season, and [preprocess_game_log] drops them
    all: the table it returns has rows of the current season only. *)
Theorem preprocess_drops_season_without_column r (h : gmap nat DataFrame)
    current previous n col :
  let combined := concat [current; previous] in
  h !! r = Some combined → empty combined = false →
  numeric_fields combined →
  (∀ name, name ∈ rolling_columns → name ∉ column_names combined) →
  get_column n current = Some col → length col = nrows current →
  get_column n previous = None →
  ∃ r' h' out,
    preprocess_game_log (Some r) h = (inr (Some r'), h') ∧
    h' !! r' = Some out ∧
    get_column n combined = Some (col ++ replicate (nrows previous) CNaN) ∧
    Forall (λ label, (0 ≤ label < Z.of_nat (nrows current))%Z) (index out).
Proof.
  intros combined Hr Hne Hnum Hfresh Hcol Hlen Hprev.
  destruct (preprocess_game_log_numeric r h combined Hr Hne Hnum)
    as (r' & h' & a & Hrun & Ha & _ & _ & _ & Hout & _).
  pose proof (augment_appends combined a Hnum Ha Hfresh) as Hcols.
  destruct (augment_columns combined a Hnum Ha) as [Hidx _].
  assert (Hn : get_column n combined
               = Some (col ++ replicate (nrows previous) CNaN)).
  { destruct (concat_rows [current; previous]) as [_ Hget].
    unfold combined. rewrite (Hget n current);
      [|apply list_elem_of_here | by eapply get_column_names].
    simpl. unfold cells_for. by rewrite Hcol, Hprev, app_nil_r. }
  exists r', h', (dropna a).
  split; [exact Hrun|]. split; [exact Hout|]. split; [exact Hn|].
  apply Forall_forall. intros label Hin.
  apply list_elem_of_lookup_1 in Hin as [j Hj].
  unfold dropna in Hj. cbn [index] in Hj.
  apply keep_rows_from in Hj as (i & Hi & Hrow & _).
  rewrite Hidx in Hi. unfold combined, concat in Hi. cbn [index] in Hi.
  apply lookup_seqZ in Hi as [-> Hi].
  destruct (decide (i < nrows current)%nat) as [Hlt|Hge]; [lia|].
  exfalso.
  assert (row_complete a i = false) as Hfalse; [|congruence].
  apply (row_complete_missing a n (col ++ replicate (nrows previous) CNaN)).
  - unfold get_column. rewrite Hcols. by apply assoc_get_app_l.
  - rewrite lookup_app_r by lia. apply lookup_replicate_2.
    simpl in Hi. rewrite Nat.add_0_r in Hi.
    change (nrows current) with (length (index current)) in *.
    unfold nrows in *. lia.
Qed.

Lemma two_seasons_numeric : numeric_fields (concat [two_games; no_assists]).
Proof. apply numeric_fields_check. vm_compute. reflexivity. Qed.

Lemma two_seasons_fresh :
  ∀ name, name ∈ rolling_columns →
    name ∉ column_names (concat [two_games; no_assists]).
Proof. apply Forall_forall. compute_true. Qed.

Lemma preprocess_drops_season_without_column_witness :
  let combined := concat [two_games; no_assists] in
  let h : gmap nat DataFrame := {[0%nat := combined]} in
  let col := replicate 2 (CNum 0) in
  (h !! 0%nat = Some combined ∧ empty combined = false ∧
   numeric_fields combined ∧
   (∀ name, name ∈ rolling_columns → name ∉ column_names combined) ∧
   get_column "AST" two_games = Some col ∧ length col = nrows two_games ∧
   get_column "AST" no_assists = None) ∧
  ∃ r' h' out,
    preprocess_game_log (Some 0%nat) h = (inr (Some r'), h') ∧
    h' !! r' = Some out ∧
    get_column "AST" combined
    = Some (col ++ replicate (nrows no_assists) CNaN) ∧
    Forall (λ label, (0 ≤ label < Z.of_nat (nrows two_games))%Z) (index out).
Proof.
  intros combined h col.
  assert (H1 : h !! 0%nat = Some combined) by apply lookup_singleton_eq.
  assert (H2 : empty combined = false) by reflexivity.
  assert (H5 : get_column "AST" two_games = Some col) by reflexivity.
  assert (H6 : length col = nrows two_games) by reflexivity.
  assert (H7 : get_column "AST" no_assists = None) by reflexivity.
  split; [by repeat split; try exact two_seasons_numeric;
             try exact two_seasons_fresh|].
  exact (preprocess_drops_season_without_column 0 h two_games no_assists
           "AST" col H1 H2 two_seasons_numeric two_seasons_fresh H5 H6 H7).
Defined.

(** ** binary64 *)







Lemma rnd64_0 : rnd64 0 = 0.
Proof. done. Qed.






(** *** Integers *)




Lemma integer_upto_mono b b' x :
  integer_upto b x → (b ≤ b')%Z → integer_upto b' x.
Proof. intros [Hd Hn] Hb. split; [done | lia]. Qed.







(** *** Sums and signs *)










(** *** The binary64 kernel on integer columns *)










(** *** [rnd64] and the IEEE operations

    On these inputs (a quotient that is not a float, the floats 0.1, 0.2
    and 0.3, a tie at the 53rd bit, a quotient below the least subnormal)
    rounding the exact result with [rnd64] gives the float that Rocq's
    binary64 operation gives. *)
Example rnd64_agrees_with_ieee :
  let f1 := float_of 7205759403792794 (-56) in
  let f2 := float_of 7205759403792794 (-55) in
  let f3 := float_of 5404319552844595 (-54) in
  float_value f1 = rnd64 (Q2Qc (1 # 10)) ∧
  float_value f2 = rnd64 (Q2Qc (2 # 10)) ∧
  float_value f3 = rnd64 (Q2Qc (3 # 10)) ∧
  float_value (PrimFloat.add f1 f2) = f64_add (float_value f1) (float_value f2) ∧
  float_value (PrimFloat.sub f3 f1) = f64_sub (float_value f3) (float_value f1) ∧
  float_value (PrimFloat.div (PrimFloat.add (PrimFloat.add f1 f2) f3)
                             (float_of 3 0))
  = f64_div (f64_add (f64_add (float_value f1) (float_value f2))
                     (float_value f3)) (Qc_of_Z 3) ∧
  float_value (PrimFloat.div (float_of 58 0) (float_of 3 0))
  = f64_div (Qc_of_Z 58) (Qc_of_Z 3) ∧
  float_value (PrimFloat.add (float_of 9007199254740992 0) (float_of 1 0))
  = f64_add (Qc_of_Z 9007199254740992) (Qc_of_Z 1) ∧
  float_value (PrimFloat.add (float_of 9007199254740992 0) (float_of 3 0))
  = f64_add (Qc_of_Z 9007199254740992) (Qc_of_Z 3) ∧
  float_value (PrimFloat.div (float_of 1 (-1074)) (float_of 3 0))
  = f64_div (float_value (float_of 1 (-1074))) (Qc_of_Z 3) ∧
  float_value (PrimFloat.div (float_of 5 (-1074)) (float_of 2 0))
  = f64_div (float_value (float_of 5 (-1074))) (Qc_of_Z 2).
Proof. cbv zeta. repeat split; compute_true. Qed.

(** ** Feature engineering with the kernel as a parameter *)

Lemma preprocess_game_log_with_exact :
  preprocess_game_log_with rolling_mean = preprocess_game_log.
Proof. reflexivity. Qed.

Section kernel.
Variable kernel : nat → list cell → option (list cell).






End kernel.

(** ** The rolling columns in binary64 *)







Example rolling64_3_of_10_20 :
  rolling_mean64 3 (ints [10; 20]%Z) = Some (ints [10; 15]%Z).
Proof. compute_true. Qed.




(** ** The further properties at the sample inputs *)

Lemma get_player_data_without_attempts_witness :
  (0 < 1)%Z ∧
  ∃ w', @get_player_data flaky_api "LeBron James" 0 fresh_world
        = (inr None, w') ∧
    requests w' = requests fresh_world ∧
    attempts w' = attempts fresh_world ∧
    slept w' = slept fresh_world ∧
    gamelog_cache w' = gamelog_cache fresh_world.
Proof.
  assert (Hn : (0 < 1)%Z) by lia.
  split; [exact Hn|].
  exact (@get_player_data_without_attempts flaky_api "LeBron James" 0
           fresh_world Hn).
Defined.

Lemma get_player_data_unresolved_witness :
  @find_players_by_full_name flaky_api "Nobody" = inr [] ∧
  ∃ w', @get_player_data flaky_api "Nobody" MAX_RETRIES fresh_world
        = (inr None, w') ∧
    requests w' = requests fresh_world ∧
    attempts w' = attempts fresh_world ∧
    gamelog_cache w' = gamelog_cache fresh_world ∧
    messages w' = messages fresh_world ++ [WarnPlayerNotFound "Nobody"].
Proof.
  split; [reflexivity|].
  exact (@get_player_data_unresolved flaky_api "Nobody" MAX_RETRIES
           fresh_world I).
Defined.

Lemma lebron_run :
  @get_player_data flaky_api "LeBron James" MAX_RETRIES fresh_world
  = (inr (Some (concat [two_games])),
     (@get_player_data flaky_api "LeBron James" MAX_RETRIES fresh_world).2).
Proof.
  rewrite (surjective_pairing (get_player_data _ _ _)) at 1. f_equal.
Qed.

Lemma get_player_data_rows_witness :
  let run := @get_player_data flaky_api "LeBron James" MAX_RETRIES fresh_world in
  let combined := concat [two_games] in
  run = (inr (Some combined), run.2) ∧
  ∃ player_id current previous,
    gamelog_cache run.2 !! (player_id, SEASON_CURRENT) = Some current ∧
    gamelog_cache run.2 !! (player_id, SEASON_PREVIOUS) = Some previous ∧
    let gamelogs := option_list current ++ option_list previous in
    gamelogs ≠ [] ∧
    combined = concat gamelogs ∧
    index combined = seqZ 0 (Z.of_nat (nrows combined)) ∧
    nrows combined = sum_list (nrows <$> gamelogs) ∧
    ∀ g n, g ∈ gamelogs → n ∈ column_names g →
      get_column n combined = Some (mjoin (cells_for n <$> gamelogs)).
Proof.
  intros run combined. split; [exact lebron_run|].
  exact (@get_player_data_rows flaky_api "LeBron James" MAX_RETRIES
           fresh_world combined run.2 lebron_run).
Defined.

Lemma get_player_data_single_attempt_witness :
  let run := @get_player_data flaky_api "LeBron James" MAX_RETRIES fresh_world in
  run = (inr (Some (concat [two_games])), run.2) ∧
  slept run.2 = slept fresh_world ∧
  ∃ made, attempts run.2 = attempts fresh_world ++ made ∧ NoDup made.
Proof.
  intros run. split; [exact lebron_run|].
  exact (@get_player_data_single_attempt flaky_api "LeBron James" MAX_RETRIES
           fresh_world _ run.2 lebron_run).
Defined.

Lemma valid_run_trio : valid_run trio trio_run.
Proof. split; [reflexivity|]. compute_true. Qed.

Lemma NoDup_trio : NoDup trio.
Proof. compute_true. Qed.

Lemma fetch_all_player_data_accounts_witness :
  valid_run trio trio_run ∧
  let '(player_data, shown) := fetch_all_player_data trio trio_run in
  shown = omap notice (as_completed trio trio_run) ∧
  shown ≡ₚ omap notice (zip trio (outcomes trio_run)) ∧
  (NoDup trio → (size player_data + length shown)%nat = length trio).
Proof.
  split; [exact valid_run_trio|].
  exact (fetch_all_player_data_accounts trio trio_run valid_run_trio).
Defined.

Lemma fetch_all_player_data_order_witness :
  (NoDup trio ∧ valid_run trio trio_run) ∧
  (∀ run', valid_run trio run' → outcomes run' = outcomes trio_run →
     (fetch_all_player_data trio run').1
     = (fetch_all_player_data trio trio_run).1) ∧
  (∀ i player data, trio !! i = Some player →
     outcomes trio_run !! i = Some (inr (Some data)) → empty data = false →
     (fetch_all_player_data trio trio_run).1 !! player = Some data).
Proof.
  split; [split; [exact NoDup_trio | exact valid_run_trio]|].
  exact (fetch_all_player_data_order trio trio_run NoDup_trio valid_run_trio).
Defined.

Lemma preprocess_game_log_stops_at_field_witness :
  let h : gmap nat DataFrame := {[0%nat := no_assists]} in
  let pre := ["MIN"; "FGM"; "FGA"; "FG_PCT"; "FG3M"; "FG3A"; "FG3_PCT";
              "FTM"; "FTA"; "FT_PCT"; "OREB"; "DREB"; "REB"] in
  let post := ["STL"; "BLK"; "PTS"] in
  let written := feature ← pre; window ← rolling_windows; [(feature, window)] in
  (h !! 0%nat = Some no_assists ∧ empty no_assists = false ∧
   features ++ [target] = pre ++ "AST" :: post ∧
   Forall (λ g, is_Some (get_column g no_assists ≫= as_numeric)) pre ∧
   get_column "AST" no_assists ≫= as_numeric = None) ∧
  ∃ a,
    preprocess_game_log (Some 0%nat) h
    = (inl (match get_column "AST" no_assists with
            | None => KeyError "AST"
            | Some _ => DataError
            end), <[0%nat := a]> h) ∧
    index a = index no_assists ∧
    columns a
    = assoc_set_all (derived_columns written no_assists) (columns no_assists) ∧
    length (derived_columns written no_assists) = (3 * length pre)%nat.
Proof.
  intros h pre post written.
  assert (H1 : h !! 0%nat = Some no_assists) by apply lookup_singleton_eq.
  assert (H2 : empty no_assists = false) by reflexivity.
  assert (H3 : features ++ [target] = pre ++ "AST" :: post) by reflexivity.
  assert (H4 : Forall (λ g, is_Some (get_column g no_assists ≫= as_numeric)) pre)
    by compute_true.
  assert (H5 : get_column "AST" no_assists ≫= as_numeric = None) by reflexivity.
  split; [by repeat split|].
  exact (preprocess_game_log_stops_at_field 0 h no_assists pre "AST" post
           H1 H2 H3 H4 H5).
Defined.

Lemma numeric_fields_gap_log : numeric_fields gap_log.
Proof. apply numeric_fields_check. vm_compute. reflexivity. Qed.

Lemma rolling_columns_fresh_gap_log :
  ∀ n, n ∈ rolling_columns → n ∉ column_names gap_log.
Proof. apply Forall_forall. compute_true. Qed.

Lemma preprocess_game_log_output_witness :
  let h : gmap nat DataFrame := {[0%nat := gap_log]} in
  (h !! 0%nat = Some gap_log ∧ empty gap_log = false ∧
   numeric_fields gap_log ∧
   (∀ n, n ∈ rolling_columns → n ∉ column_names gap_log)) ∧
  keep_rows (row_complete gap_log) (index gap_log) = [0; 2]%Z ∧
  ∃ r' h' out,
    preprocess_game_log (Some 0%nat) h = (inr (Some r'), h') ∧
    h' !! r' = Some out ∧
    complete out ∧
    index out = keep_rows (row_complete gap_log) (index gap_log) ∧
    (∀ n, n ∈ column_names gap_log →
       get_column n out
       = keep_rows (row_complete gap_log) <$> get_column n gap_log) ∧
    (∀ i label, index gap_log !! i = Some label →
       row_complete gap_log i = true →
       let j := kept_before (row_complete gap_log) i in
       index out !! j = Some label ∧
       ∀ n col c, get_column n gap_log = Some col → col !! i = Some c →
         get_column n out ≫= (.!! j) = Some c) ∧
    (∀ j label, index out !! j = Some label →
       ∃ i, index gap_log !! i = Some label ∧
            row_complete gap_log i = true ∧
            j = kept_before (row_complete gap_log) i) ∧
    sublist (index out) (index gap_log) ∧
    nrows out = kept_before (row_complete gap_log) (nrows gap_log).
Proof.
  intros h.
  assert (H1 : h !! 0%nat = Some gap_log) by apply lookup_singleton_eq.
  assert (H2 : empty gap_log = false) by reflexivity.
  split; [by repeat split; try exact numeric_fields_gap_log;
             try exact rolling_columns_fresh_gap_log|].
  split; [by vm_compute|].
  exact (preprocess_game_log_output 0 h gap_log H1 H2
           numeric_fields_gap_log rolling_columns_fresh_gap_log).
Defined.

Lemma raw_names_two_games :
  Forall (λ n, contains "_rolling_" n = false) (column_names two_games).
Proof. compute_true. Qed.

Lemma model_inputs_rolling_columns_witness :
  let h : gmap nat DataFrame := {[0%nat := two_games]} in
  (h !! 0%nat = Some two_games ∧ empty two_games = false ∧
   numeric_fields two_games ∧
   Forall (λ n, contains "_rolling_" n = false) (column_names two_games)) ∧
  ∃ r' h' out X y,
    preprocess_game_log (Some 0%nat) h = (inr (Some r'), h') ∧
    h' !! r' = Some out ∧
    model_inputs out = Some (X, y) ∧
    column_names X = rolling_columns ∧
    length (column_names X) = 51%nat ∧
    (∀ n, n ∈ column_names two_games → n ∉ column_names X) ∧
    index X = index out ∧
    (∀ n, n ∈ rolling_columns → get_column n X = get_column n out) ∧
    get_column target out = Some y.
Proof.
  intros h.
  assert (H1 : h !! 0%nat = Some two_games) by apply lookup_singleton_eq.
  assert (H2 : empty two_games = false) by reflexivity.
  split; [by repeat split; try exact numeric_fields_two_games;
             try exact raw_names_two_games|].
  exact (model_inputs_rolling_columns 0 h two_games H1 H2
           numeric_fields_two_games raw_names_two_games).
Defined.

Lemma declared_run_five_games :
  @train_models declared (features_of five_games) (target_of five_games) []
  = (inr (None, results_on five_games), calls_on five_games).
Proof. vm_compute. reflexivity. Qed.

Lemma train_models_best_none_witness :
  let X := features_of five_games in
  let y := target_of five_games in
  let res := results_on five_games in
  let best : option estimator := None in
  @train_models declared X y [] = (inr (best, res), calls_on five_games) ∧
  (best = None ↔ Forall (λ s, s = NaN ∨ s = NegInf) (scores_of res)) ∧
  (∀ m, best = Some m →
     ∃ c, c ∈ res ∧ m = result_model c.2 ∧ comparable (result_score c.2)).
Proof.
  intros X y res best. split; [exact declared_run_five_games|].
  exact (@train_models_best_none declared X y [] best res
           (calls_on five_games) declared_run_five_games).
Defined.

Lemma best_result_defined_witness :
  let X := features_of ten_games in
  let y := target_of ten_games in
  let res := results_on ten_games in
  let best := Some (GradientBoostingRegressor 100 42) in
  @train_models declared X y [] = (inr (best, res), calls_on ten_games) ∧
  ∃ i item,
    res !! i = Some item ∧ best_result res = Some item.2 ∧
    ∀ j c, (i < j)%nat → res !! j = Some c →
      py_gt (result_score c.2) (result_score item.2) = false.
Proof.
  intros X y res best.
  destruct declared_run_ten_games as (_ & Hrun & _).
  split; [exact Hrun|].
  exact (@best_result_defined declared X y [] best res
           (calls_on ten_games) Hrun).
Defined.

Lemma shooting_log_sums :
  column_sum "FGA" shooting_log ≠ Some 0 ∧
  column_sum "MIN" shooting_log ≠ Some 0.
Proof. split; compute_true. Qed.

Lemma impact_metrics_agree_witness :
  (column_sum "FGA" shooting_log ≠ Some 0 ∧
   column_sum "MIN" shooting_log ≠ Some 0) ∧
  App.impact_metrics shooting_log = App1.impact_metrics shooting_log.
Proof.
  split; [exact shooting_log_sums|].
  exact (impact_metrics_agree shooting_log (proj1 shooting_log_sums)
           (proj2 shooting_log_sums)).
Defined.




Lemma get_player_data_versions_witness :
  let w1 := App1.mkWorld [] [] ∅ in
  ((1 ≤ MAX_RETRIES)%Z ∧ requests fresh_world = App1.requests w1 ∧
   gamelog_cache fresh_world = App1.gamelog_cache w1) ∧
  ∃ result w',
    @get_player_data flaky_api "LeBron James" MAX_RETRIES fresh_world
      = (inr result, w') ∧
    ∃ w1',
      @App1.get_player_data flaky_api "LeBron James" w1 = (inr result, w1') ∧
      requests w' = App1.requests w1' ∧
      gamelog_cache w' = App1.gamelog_cache w1'.
Proof.
  intros w1.
  assert (Hn : (1 ≤ MAX_RETRIES)%Z) by (unfold MAX_RETRIES; lia).
  split; [by repeat split|].
  exact (@get_player_data_versions flaky_api "LeBron James" MAX_RETRIES
           fresh_world w1 Hn eq_refl eq_refl).
Defined.
